(** * PINN heat-equation notebook: loss assembly, derivative operator, driver

    A shallow embedding of `PINN_cont_customized_rev.ipynb`.

    Conventions of the embedding.
    - Scalars are real numbers: rounding, infinities and NaN of the float32
      tensors are not represented.  In particular the mean of an empty tensor
      (NaN in torch) has no faithful value here: [torch_mean] gives the
      product of the empty sum and the inverse of zero.  The sign of a loss
      is therefore stated for means taken over at least one element.
    - A tensor has rank 0, 1 or 2 and stores, per element, the scalar
      computation graph that produced it ([expr]); leaves of the graph are
      elements of tensors that require grad.  The values of leaves live in the
      store of the interpreter state, so that an optimizer step can update
      parameters in place.
    - `torch.autograd.grad(dy, x, grad_outputs=ones_like(dy), create_graph=True)`
      is the gradient of the sum of the elements of [dy]; with
      `create_graph=True` the result is again a graph ([D] below follows the
      backward formulas of the operators used by the notebook).
    - Python exceptions are outcomes [Raise e]; state changes made before an
      exception are kept.
    - Not represented: tensors of rank above two ([RankUnsupported]),
      differentiation with respect to a tensor that is itself the result of
      an operation ([InteriorNode]; the notebook differentiates with respect
      to leaves only), data types and devices.  Whether a leaf is part of a
      graph is read off the elements, so a gradient of an empty batch is
      reported as unused (torch returns an empty gradient), and an empty
      matrix does not remember its number of columns; the statements about
      gradients are for batches that are not empty.
    - Autograd keeps one graph per tensor, [grad] one graph per element.
      The two differ for a model applied to `torch.stack((x_f, t_f))`: in
      torch every output row is linked to both batches through the stacked
      tensor, also to the one whose column the model does not read, and the
      gradient with respect to one batch carries the graph of the gradient
      of the whole stacked input.  They agree where the statements about `f`
      are made: for a model whose output uses [t] and whose gradient in [x]
      still uses [x] (every `Wave` with a hidden layer) both return the
      residual, and for a model that is affine in its input row ([affine])
      both raise an autograd error.  In between (`u = x * t`, `u = x ** 2`)
      torch passes zeros where [grad] raises, and nothing is stated about
      `f` there.
    - `nn.Linear.__init__` initializes its parameters (`reset_parameters`)
      from the global generator.  Neither these values nor the draws they
      take are represented: [nn_Linear] only creates the two tensors, and
      what is stated about initial weights starts from the state in which
      `model.apply(init_weights)` begins.
    - The NumPy arrays of the driver cells are lists of reals; the results
      of the calls of `np.random` and of `lhs` are inputs of the cells. *)

From Stdlib Require Import Reals Lra Lia List ZArith Bool.
Import ListNotations.

Set Implicit Arguments.

(** ** Scalar computation graphs *)

Module Graph.

Local Open Scope R_scope.

(** A graph variable is either an element of a leaf tensor that requires grad
    ([Elem id i j], position [(i, j)] of the tensor created as number [id]), or
    an input feature of a network body ([Arg k], column [k] of an input row). *)
Inductive var : Type :=
| Arg (k : nat)
| Elem (id i j : nat).

Definition var_eqb (v w : var) : bool :=
  match v, w with
  | Arg k, Arg k' => Nat.eqb k k'
  | Elem a i j, Elem a' i' j' => Nat.eqb a a' && Nat.eqb i i' && Nat.eqb j j'
  | _, _ => false
  end.

Inductive expr : Type :=
| Const (c : R)
| Var (v : var)
| Add (a b : expr)
| Sub (a b : expr)
| Mul (a b : expr)
| Neg (a : expr)
| Pow (a : expr) (n : nat)
| Exp (a : expr)
| Tanh (a : expr).

Definition env := var -> R.

Fixpoint eval (rho : env) (e : expr) : R :=
  match e with
  | Const c => c
  | Var v => rho v
  | Add a b => eval rho a + eval rho b
  | Sub a b => eval rho a - eval rho b
  | Mul a b => eval rho a * eval rho b
  | Neg a => - eval rho a
  | Pow a n => eval rho a ^ n
  | Exp a => exp (eval rho a)
  | Tanh a => tanh (eval rho a)
  end.

Definition upd (rho : env) (v : var) (x : R) : env :=
  fun w => if var_eqb w v then x else rho w.

(** [mentions v e]: the variable is a node of the graph of [e]. *)
Fixpoint mentions (v : var) (e : expr) : bool :=
  match e with
  | Const _ => false
  | Var w => var_eqb w v
  | Add a b | Sub a b | Mul a b => mentions v a || mentions v b
  | Neg a | Pow a _ | Exp a | Tanh a => mentions v a
  end.

(** [tracked e]: some leaf that requires grad is a node of the graph. *)
Fixpoint tracked (e : expr) : bool :=
  match e with
  | Const _ => false
  | Var (Elem _ _ _) => true
  | Var (Arg _) => false
  | Add a b | Sub a b | Mul a b => tracked a || tracked b
  | Neg a | Pow a _ | Exp a | Tanh a => tracked a
  end.

(** Gradients that do not flow are [None] (an undefined gradient in autograd). *)
Definition oadd (x y : option expr) : option expr :=
  match x, y with
  | Some a, Some b => Some (Add a b)
  | Some a, None => Some a
  | None, Some b => Some b
  | None, None => None
  end.

Definition osub (x y : option expr) : option expr :=
  match x, y with
  | Some a, Some b => Some (Sub a b)
  | Some a, None => Some a
  | None, Some b => Some (Neg b)
  | None, None => None
  end.

(** Backward formula of `pow(self, n)`: zeros for [n = 0], otherwise
    `grad * (n * self.pow(n - 1))`. *)
Definition pow_backward (g a : expr) (n : nat) : expr :=
  match n with
  | O => Mul g (Const 0)
  | S m => Mul g (Mul (Const (INR n)) (Pow a m))
  end.

(** The differentiable gradient of [e] with respect to [v], seeded with one.
    mul: `grad * other`; exp: `grad * result`; tanh: `grad * (1 - result^2)`. *)
Fixpoint D (v : var) (e : expr) : option expr :=
  match e with
  | Const _ => None
  | Var w => if var_eqb w v then Some (Const 1) else None
  | Add a b => oadd (D v a) (D v b)
  | Sub a b => osub (D v a) (D v b)
  | Mul a b =>
      oadd (option_map (fun g => Mul g b) (D v a))
           (option_map (fun g => Mul g a) (D v b))
  | Neg a => option_map Neg (D v a)
  | Pow a n => option_map (fun g => pow_backward g a n) (D v a)
  | Exp a => option_map (fun g => Mul g (Exp a)) (D v a)
  | Tanh a =>
      option_map (fun g => Mul g (Sub (Const 1) (Pow (Tanh a) 2))) (D v a)
  end.

(** [k] gradient passes in a row, each applied to the graph of the previous
    one. *)
Fixpoint Dn (v : var) (k : nat) (e : expr) : option expr :=
  match k with
  | O => Some e
  | S k' => match D v e with
            | Some g => Dn v k' g
            | None => None
            end
  end.


(** Value of an optional gradient: an undefined gradient counts as zero. *)
Definition oval (rho : env) (d : option expr) : R :=
  match d with
  | Some g => eval rho g
  | None => 0
  end.

(** Sum of a list of graphs, as accumulated by the engine. *)
Fixpoint esum (l : list expr) : expr :=
  match l with
  | [] => Const 0
  | [a] => a
  | a :: l' => Add a (esum l')
  end.

(** Substitution of the input features of a network body by the graphs of an
    input row. *)
Fixpoint inst (row : nat -> expr) (e : expr) : expr :=
  match e with
  | Const c => Const c
  | Var (Arg k) => row k
  | Var (Elem a i j) => Var (Elem a i j)
  | Add a b => Add (inst row a) (inst row b)
  | Sub a b => Sub (inst row a) (inst row b)
  | Mul a b => Mul (inst row a) (inst row b)
  | Neg a => Neg (inst row a)
  | Pow a n => Pow (inst row a) n
  | Exp a => Exp (inst row a)
  | Tanh a => Tanh (inst row a)
  end.

Definition row_of (l : list expr) : nat -> expr :=
  fun k => nth k l (Const 0).

(** The environment seen by a network body applied to an input row. *)
Definition row_env (rho : env) (row : nat -> expr) : env :=
  fun v => match v with
           | Arg k => eval rho (row k)
           | Elem _ _ _ => rho v
           end.

(** The function of the two input features computed by a network body. *)
Definition net_fun (rho : env) (body : expr) (x t : R) : R :=
  eval (row_env rho (row_of [Const x; Const t])) body.

End Graph.

(** ** Tensors and the autograd substrate *)

Module Torch.

Import Graph.
Local Open Scope R_scope.

(** Arrays of rank 0, 1 and 2 (rows of a matrix have equal length by
    construction). *)
Inductive arr (A : Type) : Type :=
| Sc (a : A)
| Vec (l : list A)
| Mat (rows : list (list A)).

Arguments Sc {A} a.
Arguments Vec {A} l.
Arguments Mat {A} rows.

Definition amap {A B : Type} (g : A -> B) (d : arr A) : arr B :=
  match d with
  | Sc a => Sc (g a)
  | Vec l => Vec (map g l)
  | Mat rows => Mat (map (map g) rows)
  end.

(** All elements, row-major. *)
Definition elems {A : Type} (d : arr A) : list A :=
  match d with
  | Sc a => [a]
  | Vec l => l
  | Mat rows => concat rows
  end.

Definition aget {A : Type} (d : arr A) (i j : nat) : option A :=
  match d with
  | Sc a => match i, j with O, O => Some a | _, _ => None end
  | Vec l => match i with O => nth_error l j | _ => None end
  | Mat rows => match nth_error rows i with
                | Some r => nth_error r j
                | None => None
                end
  end.

Fixpoint mapi_from {A B : Type} (g : nat -> A -> B) (k : nat) (l : list A)
  : list B :=
  match l with
  | [] => []
  | a :: l' => g k a :: mapi_from g (S k) l'
  end.

Definition mapi {A B : Type} (g : nat -> A -> B) (l : list A) : list B :=
  mapi_from g 0 l.

(** The array of positions of an array: an element at [(i, j)] becomes
    [g i j]; scalars sit at [(0, 0)] and the elements of a vector at
    [(0, j)]. *)
Definition apos {A B : Type} (g : nat -> nat -> B) (d : arr A) : arr B :=
  match d with
  | Sc _ => Sc (g O O)
  | Vec l => Vec (mapi (fun j _ => g O j) l)
  | Mat rows => Mat (mapi (fun i r => mapi (fun j _ => g i j) r) rows)
  end.

(** Autograd bookkeeping of a tensor: [Detached] is `requires_grad=False`
    (a leaf by convention), [LeafVar id] is a leaf with `requires_grad=True`,
    [Derived] is the result of an operation on a tensor that requires grad
    (it has a `grad_fn`, hence is not a leaf). *)
Inductive origin : Type :=
| Detached
| LeafVar (id : nat)
| Derived.

Record tensor : Type := mkTensor { origin_of : origin; data : arr expr }.

Definition requires_grad (t : tensor) : bool :=
  match origin_of t with
  | Detached => false
  | LeafVar _ | Derived => true
  end.

Definition is_leaf (t : tensor) : bool :=
  match origin_of t with
  | Derived => false
  | Detached | LeafVar _ => true
  end.

(** The leaf tensor number [id] with the layout of [d]. *)
Definition leaf_like {A : Type} (id : nat) (d : arr A) : tensor :=
  mkTensor (LeafVar id) (apos (fun i j => Var (Elem id i j)) d).

(** A flat leaf tensor of [n] elements. *)
Definition leaf1 (id n : nat) : tensor :=
  leaf_like id (Vec (repeat tt n)).

(** A tensor of constants that does not require grad. *)
Definition const1 (l : list R) : tensor :=
  mkTensor Detached (Vec (map Const l)).

(** Origin of the result of an operation. *)
Definition result_origin (tracks : bool) : origin :=
  if tracks then Derived else Detached.

(** *** Interpreter state, exceptions, the monad *)

Inductive violation : Type :=
| FlagOnNonLeaf      (* you can only change requires_grad flags of leaf variables *)
| OutputNotTracked   (* element 0 of tensors does not require grad *)
| InputNotTracked    (* one of the differentiated Tensors does not require grad *)
| InputUnused        (* ... appears to not have been used in the graph *)
| InteriorNode.      (* differentiation w.r.t. a non-leaf node: not represented *)

Inductive exn : Type :=
| GraphViolation (w : violation)
| ShapeMismatch
| IndexError
| ValueError
| TypeError
| RankUnsupported.   (* a tensor of rank above 2: not represented *)

Inductive outcome (A : Type) : Type :=
| Ok (a : A)
| Raise (e : exn).

Arguments Ok {A} a.
Arguments Raise {A} e.

Record state : Type := mkState {
  next_id : nat;                 (* number of the next tensor that gets a leaf identity *)
  store : env;                   (* values of the leaves *)
  grad_of : var -> option R;     (* the `.grad` fields of the leaves *)
  iter : Z;                      (* the notebook's global `iter` *)
  stdout : list (Z * R);         (* progress lines printed so far: (iter, loss) *)
  rng : nat -> R                 (* the standard-normal draws the global generator will give *)
}.

Definition M (A : Type) : Type := state -> outcome A * state.

Definition ret {A : Type} (a : A) : M A := fun s => (Ok a, s).

Definition raise {A : Type} (e : exn) : M A := fun s => (Raise e, s).

Definition bind {A B : Type} (m : M A) (k : A -> M B) : M B :=
  fun s => match m s with
           | (Ok a, s') => k a s'
           | (Raise e, s') => (Raise e, s')
           end.

(** A computation that neither reads nor changes the state. *)
Definition stateless {A : Type} (m : M A) : Prop :=
  exists o, forall s, m s = (o, s).

(** A computation that leaves the counter and the printed lines alone. *)
Definition silent {A : Type} (m : M A) : Prop :=
  forall s, iter (snd (m s)) = iter s /\ stdout (snd (m s)) = stdout s.

Definition get : M state := fun s => (Ok s, s).

(** *** Tensor operations used by the notebook *)

Definition tvalue (rho : env) (t : tensor) : arr R := amap (eval rho) (data t).

(** `torch.zeros_like(t)`: a new tensor, `requires_grad=False`. *)
Definition zeros_like (t : tensor) : tensor :=
  mkTensor Detached (amap (fun _ => Const 0) (data t)).

(** Element-wise operation with one tensor operand. *)
Definition pointwise (g : expr -> expr) (t : tensor) : tensor :=
  mkTensor (result_origin (requires_grad t)) (amap g (data t)).

(** `-t`, `torch.exp(t)`, `c * t` for a Python float [c], `t ** n`. *)
Definition torch_neg : tensor -> tensor := pointwise Neg.
Definition torch_exp : tensor -> tensor := pointwise Exp.
Definition torch_rmul (c : R) : tensor -> tensor := pointwise (Mul (Const c)).
Definition torch_pow (t : tensor) (n : nat) : tensor :=
  pointwise (fun e => Pow e n) t.

(** `t.mean()`: the sum of all elements divided by their number.  For an
    empty tensor torch gives NaN; the graph built here is the empty sum
    times the inverse of zero and its real value carries no meaning. *)
Definition torch_mean (t : tensor) : tensor :=
  mkTensor (result_origin (requires_grad t))
    (Sc (Mul (esum (elems (data t)))
             (Const (/ INR (length (elems (data t))))))).

(** Values written into the store when a tensor becomes a leaf variable. *)
Definition write (id : nat) (vals : arr R) (rho : env) : env :=
  fun v => match v with
           | Elem a i j =>
               if Nat.eqb a id
               then match aget vals i j with Some r => r | None => rho v end
               else rho v
           | Arg _ => rho v
           end.

(** `t.requires_grad = True`.  Only leaves may change the flag; a detached
    tensor becomes a new leaf variable holding its current values. *)
Definition set_requires_grad (t : tensor) : M tensor :=
  fun s =>
    match origin_of t with
    | Derived => (Raise (GraphViolation FlagOnNonLeaf), s)
    | LeafVar _ => (Ok t, s)
    | Detached =>
        (Ok (leaf_like (next_id s) (data t)),
         mkState (S (next_id s))
                 (write (next_id s) (tvalue (store s) t) (store s))
                 (grad_of s) (iter s) (stdout s) (rng s))
    end.

(** Broadcasting of two rows: equal lengths pair up, a row of length one is
    repeated. *)
Definition brow (g : expr -> expr -> expr) (r1 r2 : list expr)
  : option (list expr) :=
  if Nat.eqb (length r1) (length r2)
  then Some (map (fun p => g (fst p) (snd p)) (combine r1 r2))
  else match r1, r2 with
       | [a], _ => Some (map (g a) r2)
       | _, [b] => Some (map (fun x => g x b) r1)
       | _, _ => None
       end.

Fixpoint sequence {A : Type} (l : list (option A)) : option (list A) :=
  match l with
  | [] => Some []
  | None :: _ => None
  | Some a :: l' => option_map (cons a) (sequence l')
  end.

Definition bmat (g : expr -> expr -> expr) (m1 m2 : list (list expr))
  : option (list (list expr)) :=
  if Nat.eqb (length m1) (length m2)
  then sequence (map (fun p => brow g (fst p) (snd p)) (combine m1 m2))
  else match m1, m2 with
       | [r], _ => sequence (map (brow g r) m2)
       | _, [r] => sequence (map (fun x => brow g x r) m1)
       | _, _ => None
       end.

(** Broadcasting of two arrays: shapes are aligned at the last axis, so a
    vector meets a matrix as a single row, and an [(n, 1)] matrix meets a
    vector of length [m] as an [(n, m)] matrix. *)
Definition broadcast (g : expr -> expr -> expr) (d1 d2 : arr expr)
  : option (arr expr) :=
  match d1, d2 with
  | Sc a, Sc b => Some (Sc (g a b))
  | Sc a, Vec l => Some (Vec (map (g a) l))
  | Vec l, Sc b => Some (Vec (map (fun x => g x b) l))
  | Sc a, Mat m => Some (Mat (map (map (g a)) m))
  | Mat m, Sc b => Some (Mat (map (map (fun x => g x b)) m))
  | Vec l1, Vec l2 => option_map Vec (brow g l1 l2)
  | Vec l, Mat m => option_map Mat (sequence (map (brow g l) m))
  | Mat m, Vec l => option_map Mat (sequence (map (fun r => brow g r l) m))
  | Mat m1, Mat m2 => option_map Mat (bmat g m1 m2)
  end.

(** Element-wise operation with two tensor operands. *)
Definition binary (g : expr -> expr -> expr) (a b : tensor) : M tensor :=
  match broadcast g (data a) (data b) with
  | Some d =>
      ret (mkTensor (result_origin (requires_grad a || requires_grad b)) d)
  | None => raise ShapeMismatch
  end.

Definition torch_add : tensor -> tensor -> M tensor := binary Add.
Definition torch_sub : tensor -> tensor -> M tensor := binary Sub.

(** `torch.stack((a, b), axis=1)` of two flat tensors: the [(n, 2)] matrix
    of the pairs. *)
Definition torch_stack (a b : tensor) : M tensor :=
  match data a, data b with
  | Vec la, Vec lb =>
      if Nat.eqb (length la) (length lb)
      then ret (mkTensor (result_origin (requires_grad a || requires_grad b))
                         (Mat (map (fun p => [fst p; snd p]) (combine la lb))))
      else raise ShapeMismatch
  | Sc _, Sc _ => raise IndexError
  | Mat _, Mat _ => raise RankUnsupported
  | _, _ => raise ShapeMismatch
  end.

(** `loss.item()`. *)
Definition item (t : tensor) : M R :=
  fun s => match elems (data t) with
           | [e] => (Ok (eval (store s) e), s)
           | _ => (Raise ValueError, s)
           end.

(** *** Reverse-mode differentiation *)

Fixpoint mentions_leaf (id : nat) (e : expr) : bool :=
  match e with
  | Const _ => false
  | Var (Elem a _ _) => Nat.eqb a id
  | Var (Arg _) => false
  | Add a b | Sub a b | Mul a b => mentions_leaf id a || mentions_leaf id b
  | Neg a | Pow a _ | Exp a | Tanh a => mentions_leaf id a
  end.

(** Gradient of the sum of [outs] with respect to one leaf element
    (`grad_outputs` is all ones): the contributions of the outputs the
    gradient reaches, zero when it reaches none. *)
Definition vjp (v : var) (outs : list expr) : expr :=
  esum (flat_map (fun e => match D v e with
                           | Some g => [g]
                           | None => []
                           end) outs).

(** `torch.autograd.grad(dy, x, grad_outputs=torch.ones_like(dy),
    create_graph=True, retain_graph=True)[0]`.  Whether [x] is used, and
    whether the result requires grad, is decided on the graphs of the
    elements of [dy]. *)
Definition grad (dy x : tensor) : M tensor :=
  match origin_of dy with
  | Detached => raise (GraphViolation OutputNotTracked)
  | LeafVar _ | Derived =>
      match origin_of x with
      | Detached => raise (GraphViolation InputNotTracked)
      | Derived => raise (GraphViolation InteriorNode)
      | LeafVar id =>
          if existsb (mentions_leaf id) (elems (data dy))
          then
            let g := apos (fun i j => vjp (Elem id i j) (elems (data dy)))
                          (data x) in
            ret (mkTensor (result_origin (existsb tracked (elems g))) g)
          else raise (GraphViolation InputUnused)
      end
  end.

(** `loss.backward(retain_graph=True)`: accumulates the gradient of the
    scalar loss into the `.grad` field of every leaf of its graph. *)
Definition backward (loss : tensor) : M unit :=
  fun s =>
    match origin_of loss, data loss with
    | Detached, _ => (Raise (GraphViolation OutputNotTracked), s)
    | _, Sc e =>
        (Ok tt,
         mkState (next_id s) (store s)
                 (fun v => match D v e with
                           | Some g =>
                               Some (match grad_of s v with
                                     | Some a => a
                                     | None => 0
                                     end + eval (store s) g)
                           | None => grad_of s v
                           end)
                 (iter s) (stdout s) (rng s))
    | _, _ => (Raise ValueError, s)
    end.

(** An optimizer holds the identities of the parameter tensors it updates. *)
Record optimizer : Type := mkOptimizer { params : list nat }.

(** `optimizer.zero_grad()`. *)
Definition zero_grad (opt : optimizer) : M unit :=
  fun s =>
    (Ok tt,
     mkState (next_id s) (store s)
             (fun v => match v with
                       | Elem a _ _ =>
                           if existsb (Nat.eqb a) (params opt)
                           then None else grad_of s v
                       | Arg _ => grad_of s v
                       end)
             (iter s) (stdout s) (rng s)).

(** A model is a callable on tensors that knows its parameter tensors. *)
Record model : Type := mkModel {
  forward : tensor -> M tensor;
  parameters : list nat
}.

(** Identities of the leaf tensors of a graph. *)
Fixpoint leaf_ids (e : expr) : list nat :=
  match e with
  | Const _ => []
  | Var (Elem a _ _) => [a]
  | Var (Arg _) => []
  | Add a b | Sub a b | Mul a b => leaf_ids a ++ leaf_ids b
  | Neg a | Pow a _ | Exp a | Tanh a => leaf_ids a
  end.

(** The models of the notebook act row by row on an [(n, 2)] input and give
    an [(n, 1)] output (`nn.Linear(2, _)` first, `nn.Linear(_, 1)` last):
    [body] is the graph of the output in terms of the two features of a row
    ([Arg 0], [Arg 1]) and of the parameters (leaves). *)
Definition rowwise_forward (body : expr) : tensor -> M tensor :=
  fun inp =>
    match data inp with
    | Mat rows =>
        if forallb (fun r => Nat.eqb (length r) 2) rows
        then ret (mkTensor (result_origin (requires_grad inp || tracked body))
                           (Mat (map (fun r => [inst (row_of r) body]) rows)))
        else raise ShapeMismatch
    | Vec r =>
        if Nat.eqb (length r) 2
        then ret (mkTensor (result_origin (requires_grad inp || tracked body))
                           (Vec [inst (row_of r) body]))
        else raise ShapeMismatch
    | Sc _ => raise ShapeMismatch
    end.

Definition rowwise (body : expr) : model :=
  mkModel (rowwise_forward body) (nodup Nat.eq_dec (leaf_ids body)).

(** Rows of samples: feature [k] of every sample [i] is element [i] of the
    leaf tensor [id], and no other feature mentions that tensor. *)
Definition feeds (rw : nat -> nat -> expr) (k id : nat) : Prop :=
  (forall i, rw i k = Var (Elem id 0 i)) /\
  (forall i k', k' <> k -> mentions_leaf id (rw i k') = false).

(** Row [j] of the stack of a flat leaf batch and a flat batch of constants. *)
Definition boundary_row (id : nat) (ts : list R) (j : nat) : nat -> expr :=
  row_of [Var (Elem id 0 j); Const (nth j ts 0)].

(** Row [i] of the stack of two flat leaf batches. *)
Definition sample (ix it i : nat) : nat -> expr :=
  row_of [Var (Elem ix 0 i); Var (Elem it 0 i)].

(** [bent v e]: the gradient of [e] with respect to [v] is defined and still
    has [v] in its graph, so that a second differentiation pass with respect
    to the same variable is valid.  [curved k body] is this for feature [k]
    of a network body. *)
Definition bent (v : var) (e : expr) : bool :=
  match D v e with
  | Some g => mentions v g
  | None => false
  end.

Definition curved (k : nat) (body : expr) : bool := bent (Arg k) body.

(** [affine body]: the gradients of a network body with respect to its two
    features, where they are defined, have no feature left in their graphs,
    as for a body that is affine in its input row (`u = x + t`, a single
    `nn.Linear`). *)
Definition featureless (e : expr) : bool :=
  negb (mentions (Arg 0) e) && negb (mentions (Arg 1) e).

Definition affine (body : expr) : bool :=
  match D (Arg 0) body with Some g => featureless g | None => true end
  && match D (Arg 1) body with Some g => featureless g | None => true end.

(** Value of a scalar tensor (zero for the other ranks). *)
Definition sval (rho : env) (t : tensor) : R :=
  match data t with
  | Sc e => eval rho e
  | Vec _ | Mat _ => 0
  end.

(** The shape of an array: no axis for a scalar, the length of a vector, the
    numbers of rows and of columns of a matrix (of the first row: an empty
    matrix does not remember its number of columns). *)
Definition shape {A : Type} (d : arr A) : list nat :=
  match d with
  | Sc _ => []
  | Vec l => [length l]
  | Mat rows =>
      [length rows; match rows with r :: _ => length r | [] => 0%nat end]
  end.

(** A computation that at most creates new leaf tensors: tensors that exist
    keep their values, and gradients and the generator are left alone. *)
Definition allocates_only {A : Type} (m : M A) : Prop :=
  forall s,
    (next_id s <= next_id (snd (m s)))%nat
    /\ (forall a i j, (a < next_id s)%nat ->
                      store (snd (m s)) (Elem a i j) = store s (Elem a i j))
    /\ (forall k, store (snd (m s)) (Arg k) = store s (Arg k))
    /\ grad_of (snd (m s)) = grad_of s
    /\ rng (snd (m s)) = rng s.

Declare Scope monad_scope.
Delimit Scope monad_scope with monad.
Notation "x <- m ;; k" := (bind m (fun x => k))
  (at level 61, m at next level, right associativity) : monad_scope.
Notation "m ;; k" := (bind m (fun _ => k))
  (at level 61, right associativity) : monad_scope.

End Torch.

(** ** The notebook *)

Module Notebook.

Import Graph Torch.
Local Open Scope R_scope.
Local Open Scope monad_scope.

(** `for i in range(n): dy = step(dy)` *)
Fixpoint for_range (n : nat) (step : tensor -> M tensor) (dy : tensor)
  : M tensor :=
  match n with
  | O => ret dy
  | S n' => dy' <- step dy ;; for_range n' step dy'
  end.

(** `derivative(dy, x, order)`; `range(order)` is empty for [order <= 0]. *)
Definition derivative (dy x : tensor) (order : Z) : M tensor :=
  for_range (Z.to_nat order) (fun dy => grad dy x) dy.

(** `f(model, x_f, t_f)`: the PDE at the collocation points. *)
Definition f (mdl : model) (x_f t_f : tensor) : M tensor :=
  inp <- torch_stack x_f t_f ;;
  u <- forward mdl inp ;;
  u_t <- derivative u t_f 1 ;;
  u_xx <- derivative u x_f 2 ;;
  torch_sub u_t u_xx.

Definition mse_f (mdl : model) (x_f t_f : tensor) : M tensor :=
  f_u <- f mdl x_f t_f ;;
  ret (torch_mean (torch_pow f_u 2)).

Definition mse_0 (mdl : model) (x_0 u_0 : tensor) : M tensor :=
  let t_0 := zeros_like x_0 in
  inp <- torch_stack x_0 t_0 ;;
  f <- forward mdl inp ;;
  d <- torch_sub f u_0 ;;
  ret (torch_mean (torch_pow d 2)).

(** The two terms of `mse_b`, in the order the notebook computes them:
    [(mse_dirichlet, mse_neumann)]. *)
Definition mse_b_terms (mdl : model) (t_b : tensor) : M (tensor * tensor) :=
  let x_b_upper := zeros_like t_b in
  x_b_upper <- set_requires_grad x_b_upper ;;
  inp <- torch_stack x_b_upper t_b ;;
  u_b_upper <- forward mdl inp ;;
  let mse_dirichlet := torch_mean (torch_pow u_b_upper 2) in
  let x_b_lower := torch_rmul (2 * PI) (torch_exp (torch_neg t_b)) in
  x_b_lower <- set_requires_grad x_b_lower ;;
  inp <- torch_stack x_b_lower t_b ;;
  u_b_lower <- forward mdl inp ;;
  u_x_b_lower <- derivative u_b_lower x_b_lower 1 ;;
  d <- torch_sub u_b_lower u_x_b_lower ;;
  let mse_neumann := torch_mean (torch_pow d 2) in
  ret (mse_dirichlet, mse_neumann).

Definition mse_b (mdl : model) (t_b : tensor) : M tensor :=
  terms <- mse_b_terms mdl t_b ;;
  torch_add (fst terms) (snd terms).

(** *** Modules and their initialization *)

(** `nn.Linear(in_features, out_features)`: a weight tensor of shape
    [(out_features, in_features)] and a bias tensor of shape
    [(out_features)], both leaves that require grad. *)
Record linear : Type := mkLinear {
  in_features : nat;
  out_features : nat;
  weight : nat;
  bias : nat
}.

(** The module tree: `Wave` registers `linear_in`, `linear_out`, `layers`
    (a `ModuleList`) and `act` in this order. *)
#[warnings="-register-all"]
Inductive nn_module : Type :=
| Linear (l : linear)
| Tanh_
| ModuleList (ms : list nn_module)
| Wave (linear_in linear_out layers act : nn_module).

(** `module.apply(fn)`: the children first, in registration order, then
    the module itself. *)
Fixpoint apply (fn : nn_module -> M unit) (m : nn_module) : M unit :=
  match m with
  | Linear _ | Tanh_ => fn m
  | ModuleList ms =>
      (fix each (cs : list nn_module) : M unit :=
         match cs with
         | [] => ret tt
         | c :: cs' => apply fn c ;; each cs'
         end) ms ;;
      fn m
  | Wave a b c d =>
      apply fn a ;; apply fn b ;; apply fn c ;; apply fn d ;; fn m
  end.

(** `torch.nn.init.xavier_normal_(w)` for a matrix [w] of shape
    [(rows, cols)]: every entry gets a draw of the generator scaled by
    [sqrt (2 / (fan_in + fan_out))]. *)
Definition xavier_std (rows cols : nat) : R := sqrt (2 / INR (cols + rows)).

Definition xavier_normal_ (id rows cols : nat) : M unit :=
  fun s =>
    (Ok tt,
     mkState (next_id s)
             (fun v => match v with
                       | Elem a i j =>
                           if Nat.eqb a id && Nat.ltb i rows && Nat.ltb j cols
                           then xavier_std rows cols * rng s (i * cols + j)%nat
                           else store s v
                       | Arg _ => store s v
                       end)
             (grad_of s) (iter s) (stdout s)
             (fun k => rng s (rows * cols + k)%nat)).

(** `b.data.fill_(c)` for a vector [b] of [n] entries. *)
Definition fill_ (id n : nat) (c : R) : M unit :=
  fun s =>
    (Ok tt,
     mkState (next_id s)
             (fun v => match v with
                       | Elem a i j =>
                           if Nat.eqb a id && Nat.eqb i 0 && Nat.ltb j n
                           then c else store s v
                       | Arg _ => store s v
                       end)
             (grad_of s) (iter s) (stdout s) (rng s)).

Definition init_weights (m : nn_module) : M unit :=
  match m with
  | Linear l =>
      xavier_normal_ (weight l) (out_features l) (in_features l) ;;
      fill_ (bias l) (out_features l) 0.01
  | Tanh_ | ModuleList _ | Wave _ _ _ _ => ret tt
  end.

(** `F.linear(x, W, b)` on one row: output [j] is the sum over [k] of
    [x[k] * W[j][k]], plus [b[j]]. *)
Definition linear_row (l : linear) (r : list expr) : list expr :=
  map (fun j =>
         Add (esum (mapi (fun k a => Mul a (Var (Elem (weight l) j k))) r))
             (Var (Elem (bias l) 0 j)))
      (seq 0 (out_features l)).

Definition linear_forward (l : linear) (x : tensor) : M tensor :=
  match data x with
  | Mat rows =>
      if forallb (fun r => Nat.eqb (length r) (in_features l)) rows
      then ret (mkTensor Derived (Mat (map (linear_row l) rows)))
      else raise ShapeMismatch
  | Vec r =>
      if Nat.eqb (length r) (in_features l)
      then ret (mkTensor Derived (Vec (linear_row l r)))
      else raise ShapeMismatch
  | Sc _ => raise ShapeMismatch
  end.

(** Calling a module.  `Wave.forward`: the input projection, then every
    hidden layer followed by the activation, then the output projection. *)
Fixpoint call (m : nn_module) (x : tensor) : M tensor :=
  match m with
  | Linear l => linear_forward l x
  | Tanh_ => ret (pointwise Tanh x)
  | ModuleList _ => raise TypeError
  | Wave linear_in linear_out layers act =>
      x <- call linear_in x ;;
      x <- match layers with
           | ModuleList ms =>
               (fix each (cs : list nn_module) (x : tensor) : M tensor :=
                  match cs with
                  | [] => ret x
                  | layer :: cs' =>
                      y <- call layer x ;;
                      x' <- call act y ;;
                      each cs' x'
                  end) ms x
           | Linear _ | Tanh_ | Wave _ _ _ _ => raise TypeError
           end ;;
      call linear_out x
  end.

(** `nn.Linear(i, o)`: two new parameter tensors.  The default
    initialization that the constructor runs (`reset_parameters`) is not
    represented: the initial values are whatever the store holds, and the
    generator is left as it is. *)
Definition nn_Linear (i o : nat) : M nn_module :=
  fun s =>
    (Ok (Linear (mkLinear i o (next_id s) (S (next_id s)))),
     mkState (S (S (next_id s))) (store s) (grad_of s) (iter s) (stdout s)
             (rng s)).

(** `Wave.__init__`. *)
Definition Wave_init : M nn_module :=
  linear_in <- nn_Linear 2 100 ;;
  linear_out <- nn_Linear 100 1 ;;
  l0 <- nn_Linear 100 100 ;;
  l1 <- nn_Linear 100 100 ;;
  l2 <- nn_Linear 100 100 ;;
  l3 <- nn_Linear 100 100 ;;
  l4 <- nn_Linear 100 100 ;;
  ret (Wave linear_in linear_out (ModuleList [l0; l1; l2; l3; l4]) Tanh_).

(** The linear layers of a module tree, in the order `apply` visits them,
    and the identities of their parameter tensors. *)
Fixpoint linears (m : nn_module) : list linear :=
  match m with
  | Linear l => [l]
  | Tanh_ => []
  | ModuleList ms =>
      (fix each (cs : list nn_module) : list linear :=
         match cs with
         | [] => []
         | c :: cs' => linears c ++ each cs'
         end) ms
  | Wave a b c d => linears a ++ linears b ++ linears c ++ linears d
  end.

Definition linear_ids (ls : list linear) : list nat :=
  flat_map (fun l => [weight l; bias l]) ls.

Definition param_ids (m : nn_module) : list nat := linear_ids (linears m).

(** A module as a model: `model(x)` and `model.parameters()`. *)
Definition as_model (m : nn_module) : model := mkModel (call m) (param_ids m).

(** The row computed by a `Wave` from an input row, shapes permitting. *)
Fixpoint hidden_row (layers : list linear) (r : list expr) : list expr :=
  match layers with
  | [] => r
  | l :: ls => hidden_row ls (map Tanh (linear_row l r))
  end.

Definition wave_row (lin lout : linear) (layers : list linear)
  (r : list expr) : list expr :=
  linear_row lout (hidden_row layers (linear_row lin r)).

(** Row-wise action on an array of rows, and the test that every row has
    [n] entries. *)
Definition rows_map (g : list expr -> list expr) (d : arr expr) : arr expr :=
  match d with
  | Sc a => Sc a
  | Vec r => Vec (g r)
  | Mat rows => Mat (map g rows)
  end.

Definition rows_ok (n : nat) (d : arr expr) : bool :=
  match d with
  | Sc _ => false
  | Vec r => Nat.eqb (length r) n
  | Mat rows => forallb (fun r => Nat.eqb (length r) n) rows
  end.

(** Consecutive layers fit: [d] features enter the first layer and [d']
    leave the last. *)
Fixpoint chain (d : nat) (ls : list linear) (d' : nat) : Prop :=
  match ls with
  | [] => d = d'
  | l :: ls' => in_features l = d /\ chain (out_features l) ls' d'
  end.

(** The state after `init_weights` ran on one linear layer, and on a list of
    linear layers one after the other. *)
Definition init_linear (l : linear) (s : state) : state :=
  snd (init_weights (Linear l) s).

Definition init_all (ls : list linear) (s : state) : state :=
  fold_left (fun s0 l => init_linear l s0) ls s.

(** Number of generator draws `init_weights` takes for a list of layers. *)
Definition draws (ls : list linear) : nat :=
  fold_right (fun l n => (out_features l * in_features l + n)%nat) 0%nat ls.

(** Structural induction on module trees. *)
Fixpoint nn_module_induction (P : nn_module -> Prop)
  (HL : forall l, P (Linear l)) (HT : P Tanh_)
  (HM : forall ms, Forall P ms -> P (ModuleList ms))
  (HW : forall a b c d, P a -> P b -> P c -> P d -> P (Wave a b c d))
  (m : nn_module) : P m :=
  match m with
  | Linear l => HL l
  | Tanh_ => HT
  | ModuleList ms =>
      HM ms ((fix each (cs : list nn_module) : Forall P cs :=
                match cs with
                | [] => Forall_nil P
                | c :: cs' =>
                    Forall_cons c (nn_module_induction HL HT HM HW c)
                                (each cs')
                end) ms)
  | Wave a b c d =>
      HW a b c d (nn_module_induction HL HT HM HW a)
         (nn_module_induction HL HT HM HW b)
         (nn_module_induction HL HT HM HW c)
         (nn_module_induction HL HT HM HW d)
  end.

(** *** The optimization driver *)

(** `iter += 1` on the global counter. *)
Definition incr_iter : M unit :=
  fun s => (Ok tt, mkState (next_id s) (store s) (grad_of s)
                           (iter s + 1)%Z (stdout s) (rng s)).

(** `print(f" Iteration: {iter}  loss: {loss.item()}")` *)
Definition print_progress (i : Z) (v : R) : M unit :=
  fun s => (Ok tt, mkState (next_id s) (store s) (grad_of s)
                           (iter s) (stdout s ++ [(i, v)]) (rng s)).

Definition closure (mdl : model) (opt : optimizer)
  (x_f t_f x_0 u_0 t : tensor) : M tensor :=
  zero_grad opt ;;
  l_f <- mse_f mdl x_f t_f ;;
  l_0 <- mse_0 mdl x_0 u_0 ;;
  l_f0 <- torch_add l_f l_0 ;;
  l_b <- mse_b mdl t ;;
  loss <- torch_add l_f0 l_b ;;
  backward loss ;;
  incr_iter ;;
  s <- get ;;
  (if Z.eqb (iter s mod 50) 0
   then v <- item loss ;; print_progress (iter s) v
   else ret tt) ;;
  ret loss.

(** `torch.optim.LBFGS.step(closure)` is library code: it evaluates the
    closure, reads the loss and the gradients of the parameters, moves the
    parameters, and either evaluates again or returns.  Its decisions are a
    parameter of the driver: [Finish] returns, [Evaluate move next] evaluates
    the closure once and continues according to what it observed. *)
Inductive lbfgs : Type :=
| Finish
| Evaluate (move : R -> (var -> option R) -> var -> R -> R)
           (next : R -> (var -> option R) -> lbfgs).

(** The parameter update of one step: only elements of the optimizer's
    parameter tensors change. *)
Definition update_params (opt : optimizer) (move : var -> R -> R) : M unit :=
  fun s =>
    (Ok tt,
     mkState (next_id s)
             (fun v => match v with
                       | Elem a _ _ =>
                           if existsb (Nat.eqb a) (params opt)
                           then move v (store s v) else store s v
                       | Arg _ => store s v
                       end)
             (grad_of s) (iter s) (stdout s) (rng s)).

Fixpoint lbfgs_step (alg : lbfgs) (opt : optimizer) (closure_fn : M tensor)
  : M unit :=
  match alg with
  | Finish => ret tt
  | Evaluate move next =>
      loss <- closure_fn ;;
      v <- item loss ;;
      s <- get ;;
      update_params opt (move v (grad_of s)) ;;
      lbfgs_step (next v (grad_of s)) opt closure_fn
  end.

(** `train(model, x_f, t_f, x_0, u_0, t)`; [alg] stands for the behaviour of
    the L-BFGS library routine under the notebook's settings. *)
Definition train (alg : lbfgs) (mdl : model) (x_f t_f x_0 u_0 t : tensor)
  : M unit :=
  let optimizer := mkOptimizer (parameters mdl) in
  let closure_fn := closure mdl optimizer x_f t_f x_0 u_0 t in
  lbfgs_step alg optimizer closure_fn.

(** The lines a closure evaluation adds to the output when it ends with the
    counter at [i]. *)
Definition progress_line (i : Z) (v : R) : list (Z * R) :=
  if Z.eqb (i mod 50) 0 then [(i, v)] else [].

(** Mean squared difference of two batches paired element by element (the
    mean squared error as the specification words it). *)
Definition pointwise_mse (fs us : list R) : R :=
  fold_right Rplus 0 (map (fun p => (fst p - snd p) ^ 2) (combine fs us))
  * / INR (length fs).


(** Mean of the squared differences of all pairs of an element of the first
    batch and an element of the second. *)
Definition all_pairs_mse (fs us : list R) : R :=
  fold_right Rplus 0 (flat_map (fun a => map (fun u => (a - u) ^ 2) us) fs)
  * / INR (length (flat_map (fun a => map (fun u => (a - u) ^ 2) us) fs)).

(** Inputs of a small run: the body [x * (x * t)] without parameters, one
    collocation point, one initial point, one boundary time. *)
Definition demo_body : expr := Mul (Var (Arg 0)) (Mul (Var (Arg 0)) (Var (Arg 1))).

Definition demo_state (i : Z) : state :=
  mkState 2 (fun _ => 1) (fun _ => None) i [] (fun _ => 0).

Definition demo_closure : M tensor :=
  closure (rowwise demo_body) (mkOptimizer []) (leaf1 0 1) (leaf1 1 1)
          (const1 [1 / 2]) (const1 [0]) (const1 [0]).

(** Two models with the same forward pass. *)
Definition same_forward (m1 m2 : model) : Prop :=
  forall inp s, forward m1 inp s = forward m2 inp s.

(** [u] is the function the model computes: on the one-row input [(x, t)]
    it predicts [u x t]. *)
Definition predicts (mdl : model) (rho : env) (u : R -> R -> R) : Prop :=
  forall (x t : R) (s : state),
    exists r,
      forward mdl (mkTensor Detached (Mat [[Const x; Const t]])) s = (Ok r, s)
      /\ tvalue rho r = Mat [[u x t]].

(** `f` returns the pointwise residual on the flat leaf batches number [ix]
    and [it] of [n] points: there is a function [u] of [(x, t)] which the
    model computes, with partial derivatives [u_t], [u_x] and [u_xx] (the
    derivative in [x] of [u_x]), and `f` returns, without touching the state,
    the batch of [u_t - u_xx] at the points [(x_j, t_j)] held by the store. *)
Definition returns_residual (mdl : model) (ix it n : nat) (s : state) : Prop :=
  exists u u_t u_x u_xx : R -> R -> R,
    predicts mdl (store s) u
    /\ (forall x t, derivable_pt_lim (fun y => u x y) t (u_t x t))
    /\ (forall x t, derivable_pt_lim (fun y => u y t) x (u_x x t))
    /\ (forall x t, derivable_pt_lim (fun y => u_x y t) x (u_xx x t))
    /\ exists r,
        f mdl (leaf1 ix n) (leaf1 it n) s = (Ok r, s)
        /\ tvalue (store s) r
           = Vec (map (fun j =>
                         u_t (store s (Elem ix 0 j)) (store s (Elem it 0 j))
                         - u_xx (store s (Elem ix 0 j)) (store s (Elem it 0 j)))
                      (seq 0 n)).

(** A small `Wave`: two inputs, one hidden layer of width one, one output. *)
Definition small_wave : nn_module :=
  Wave (Linear (mkLinear 2 1 0 1)) (Linear (mkLinear 1 1 4 5))
       (ModuleList (map Linear [mkLinear 1 1 2 3])) Tanh_.

(** The state of a fresh process: `iter = 0`, nothing printed. *)
Definition initial_state (rho : env) (g : nat -> R) : state :=
  mkState 0 rho (fun _ => None) 0 [] g.

(** The counters a run passes through after [lo], when [k] closure
    evaluations return. *)
Definition counters_after (lo : Z) (k : nat) : list Z :=
  map (fun j => (lo + 1 + Z.of_nat j)%Z) (seq 0 k).

(** [reports s s']: between the two states [k] evaluations were counted,
    and the lines printed carry the multiples of 50 among the counters
    passed, in order. *)
Definition reports (s s' : state) : Prop :=
  exists (k : nat) (new : list (Z * R)),
    iter s' = (iter s + Z.of_nat k)%Z
    /\ stdout s' = stdout s ++ new
    /\ map fst new
       = filter (fun i => Z.eqb (i mod 50) 0) (counters_after (iter s) k).

(** *** The driver cells *)

(** NumPy indexing `a[k]` of a flat array: a negative index counts from the
    end, an index out of range is an `IndexError`; `a[idx]` with an array of
    integers indexes with every entry of [idx]. *)
Definition np_item (a : list R) (k : Z) : option R :=
  let n := Z.of_nat (length a) in
  if Z.leb 0 k && Z.ltb k n then nth_error a (Z.to_nat k)
  else if Z.leb (- n) k && Z.ltb k 0 then nth_error a (Z.to_nat (n + k))
  else None.

Definition np_take (a : list R) (idx : list Z) : M (list R) :=
  match sequence (map (np_item a) idx) with
  | Some l => ret l
  | None => raise IndexError
  end.

(** The arrays the sampling cell leaves behind. *)
Record samples : Type := mkSamples {
  x_ic : list R; t_ic : list R; x_bc : list R; t_bc : list R;
  u_ic : list R; u_bc : list R;
  x_train : list R; t_train : list R; u_train : list R;
  t_x_train : list R; x_x_train : list R; u_x_train : list R
}.

(** The sampling cell.  The results of the calls of `np.random` are taken
    as given, in the order of the calls: three uniform samples, the first
    index sample, the second index sample, a fourth uniform sample. *)
Definition sampling_cell (x_ic x_bc t_bc : list R) (idx1 idx2 : list Z)
  (t_x : list R) : M samples :=
  let t_ic := map (fun _ => 0) x_ic in
  let u_ic := map (fun x => sin (2 * PI * x)) x_ic in
  let u_bc := map (fun _ => 0) u_ic in
  let train_idx := idx1 in
  x_train <- np_take (x_ic ++ x_bc) train_idx ;;
  t_train <- np_take (t_ic ++ t_bc) train_idx ;;
  u_train <- np_take (u_ic ++ u_bc) train_idx ;;
  let train_idx := idx2 in
  let t_x_train := t_x in
  t_x_train <- np_take t_x_train train_idx ;;
  let x_x_train := map (fun z => z + 1) (map (fun _ => 0) t_x_train) in
  let u_x_train := map (fun t => 2 * PI * exp (- t)) t_x_train in
  u_x_train <- np_take u_x_train train_idx ;;
  ret (mkSamples x_ic t_ic x_bc t_bc u_ic u_bc x_train t_train u_train
                 t_x_train x_x_train u_x_train).

(** The training cell: the sampled batches become tensors, the model is
    built and initialized, and `train` runs.  [lhs_sample] is the
    Latin-hypercube sample of [N_f] points of the unit square.
    `Variable(a, requires_grad=True)` is a new leaf that requires grad;
    `.to(device)` is the identity, as on a CPU; `model.train()` only sets
    the training flag, which no layer of the model reads. *)
Definition main (alg : lbfgs) (x_ic u_ic t_x_train : list R)
  (lhs_sample : list (R * R)) : M unit :=
  let lb := (0, 0) in
  let ub := (1, 1) in
  x_ic <- set_requires_grad (const1 x_ic) ;;
  u_ic <- set_requires_grad (const1 u_ic) ;;
  let t_x_train := const1 t_x_train in
  let c_f := map (fun h => (fst lb + (fst ub - fst lb) * fst h,
                            snd lb + (snd ub - snd lb) * snd h)) lhs_sample in
  let x_f := const1 (map fst c_f) in
  x_f <- set_requires_grad x_f ;;
  let t_f := const1 (map snd c_f) in
  t_f <- set_requires_grad t_f ;;
  model <- Wave_init ;;
  apply init_weights model ;;
  train alg (as_model model) x_f t_f x_ic u_ic t_x_train.

End Notebook.

(** * Properties *)

Unset Implicit Arguments.

(** Runs the interpreter on concrete inputs, leaving real arithmetic alone. *)
Ltac run :=
  lazy -[Rplus Rmult Rminus Ropp Rinv Rdiv INR IZR PI exp tanh pow sqrt];
  reflexivity.

(** ** The gradient graphs denote derivatives *)

Section GraphFacts.

Import Graph.
Local Open Scope R_scope.

Lemma var_eqb_spec (v w : var) : reflect (v = w) (var_eqb v w).
Proof.
  destruct v as [k|a i j], w as [k'|a' i' j']; simpl; try (constructor; congruence).
  - destruct (Nat.eqb_spec k k'); constructor; congruence.
  - destruct (Nat.eqb_spec a a'), (Nat.eqb_spec i i'), (Nat.eqb_spec j j');
      simpl; constructor; congruence.
Qed.

Lemma var_eqb_refl (v : var) : var_eqb v v = true.
Proof. destruct (var_eqb_spec v v); congruence. Qed.

Lemma var_eqb_neq (v w : var) : v <> w -> var_eqb v w = false.
Proof. destruct (var_eqb_spec v w); congruence. Qed.

Lemma upd_same (rho : env) (v : var) (x : R) : upd rho v x v = x.
Proof. unfold upd. now rewrite var_eqb_refl. Qed.

Lemma eval_ext (rho rho' : env) (e : expr) :
  (forall v, rho v = rho' v) -> eval rho e = eval rho' e.
Proof.
  intros H. induction e; simpl; auto; congruence.
Qed.

(** A variable that is not a node of the graph does not influence the value. *)
Lemma eval_upd_unmentioned (rho : env) (v : var) (x : R) (e : expr) :
  mentions v e = false -> eval (upd rho v x) e = eval rho e.
Proof.
  induction e; simpl; intros H;
    try (apply orb_false_elim in H; destruct H as [Ha Hb]);
    try (rewrite ?IHe, ?IHe1, ?IHe2 by assumption; reflexivity).
  unfold upd. now rewrite H.
Qed.

(** The gradient flows exactly to the nodes of the graph. *)
Lemma D_none_iff (v : var) (e : expr) :
  D v e = None <-> mentions v e = false.
Proof.
  induction e; simpl.
  - tauto.
  - destruct (var_eqb v0 v); split; congruence.
  - destruct (D v e1), (D v e2), (mentions v e1), (mentions v e2); simpl;
      intuition congruence.
  - destruct (D v e1), (D v e2), (mentions v e1), (mentions v e2); simpl;
      intuition congruence.
  - destruct (D v e1), (D v e2), (mentions v e1), (mentions v e2); simpl;
      intuition congruence.
  - destruct (D v e); simpl; intuition congruence.
  - destruct (D v e); simpl; intuition congruence.
  - destruct (D v e); simpl; intuition congruence.
  - destruct (D v e); simpl; intuition congruence.
Qed.

Lemma D_some_iff (v : var) (e : expr) :
  (exists g, D v e = Some g) <-> mentions v e = true.
Proof.
  split.
  - intros [g Hg]. destruct (mentions v e) eqn:Em; auto.
    apply D_none_iff in Em. congruence.
  - intros Hm. destruct (D v e) eqn:Ed; eauto.
    apply D_none_iff in Ed. congruence.
Qed.

Lemma dlim_ext (g h : R -> R) (x l : R) :
  (forall y, g y = h y) -> derivable_pt_lim g x l -> derivable_pt_lim h x l.
Proof.
  intros E Hg eps Heps. destruct (Hg eps Heps) as [d Hd].
  exists d. intros k Hk Hk'. rewrite <- !E. now apply Hd.
Qed.

Lemma dlim_value (g : R -> R) (x l l' : R) :
  l = l' -> derivable_pt_lim g x l -> derivable_pt_lim g x l'.
Proof. now intros ->. Qed.

Lemma cosh_pos (x : R) : 0 < cosh x.
Proof.
  unfold cosh. pose proof (exp_pos x). pose proof (exp_pos (- x)). lra.
Qed.

Lemma cosh2_sinh2 (x : R) : cosh x * cosh x - sinh x * sinh x = 1.
Proof.
  unfold cosh, sinh.
  replace ((exp x + exp (- x)) / 2 * ((exp x + exp (- x)) / 2) -
           (exp x - exp (- x)) / 2 * ((exp x - exp (- x)) / 2))
    with (exp x * exp (- x)) by field.
  rewrite <- exp_plus. replace (x + - x) with 0 by ring. apply exp_0.
Qed.

Lemma derivable_pt_lim_tanh (x : R) :
  derivable_pt_lim tanh x (1 - tanh x ^ 2).
Proof.
  pose proof (cosh_pos x) as Hc.
  assert (Hne : cosh x <> 0) by lra.
  eapply dlim_value;
    [| apply (derivable_pt_lim_div sinh cosh x (cosh x) (sinh x));
       [apply derivable_pt_lim_sinh | apply derivable_pt_lim_cosh | exact Hne]].
  unfold tanh, Rsqr. pose proof (cosh2_sinh2 x) as H.
  field_simplify_eq; [| exact Hne]. nra.
Qed.

Lemma oval_oadd (rho : env) (x y : option expr) :
  oval rho (oadd x y) = oval rho x + oval rho y.
Proof. destruct x, y; simpl; ring. Qed.

Lemma oval_osub (rho : env) (x y : option expr) :
  oval rho (osub x y) = oval rho x - oval rho y.
Proof. destruct x, y; simpl; ring. Qed.

Lemma oval_mul (rho : env) (d : option expr) (b : expr) :
  oval rho (option_map (fun g => Mul g b) d) = oval rho d * eval rho b.
Proof. destruct d; simpl; ring. Qed.

Lemma oval_pow (rho : env) (d : option expr) (a : expr) (n : nat) :
  oval rho (option_map (fun g => pow_backward g a n) d)
  = INR n * eval rho a ^ Nat.pred n * oval rho d.
Proof.
  destruct d as [g|]; simpl; [| ring].
  destruct n as [|m]; [simpl; ring |].
  unfold pow_backward. cbn [eval Nat.pred]. ring.
Qed.

(** Soundness of the backward formulas: as a function of the value of [v],
    the graph [e] has, at every point, the derivative computed by [D]. *)
Lemma D_correct (e : expr) (v : var) (rho : env) (r : R) :
  derivable_pt_lim (fun x => eval (upd rho v x) e) r
                   (oval (upd rho v r) (D v e)).
Proof.
  induction e; cbn [eval D].
  - apply (derivable_pt_lim_const c).
  - unfold upd at 1. destruct (var_eqb v0 v); simpl.
    + apply derivable_pt_lim_id.
    + apply (derivable_pt_lim_const (rho v0)).
  - rewrite oval_oadd.
    apply (derivable_pt_lim_plus _ _ _ _ _ IHe1 IHe2).
  - rewrite oval_osub.
    apply (derivable_pt_lim_minus _ _ _ _ _ IHe1 IHe2).
  - rewrite oval_oadd, !oval_mul.
    eapply dlim_value;
      [| apply (derivable_pt_lim_mult _ _ _ _ _ IHe1 IHe2)].
    ring.
  - destruct (D v e) as [g|]; simpl in *.
    + apply (derivable_pt_lim_opp _ _ _ IHe).
    + eapply dlim_value; [| apply (derivable_pt_lim_opp _ _ _ IHe)]. ring.
  - rewrite oval_pow.
    apply (derivable_pt_lim_comp _ (fun y => y ^ n) _ _ _ IHe).
    apply derivable_pt_lim_pow.
  - eapply dlim_value;
      [| eapply (derivable_pt_lim_comp _ exp _ _ _ IHe);
         apply derivable_pt_lim_exp].
    destruct (D v e); simpl; ring.
  - eapply dlim_value;
      [| eapply (derivable_pt_lim_comp _ tanh _ _ _ IHe);
         apply derivable_pt_lim_tanh].
    destruct (D v e); simpl; ring.
Qed.

(** The gradient graph mentions only nodes of the differentiated graph. *)
Lemma mentions_pow_backward (w : var) (g a : expr) (n : nat) :
  mentions w (pow_backward g a n) = true ->
  mentions w g = true \/ mentions w a = true.
Proof.
  destruct n; simpl; rewrite ?orb_false_r; intros H; auto.
  apply orb_prop in H. tauto.
Qed.

Lemma mentions_D (v w : var) (e g : expr) :
  D v e = Some g -> mentions w g = true -> mentions w e = true.
Proof.
  revert g. induction e; intros g; cbn [D mentions].
  - discriminate.
  - destruct (var_eqb v0 v); [| discriminate].
    intros [= <-]. discriminate.
  - destruct (D v e1) as [g1|], (D v e2) as [g2|]; simpl; intros [= <-];
      cbn [mentions]; intros H; apply orb_true_iff;
      try apply orb_prop in H; intuition eauto.
  - destruct (D v e1) as [g1|], (D v e2) as [g2|]; simpl; intros [= <-];
      cbn [mentions]; intros H; apply orb_true_iff;
      try apply orb_prop in H; intuition eauto.
  - destruct (D v e1) as [g1|], (D v e2) as [g2|]; simpl; intros [= <-];
      cbn [mentions]; intros H; apply orb_true_iff;
      repeat (apply orb_prop in H; destruct H as [H|H]); eauto.
  - destruct (D v e) as [g1|]; simpl; intros [= <-]; cbn [mentions]; eauto.
  - destruct (D v e) as [g1|]; simpl; intros [= <-] H.
    apply mentions_pow_backward in H. intuition eauto.
  - destruct (D v e) as [g1|]; simpl; intros [= <-]; cbn [mentions]; intros H.
    apply orb_prop in H. intuition eauto.
  - destruct (D v e) as [g1|]; simpl; intros [= <-]; cbn [mentions]; intros H.
    apply orb_prop in H. intuition eauto.
Qed.

Lemma eval_inst (rho : env) (row : nat -> expr) (e : expr) :
  eval rho (inst row e) = eval (row_env rho row) e.
Proof.
  induction e; cbn [inst eval]; try congruence.
  destruct v; reflexivity.
Qed.

Lemma inst_pow_backward (row : nat -> expr) (g a : expr) (n : nat) :
  inst row (pow_backward g a n) = pow_backward (inst row g) (inst row a) n.
Proof. destruct n; reflexivity. Qed.

(** Differentiating an instantiated body with respect to the leaf that was
    plugged in for feature [k] is the same as differentiating the body with
    respect to that feature and instantiating afterwards. *)
Lemma D_inst (row : nat -> expr) (k : nat) (v : var) (e : expr) :
  row k = Var v ->
  (forall k', k' <> k -> mentions v (row k') = false) ->
  mentions v e = false ->
  D v (inst row e) = option_map (inst row) (D (Arg k) e).
Proof.
  intros Hk Hother. induction e; cbn [inst D mentions]; intros Hm;
    try (apply orb_false_elim in Hm; destruct Hm as [Ha Hb]).
  - reflexivity.
  - destruct v0 as [k'|a i j].
    + simpl. destruct (Nat.eqb_spec k' k) as [->|Hne].
      * rewrite Hk. simpl. now rewrite var_eqb_refl.
      * apply D_none_iff. now apply Hother.
    + cbn [D]. rewrite Hm. reflexivity.
  - rewrite IHe1, IHe2 by assumption.
    destruct (D (Arg k) e1), (D (Arg k) e2); reflexivity.
  - rewrite IHe1, IHe2 by assumption.
    destruct (D (Arg k) e1), (D (Arg k) e2); reflexivity.
  - rewrite IHe1, IHe2 by assumption.
    destruct (D (Arg k) e1), (D (Arg k) e2); reflexivity.
  - rewrite IHe by assumption. destruct (D (Arg k) e); reflexivity.
  - rewrite IHe by assumption. destruct (D (Arg k) e); simpl; [| reflexivity].
    now rewrite inst_pow_backward.
  - rewrite IHe by assumption. destruct (D (Arg k) e); reflexivity.
  - rewrite IHe by assumption. destruct (D (Arg k) e); reflexivity.
Qed.

Lemma mentions_inst (v : var) (row : nat -> expr) (e : expr) :
  mentions v (inst row e) = true ->
  mentions v e = true \/ exists k, mentions (Arg k) e = true
                                   /\ mentions v (row k) = true.
Proof.
  induction e; cbn [inst mentions]; intros H;
    try (apply orb_prop in H; destruct H as [H|H];
         [destruct (IHe1 H) as [H1|(k & H1 & H2)]
         |destruct (IHe2 H) as [H1|(k & H1 & H2)]];
         [left|right; exists k|left|right; exists k];
         rewrite ?H1, ?H2, ?orb_true_r; auto);
    auto; try discriminate.
  destruct v0 as [k|a i j]; [right; exists k | left; exact H].
  simpl. now rewrite Nat.eqb_refl.
Qed.

Lemma mentions_inst_arg (k : nat) (v : var) (row : nat -> expr) (e : expr) :
  mentions (Arg k) e = true -> mentions v (row k) = true ->
  mentions v (inst row e) = true.
Proof.
  intros He Hr. induction e; cbn [inst mentions] in *;
    try (apply orb_prop in He; apply orb_true_iff; destruct He; auto);
    auto; try discriminate.
  destruct v0 as [k'|a i j]; [| discriminate].
  simpl in He. apply Nat.eqb_eq in He. now subst.
Qed.

End GraphFacts.

(** ** Execution of the tensor operations on flat leaf batches *)

Section TorchFacts.

Import Graph Torch.
Local Open Scope R_scope.

Lemma mapi_from_repeat {A B : Type} (g : nat -> A -> B) (a : A) (n k : nat) :
  mapi_from g k (repeat a n) = map (fun j => g j a) (seq k n).
Proof.
  revert k. induction n as [|n IH]; intros k; simpl; [reflexivity |].
  now rewrite IH.
Qed.

Lemma mapi_from_map {A B C : Type} (g : nat -> B -> C) (h : A -> B)
      (l : list A) (k : nat) :
  mapi_from g k (map h l) = mapi_from (fun j a => g j (h a)) k l.
Proof.
  revert k. induction l as [|a l IH]; intros k; simpl; [reflexivity |].
  now rewrite IH.
Qed.

Lemma mapi_from_const {A B : Type} (g : nat -> B) (l : list A) (k : nat) :
  mapi_from (fun j _ => g j) k l = map g (seq k (length l)).
Proof.
  revert k. induction l as [|a l IH]; intros k; simpl; [reflexivity |].
  now rewrite IH.
Qed.

Lemma data_leaf1 (id n : nat) :
  data (leaf1 id n) = Vec (map (fun j => Var (Elem id 0 j)) (seq 0 n)).
Proof.
  unfold leaf1, leaf_like, apos, mapi. cbn [data].
  now rewrite mapi_from_repeat.
Qed.

Lemma combine_map_same {A B C : Type} (g : A -> B) (h : A -> C) (l : list A) :
  combine (map g l) (map h l) = map (fun a => (g a, h a)) l.
Proof. induction l; simpl; congruence. Qed.

Lemma concat_map_singleton {A B : Type} (g : A -> B) (l : list A) :
  concat (map (fun a => [g a]) l) = map g l.
Proof. induction l; simpl; congruence. Qed.

Lemma forallb_map_true {A B : Type} (p : B -> bool) (g : A -> B) (l : list A) :
  (forall a, p (g a) = true) -> forallb p (map g l) = true.
Proof. intros H. induction l; simpl; [reflexivity |]. now rewrite H, IHl. Qed.

Lemma mentions_leaf_elem (id i j : nat) (e : expr) :
  mentions (Elem id i j) e = true -> mentions_leaf id e = true.
Proof.
  induction e; cbn [mentions mentions_leaf]; intros H;
    try (apply orb_prop in H; apply orb_true_iff; tauto); auto.
  destruct v as [k|a i' j']; simpl in H; [discriminate |].
  apply andb_prop in H. destruct H as [H _]. apply andb_prop in H. tauto.
Qed.

Lemma mentions_leaf_false (id i j : nat) (e : expr) :
  mentions_leaf id e = false -> mentions (Elem id i j) e = false.
Proof.
  intros H. destruct (mentions (Elem id i j) e) eqn:E; [| reflexivity].
  apply mentions_leaf_elem in E. congruence.
Qed.

Lemma mentions_elem_tracked (id i j : nat) (e : expr) :
  mentions (Elem id i j) e = true -> tracked e = true.
Proof.
  induction e; cbn [mentions tracked]; intros H;
    try (apply orb_prop in H; apply orb_true_iff; tauto); auto.
  destruct v; [discriminate | reflexivity].
Qed.

Lemma mentions_leaf_D (id : nat) (v : var) (e g : expr) :
  D v e = Some g -> mentions_leaf id e = false -> mentions_leaf id g = false.
Proof.
  revert g. induction e; intros g; cbn [D mentions_leaf].
  - discriminate.
  - destruct (var_eqb v0 v); [| discriminate]. now intros [= <-].
  - destruct (D v e1) as [g1|], (D v e2) as [g2|]; simpl; intros [= <-] H;
      apply orb_false_elim in H; destruct H; cbn [mentions_leaf];
      rewrite ?orb_false_iff; eauto.
  - destruct (D v e1) as [g1|], (D v e2) as [g2|]; simpl; intros [= <-] H;
      apply orb_false_elim in H; destruct H; cbn [mentions_leaf];
      rewrite ?orb_false_iff; eauto.
  - destruct (D v e1) as [g1|], (D v e2) as [g2|]; simpl; intros [= <-] H;
      apply orb_false_elim in H; destruct H; cbn [mentions_leaf];
      rewrite ?orb_false_iff; eauto 6.
  - destruct (D v e) as [g1|]; simpl; intros [= <-]; cbn [mentions_leaf]; eauto.
  - destruct (D v e) as [g1|]; simpl; intros [= <-] H.
    destruct n; cbn [pow_backward mentions_leaf];
      rewrite ?orb_false_iff; eauto.
  - destruct (D v e) as [g1|]; simpl; intros [= <-] H; cbn [mentions_leaf];
      rewrite ?orb_false_iff; eauto.
  - destruct (D v e) as [g1|]; simpl; intros [= <-] H; cbn [mentions_leaf];
      rewrite ?orb_false_iff; eauto.
Qed.

Lemma D_rows (rw : nat -> nat -> expr) (k id : nat) (e : expr) (i j : nat) :
  feeds rw k id ->
  mentions_leaf id e = false ->
  D (Elem id 0 j) (inst (rw i) e)
  = if Nat.eqb i j then option_map (inst (rw j)) (D (Arg k) e) else None.
Proof.
  intros [Hk Hother] He. destruct (Nat.eqb_spec i j) as [->|Hne].
  - apply D_inst; auto using mentions_leaf_false.
  - apply D_none_iff.
    destruct (mentions (Elem id 0 j) (inst (rw i) e)) eqn:E; [| reflexivity].
    apply mentions_inst in E. destruct E as [E|(k' & _ & E)].
    + apply mentions_leaf_elem in E. congruence.
    + destruct (Nat.eq_dec k' k) as [->|Hk'].
      * rewrite Hk in E. simpl in E. rewrite Nat.eqb_refl in E. simpl in E.
        apply Nat.eqb_eq in E. congruence.
      * apply mentions_leaf_elem in E. rewrite Hother in E by assumption.
        discriminate.
Qed.

(** Only sample [j] contributes to the gradient with respect to element [j]. *)
Lemma flat_map_diag (rw : nat -> nat -> expr) (k id : nat) (e : expr)
      (j : nat) (l : list nat) :
  feeds rw k id ->
  mentions_leaf id e = false ->
  ~ In j l ->
  flat_map (fun b => match D (Elem id 0 j) b with
                     | Some g => [g]
                     | None => []
                     end) (map (fun i => inst (rw i) e) l) = [].
Proof.
  intros Hf He. induction l as [|i l IH]; intros Hj; [reflexivity |].
  cbn [map flat_map]. rewrite (D_rows rw k id e _ _ Hf He).
  destruct (Nat.eqb_spec i j) as [->|Hne]; [exfalso; apply Hj; now left |].
  simpl. apply IH. intros H. apply Hj. now right.
Qed.

Lemma vjp_rows (rw : nat -> nat -> expr) (k id : nat) (e g : expr)
      (j : nat) (l : list nat) :
  feeds rw k id ->
  mentions_leaf id e = false ->
  D (Arg k) e = Some g ->
  NoDup l -> In j l ->
  vjp (Elem id 0 j) (map (fun i => inst (rw i) e) l) = inst (rw j) g.
Proof.
  intros Hf He Hg. unfold vjp.
  induction l as [|i l IH]; intros Hnd Hin; [destruct Hin |].
  inversion Hnd as [|? ? Hni Hnd']; subst.
  cbn [map flat_map]. rewrite (D_rows rw k id e _ _ Hf He).
  destruct (Nat.eqb_spec i j) as [->|Hne].
  - rewrite Hg. cbn [option_map app].
    now rewrite (flat_map_diag rw k id e j l Hf He Hni).
  - cbn [app]. apply IH; [assumption |]. destruct Hin; congruence.
Qed.

Lemma vjp_rows_seq (rw : nat -> nat -> expr) (k id : nat) (e g : expr)
      (n : nat) :
  feeds rw k id ->
  mentions_leaf id e = false ->
  D (Arg k) e = Some g ->
  map (fun j => vjp (Elem id 0 j) (map (fun i => inst (rw i) e) (seq 0 n)))
      (seq 0 n)
  = map (fun j => inst (rw j) g) (seq 0 n).
Proof.
  intros Hf He Hg. apply map_ext_in. intros j Hj.
  apply (vjp_rows rw k id e g j _ Hf He Hg); [apply seq_NoDup | exact Hj].
Qed.

(** The leaf tensor is a node of the outputs as soon as the batch is not
    empty and the body uses the feature it feeds. *)
Lemma used_rows (rw : nat -> nat -> expr) (k id : nat) (e : expr) (n : nat) :
  feeds rw k id ->
  mentions (Arg k) e = true ->
  (0 < n)%nat ->
  existsb (mentions_leaf id) (map (fun i => inst (rw i) e) (seq 0 n)) = true.
Proof.
  intros [Hk _] He Hn. destruct n as [|n]; [lia |].
  cbn [seq map existsb]. apply orb_true_iff. left.
  apply (mentions_leaf_elem id 0 0).
  apply (mentions_inst_arg k); [assumption |].
  rewrite Hk. simpl. now rewrite !Nat.eqb_refl.
Qed.

Lemma tracked_rows (rw : nat -> nat -> expr) (k id : nat) (e : expr) (n : nat) :
  feeds rw k id ->
  mentions (Arg k) e = true ->
  (0 < n)%nat ->
  existsb tracked (map (fun i => inst (rw i) e) (seq 0 n)) = true.
Proof.
  intros [Hk _] He Hn. destruct n as [|n]; [lia |].
  cbn [seq map existsb]. apply orb_true_iff. left.
  apply (mentions_elem_tracked id 0 0).
  apply (mentions_inst_arg k); [assumption |].
  rewrite Hk. simpl. now rewrite !Nat.eqb_refl.
Qed.

(** `grad` with respect to a flat leaf batch. *)
Lemma grad_leaf1 (dy : tensor) (id n : nat) (s : state) :
  requires_grad dy = true ->
  existsb (mentions_leaf id) (elems (data dy)) = true ->
  grad dy (leaf1 id n) s
  = (Ok (mkTensor
           (result_origin
              (existsb tracked
                 (map (fun j => vjp (Elem id 0 j) (elems (data dy)))
                      (seq 0 n))))
           (Vec (map (fun j => vjp (Elem id 0 j) (elems (data dy)))
                     (seq 0 n)))), s).
Proof.
  intros Hr Hu. unfold grad, requires_grad in *.
  destruct (origin_of dy); [discriminate | |];
    cbn [leaf1 leaf_like origin_of data]; rewrite Hu;
    unfold apos, mapi; rewrite mapi_from_repeat, mapi_from_const;
    rewrite length_map, length_seq; reflexivity.
Qed.

Lemma feeds_x (ix it : nat) : ix <> it -> feeds (sample ix it) 0 ix.
Proof.
  intros Hne. split; [reflexivity |].
  intros i [|[|k']] Hk; try congruence; unfold sample, row_of; simpl.
  - apply Nat.eqb_neq. congruence.
  - now destruct k'.
Qed.

Lemma feeds_t (ix it : nat) : ix <> it -> feeds (sample ix it) 1 it.
Proof.
  intros Hne. split; [reflexivity |].
  intros i [|[|k']] Hk; try congruence; unfold sample, row_of; simpl.
  - apply Nat.eqb_neq. congruence.
  - now destruct k'.
Qed.

Lemma stack_leaf1 (ix it n : nat) (s : state) :
  torch_stack (leaf1 ix n) (leaf1 it n) s
  = (Ok (mkTensor Derived
           (Mat (map (fun j => [Var (Elem ix 0 j); Var (Elem it 0 j)])
                     (seq 0 n)))), s).
Proof.
  unfold torch_stack. rewrite !data_leaf1, !length_map, Nat.eqb_refl.
  rewrite combine_map_same, map_map. reflexivity.
Qed.

Lemma rowwise_pairs {A : Type} (body : expr) (o : origin) (a b : A -> expr)
      (l : list A) (s : state) :
  forward (rowwise body) (mkTensor o (Mat (map (fun j => [a j; b j]) l))) s
  = (Ok (mkTensor
           (result_origin (requires_grad (mkTensor o (Vec [])) || tracked body))
           (Mat (map (fun j => [inst (row_of [a j; b j]) body]) l))), s).
Proof.
  cbn [rowwise forward]. unfold rowwise_forward. cbn [data].
  rewrite forallb_map_true by reflexivity.
  rewrite map_map. reflexivity.
Qed.

(** One differentiation pass of the outputs of a row-wise model with respect
    to the leaf batch feeding feature [k]. *)
Lemma grad_rows (rw : nat -> nat -> expr) (k id n : nat) (e g : expr)
      (o : origin) (s : state) (wrap : bool) :
  feeds rw k id ->
  mentions_leaf id e = false ->
  D (Arg k) e = Some g ->
  (0 < n)%nat ->
  o <> Detached ->
  let outs := map (fun i => inst (rw i) e) (seq 0 n) in
  grad (mkTensor o (if wrap then Mat (map (fun b => [b]) outs) else Vec outs))
       (leaf1 id n) s
  = (Ok (mkTensor
           (result_origin
              (existsb tracked (map (fun j => inst (rw j) g) (seq 0 n))))
           (Vec (map (fun j => inst (rw j) g) (seq 0 n)))), s).
Proof.
  intros Hf He Hg Hn Ho outs.
  assert (Hel : elems (if wrap then Mat (map (fun b => [b]) outs) else Vec outs)
                = outs).
  { destruct wrap; cbn [elems]; [| reflexivity].
    rewrite (concat_map_singleton (fun b : expr => b)). apply map_id. }
  rewrite grad_leaf1; cbn [data]; rewrite ?Hel.
  - unfold outs. now rewrite (vjp_rows_seq rw k id e g n Hf He Hg).
  - destruct o; congruence || reflexivity.
  - apply (used_rows rw k id e n Hf); [| exact Hn].
    apply D_some_iff. eauto.
Qed.

End TorchFacts.

(** ** The monad *)

Section MonadFacts.

Import Graph Torch.

Lemma bind_ok {A B : Type} (m : M A) (k : A -> M B) (s s' : state) (b : B) :
  bind m k s = (Ok b, s') ->
  exists a s1, m s = (Ok a, s1) /\ k a s1 = (Ok b, s').
Proof.
  unfold bind. destruct (m s) as [[a|e] s1]; [eauto | discriminate].
Qed.

Lemma bind_step {A B : Type} (m : M A) (k : A -> M B) (s s1 : state) (a : A) :
  m s = (Ok a, s1) -> bind m k s = k a s1.
Proof. unfold bind. now intros ->. Qed.

Lemma bind_raise {A B : Type} (m : M A) (k : A -> M B) (s s1 : state)
      (e : exn) :
  m s = (Raise e, s1) -> bind m k s = (Raise e, s1).
Proof. unfold bind. now intros ->. Qed.

Lemma stateless_ret {A : Type} (a : A) : stateless (ret a).
Proof. now exists (Ok a). Qed.

Lemma stateless_raise {A : Type} (e : exn) : stateless (@raise A e).
Proof. now exists (Raise e). Qed.

Lemma stateless_bind {A B : Type} (m : M A) (k : A -> M B) :
  stateless m -> (forall a, stateless (k a)) -> stateless (bind m k).
Proof.
  intros [o Ho] Hk. destruct o as [a|e].
  - destruct (Hk a) as [o' Ho']. exists o'. intros s.
    unfold bind. now rewrite Ho, Ho'.
  - exists (Raise e). intros s. unfold bind. now rewrite Ho.
Qed.

Lemma stateless_silent {A : Type} (m : M A) : stateless m -> silent m.
Proof. intros [o Ho] s. rewrite Ho. now split. Qed.

Lemma silent_bind {A B : Type} (m : M A) (k : A -> M B) :
  silent m -> (forall a, silent (k a)) -> silent (bind m k).
Proof.
  intros Hm Hk s. unfold bind. specialize (Hm s).
  destruct (m s) as [[a|e] s1]; cbn [snd] in *.
  - destruct (Hk a s1) as [H1 H2]. destruct Hm as [H3 H4]. split; congruence.
  - exact Hm.
Qed.

Lemma stateless_stack (a b : tensor) : stateless (torch_stack a b).
Proof.
  unfold torch_stack.
  destruct (data a), (data b);
    try destruct (Nat.eqb _ _); auto using stateless_ret, stateless_raise.
Qed.

Lemma stateless_binary (g : expr -> expr -> expr) (a b : tensor) :
  stateless (binary g a b).
Proof.
  unfold binary. destruct (broadcast g (data a) (data b));
    auto using stateless_ret, stateless_raise.
Qed.

Lemma stateless_grad (dy x : tensor) : stateless (grad dy x).
Proof.
  unfold grad. destruct (origin_of dy), (origin_of x);
    try destruct (existsb _ _); auto using stateless_ret, stateless_raise.
Qed.

Lemma stateless_rowwise (body : expr) (inp : tensor) :
  stateless (forward (rowwise body) inp).
Proof.
  cbn [forward rowwise]. unfold rowwise_forward.
  destruct (data inp); try destruct (forallb _ _); try destruct (Nat.eqb _ _);
    auto using stateless_ret, stateless_raise.
Qed.

Lemma silent_set_requires_grad (t : tensor) : silent (set_requires_grad t).
Proof.
  intros s. unfold set_requires_grad. destruct (origin_of t); now split.
Qed.

End MonadFacts.

(** ** The residual evaluator *)

Section Residual.

Import Graph Torch Notebook.
Local Open Scope R_scope.

Lemma derivative_unroll (dy x : tensor) (k : nat) (s : state) :
  derivative dy x (Z.of_nat (S k)) s
  = bind (derivative dy x (Z.of_nat k)) (fun d => grad d x) s.
Proof.
  unfold derivative. rewrite !Nat2Z.id. revert dy s.
  induction k as [|k IH]; intros dy s.
  - cbn [for_range]. unfold bind, ret.
    destruct (grad dy x s) as [[d|e] s']; reflexivity.
  - specialize (IH dy). cbn [for_range] in *. unfold bind in *.
    destruct (grad dy x s) as [[d|e] s'] eqn:E; [| reflexivity].
    clear IH E. revert d s'. induction k as [|k IHk]; intros d s'.
    + cbn [for_range]. unfold bind, ret.
      destruct (grad d x s') as [[d'|e'] s'']; reflexivity.
    + cbn [for_range]. unfold bind.
      destruct (grad d x s') as [[d'|e'] s'']; [| reflexivity].
      apply IHk.
Qed.

Lemma brow_same_length (g : expr -> expr -> expr) (a b : nat -> expr)
      (l : list nat) :
  brow g (map a l) (map b l) = Some (map (fun j => g (a j) (b j)) l).
Proof.
  unfold brow. rewrite !length_map, Nat.eqb_refl.
  now rewrite combine_map_same, map_map.
Qed.

(** What `f` returns on two flat leaf batches of the same positive length:
    per sample, the graph of the t-derivative of the body minus the graph of
    its second x-derivative, both instantiated at the sample. *)
Lemma f_runs (body ut ux uxx : expr) (ix it n : nat) (s : state) :
  ix <> it -> (0 < n)%nat ->
  mentions_leaf ix body = false ->
  mentions_leaf it body = false ->
  D (Arg 1) body = Some ut ->
  D (Arg 0) body = Some ux ->
  D (Arg 0) ux = Some uxx ->
  exists o,
    f (rowwise body) (leaf1 ix n) (leaf1 it n) s
    = (Ok (mkTensor o
             (Vec (map (fun j => Sub (inst (sample ix it j) ut)
                                     (inst (sample ix it j) uxx))
                       (seq 0 n)))), s).
Proof.
  intros Hne Hn Hbx Hbt Ht Hx Hxx.
  pose proof (feeds_x ix it Hne) as Fx.
  pose proof (feeds_t ix it Hne) as Ft.
  assert (Hux : mentions_leaf ix ux = false)
    by (eapply mentions_leaf_D; eassumption).
  assert (Htr : existsb tracked
                  (map (fun j => inst (sample ix it j) ux) (seq 0 n)) = true).
  { apply (tracked_rows (sample ix it) 0 ix ux n Fx); [| exact Hn].
    apply D_some_iff. eauto. }
  eexists. unfold f. unfold bind at 1. rewrite stack_leaf1.
  unfold bind at 1. rewrite rowwise_pairs. cbn [requires_grad origin_of orb
                                                  result_origin].
  change (map (fun j => [inst (row_of [Var (Elem ix 0 j); Var (Elem it 0 j)])
                              body]) (seq 0 n))
    with (map (fun j => [inst (sample ix it j) body]) (seq 0 n)).
  rewrite <- (map_map (fun j => inst (sample ix it j) body) (fun b => [b])).
  unfold bind at 1. unfold derivative at 1.
  change (Z.to_nat 1) with 1%nat. cbn [for_range]. unfold bind at 1.
  rewrite (grad_rows (sample ix it) 1 it n body ut Derived s true Ft Hbt Ht Hn)
    by discriminate.
  unfold ret at 1. unfold bind at 1. unfold derivative.
  change (Z.to_nat 2) with 2%nat. cbn [for_range]. unfold bind at 1.
  rewrite (grad_rows (sample ix it) 0 ix n body ux Derived s true Fx Hbx Hx Hn)
    by discriminate.
  rewrite Htr. cbn [result_origin]. unfold bind at 1.
  rewrite (grad_rows (sample ix it) 0 ix n ux uxx Derived s false Fx Hux Hxx Hn)
    by discriminate.
  unfold ret at 1. unfold torch_sub, binary. cbn [data broadcast].
  rewrite brow_same_length. cbn [option_map]. unfold ret. reflexivity.
Qed.

Lemma row_env_upd (rho : env) (x t y : R) (k : nat) (v : var) :
  (k < 2)%nat ->
  upd (row_env rho (row_of [Const x; Const t])) (Arg k) y v
  = row_env rho (row_of [Const (if Nat.eqb k 0 then y else x);
                         Const (if Nat.eqb k 1 then y else t)]) v.
Proof.
  intros Hk. unfold upd. destruct v as [k'|a i j]; [| reflexivity].
  simpl. destruct (Nat.eqb_spec k' k) as [->|Hne].
  - destruct k as [|[|k]]; [reflexivity | reflexivity | lia].
  - destruct k' as [|[|[|k']]], k as [|[|k]]; simpl; congruence || lia.
Qed.

(** The graph [D (Arg 0) body] computes the partial derivative in [x] of the
    function of the body, and [D (Arg 1) body] the one in [t]. *)
Lemma net_fun_dx (rho : env) (body g : expr) (x t : R) :
  D (Arg 0) body = Some g ->
  derivable_pt_lim (fun y => net_fun rho body y t) x (net_fun rho g x t).
Proof.
  intros Hg.
  pose proof (D_correct body (Arg 0)
                (row_env rho (row_of [Const x; Const t])) x) as H.
  rewrite Hg in H. cbn [oval] in H.
  eapply dlim_value; [| eapply dlim_ext; [| exact H]].
  - apply eval_ext. intros v. now rewrite row_env_upd by lia.
  - intros y. apply eval_ext. intros v. now rewrite row_env_upd by lia.
Qed.

Lemma net_fun_dt (rho : env) (body g : expr) (x t : R) :
  D (Arg 1) body = Some g ->
  derivable_pt_lim (fun y => net_fun rho body x y) t (net_fun rho g x t).
Proof.
  intros Hg.
  pose proof (D_correct body (Arg 1)
                (row_env rho (row_of [Const x; Const t])) t) as H.
  rewrite Hg in H. cbn [oval] in H.
  eapply dlim_value; [| eapply dlim_ext; [| exact H]].
  - apply eval_ext. intros v. now rewrite row_env_upd by lia.
  - intros y. apply eval_ext. intros v. now rewrite row_env_upd by lia.
Qed.

(** The value of a body instantiated at a sample is the function of the body
    at the coordinates of the sample. *)
Lemma eval_sample (rho : env) (ix it j : nat) (e : expr) :
  eval rho (inst (sample ix it j) e)
  = net_fun rho e (rho (Elem ix 0 j)) (rho (Elem it 0 j)).
Proof.
  rewrite eval_inst. apply eval_ext. intros [[|[|k]]|a i l]; reflexivity.
Qed.

Lemma predicts_rowwise (body : expr) (rho : env) :
  predicts (rowwise body) rho (net_fun rho body).
Proof.
  intros x t s. eexists. split; [reflexivity |].
  unfold tvalue. cbn [data amap map]. now rewrite eval_inst.
Qed.

(** `f` on a row-wise model whose output graph uses [t] and whose
    x-gradient still uses [x]. *)
Lemma f_residual_rowwise (body : expr) (ix it n : nat) (s : state) :
  ix <> it -> (0 < n)%nat ->
  mentions_leaf ix body = false ->
  mentions_leaf it body = false ->
  mentions (Arg 1) body = true ->
  curved 0 body = true ->
  returns_residual (rowwise body) ix it n s.
Proof.
  intros Hne Hn Hbx Hbt Ht Hc.
  apply D_some_iff in Ht. destruct Ht as [ut Ht].
  unfold curved, bent in Hc. destruct (D (Arg 0) body) as [ux|] eqn:Hx;
    [| discriminate].
  apply D_some_iff in Hc. destruct Hc as [uxx Hxx].
  exists (net_fun (store s) body), (net_fun (store s) ut),
         (net_fun (store s) ux), (net_fun (store s) uxx).
  split; [apply predicts_rowwise |].
  split; [intros x t; now apply net_fun_dt |].
  split; [intros x t; now apply net_fun_dx |].
  split; [intros x t; now apply net_fun_dx |].
  destruct (f_runs body ut ux uxx ix it n s Hne Hn Hbx Hbt Ht Hx Hxx)
    as [o Hf].
  eexists. split; [exact Hf |].
  unfold tvalue. cbn [data amap]. rewrite map_map. f_equal.
  apply map_ext. intros j. cbn [eval]. now rewrite !eval_sample.
Qed.


(** A leaf of an instantiated body comes from the body or from a feature
    the body uses. *)
Lemma mentions_leaf_inst (id : nat) (row : nat -> expr) (e : expr) :
  mentions_leaf id (inst row e) = true ->
  mentions_leaf id e = true
  \/ exists k, mentions (Arg k) e = true /\ mentions_leaf id (row k) = true.
Proof.
  induction e as [c|[k|a i j]|a IHa b IHb|a IHa b IHb|a IHa b IHb|a IHa|a IHa m
                 |a IHa|a IHa];
    cbn [inst mentions_leaf mentions var_eqb]; intros H;
    try (apply orb_true_iff in H; destruct H as [H|H];
         [destruct (IHa H) as [H'|(k & H1 & H2)]
         |destruct (IHb H) as [H'|(k & H1 & H2)]];
         [left; rewrite H'; reflexivity
         |right; exists k; rewrite H1; auto
         |left; rewrite H'; apply orb_true_r
         |right; exists k; rewrite H1, orb_true_r; auto]);
    try (destruct (IHa H) as [H'|(k & H1 & H2)];
         [left; exact H' | right; exists k; auto]).
  - discriminate.
  - right. exists k. rewrite Nat.eqb_refl. auto.
  - now left.
Qed.

(** A leaf batch is no node of the outputs of a body that does not use the
    feature it feeds. *)
Lemma unused_rows (rw : nat -> nat -> expr) (k id : nat) (e : expr)
      (l : list nat) :
  feeds rw k id ->
  mentions_leaf id e = false ->
  mentions (Arg k) e = false ->
  existsb (mentions_leaf id) (map (fun i => inst (rw i) e) l) = false.
Proof.
  intros [Hk Hother] He Hm. induction l as [|i l IH]; [reflexivity |].
  cbn [map existsb]. rewrite IH, orb_false_r.
  destruct (mentions_leaf id (inst (rw i) e)) eqn:E; [| reflexivity].
  apply mentions_leaf_inst in E. destruct E as [E|(k' & H1 & H2)].
  - congruence.
  - destruct (Nat.eq_dec k' k) as [->|Hne]; [congruence |].
    rewrite Hother in H2 by assumption. discriminate.
Qed.

(** `f` raises an autograd error, leaving the state alone, on a row-wise
    model whose output graph does not use [t], or whose x-gradient is
    undefined or has no [x] left. *)
Lemma f_raises_without_graph (body : expr) (ix it n : nat) (s : state) :
  ix <> it -> (0 < n)%nat ->
  mentions_leaf ix body = false ->
  mentions_leaf it body = false ->
  mentions (Arg 1) body = false \/ curved 0 body = false ->
  exists w,
    f (rowwise body) (leaf1 ix n) (leaf1 it n) s = (Raise (GraphViolation w), s)
    /\ (w = InputUnused \/ w = OutputNotTracked).
Proof.
  intros Hne Hn Hbx Hbt Hflat.
  pose proof (feeds_x ix it Hne) as Fx.
  pose proof (feeds_t ix it Hne) as Ft.
  unfold f. unfold bind at 1. rewrite stack_leaf1.
  unfold bind at 1. rewrite rowwise_pairs.
  cbn [requires_grad origin_of orb result_origin].
  change (map (fun j => [inst (row_of [Var (Elem ix 0 j); Var (Elem it 0 j)])
                              body]) (seq 0 n))
    with (map (fun j => [inst (sample ix it j) body]) (seq 0 n)).
  rewrite <- (map_map (fun j => inst (sample ix it j) body) (fun b => [b])).
  unfold bind at 1. unfold derivative at 1.
  change (Z.to_nat 1) with 1%nat. cbn [for_range]. unfold bind at 1.
  destruct (mentions (Arg 1) body) eqn:Ht.
  - destruct Hflat as [Hflat|Hc]; [discriminate |].
    apply D_some_iff in Ht. destruct Ht as [ut Ht].
    rewrite (grad_rows (sample ix it) 1 it n body ut Derived s true Ft Hbt Ht
               Hn) by discriminate.
    unfold ret at 1. unfold bind at 1. unfold derivative.
    change (Z.to_nat 2) with 2%nat. cbn [for_range]. unfold bind at 1.
    unfold curved, bent in Hc.
    destruct (D (Arg 0) body) as [ux|] eqn:Hx.
    + rewrite (grad_rows (sample ix it) 0 ix n body ux Derived s true Fx Hbx Hx
                 Hn) by discriminate.
      assert (Hux : mentions_leaf ix ux = false)
        by (eapply mentions_leaf_D; eassumption).
      unfold bind at 1. unfold grad at 1.
      cbn [origin_of data elems leaf1 leaf_like].
      rewrite (unused_rows (sample ix it) 0 ix ux (seq 0 n) Fx Hux Hc).
      destruct (existsb tracked _); cbn [result_origin]; unfold raise;
        (eexists; split; [reflexivity | auto]).
    + apply D_none_iff in Hx.
      unfold grad at 1. cbn [origin_of data elems leaf1 leaf_like].
      rewrite (concat_map_singleton (fun b : expr => b)), map_id.
      rewrite (unused_rows (sample ix it) 0 ix body (seq 0 n) Fx Hbx Hx).
      unfold raise. eexists. split; [reflexivity | auto].
  - unfold grad at 1. cbn [origin_of data elems leaf1 leaf_like].
    rewrite (concat_map_singleton (fun b : expr => b)), map_id.
    rewrite (unused_rows (sample ix it) 1 it body (seq 0 n) Ft Hbt Ht).
    unfold raise. eexists. split; [reflexivity | auto].
Qed.

Lemma affine_not_curved (body : expr) :
  affine body = true -> curved 0 body = false.
Proof.
  unfold affine, featureless, curved, bent. intros H.
  apply andb_true_iff in H. destruct H as [H _].
  destruct (D (Arg 0) body) as [g|]; [| reflexivity].
  apply andb_true_iff in H. destruct H as [H _].
  now apply negb_true_iff in H.
Qed.



End Residual.

(** ** The derivative operator *)

Section Derivative.

Import Graph Torch Notebook.
Local Open Scope R_scope.

(** C10.  With an order below one the loop body never runs: `derivative`
    returns its first argument unchanged, whatever the tensors are. *)
Theorem derivative_order_below_one (dy x : tensor) (order : Z) (s : state) :
  (order < 1)%Z -> derivative dy x order s = (Ok dy, s).
Proof.
  intros H. unfold derivative.
  replace (Z.to_nat order) with 0%nat; [reflexivity |].
  destruct order; simpl; try reflexivity. lia.
Qed.

Lemma derivative_order_below_one_witness :
  derivative (const1 [1; 2]) (leaf1 0 2) 0 (initial_state (fun _ => 0) (fun _ => 0))
  = (Ok (const1 [1; 2]), initial_state (fun _ => 0) (fun _ => 0))
  /\ derivative (const1 [1; 2]) (const1 [5]) (-3)
                (initial_state (fun _ => 0) (fun _ => 0))
     = (Ok (const1 [1; 2]), initial_state (fun _ => 0) (fun _ => 0)).
Proof.
  split; apply derivative_order_below_one; lia.
Defined.


Lemma Dn_mentions_leaf (id : nat) (v : var) (k : nat) (e g : expr) :
  Dn v k e = Some g -> mentions_leaf id e = false -> mentions_leaf id g = false.
Proof.
  revert e. induction k as [|k IH]; intros e; cbn [Dn].
  - now intros [= <-].
  - destruct (D v e) as [g1|] eqn:E; [| discriminate].
    intros Hk He. apply (IH g1 Hk). eapply mentions_leaf_D; eassumption.
Qed.






End Derivative.

(** ** The loss assembler *)

Section Losses.

Import Graph Torch Notebook.
Local Open Scope R_scope.

Lemma eval_esum_cons (rho : env) (a : expr) (l : list expr) :
  eval rho (esum (a :: l)) = eval rho a + eval rho (esum l).
Proof. destruct l; simpl; ring. Qed.

Lemma elems_amap {A B : Type} (g : A -> B) (d : arr A) :
  elems (amap g d) = map g (elems d).
Proof.
  destruct d as [a|l|rows]; cbn [amap elems]; try reflexivity.
  now rewrite concat_map.
Qed.


Lemma sval_add (rho : env) (a b r : tensor) (s s' : state) :
  torch_add a b s = (Ok r, s') ->
  (exists ea, data a = Sc ea) -> (exists eb, data b = Sc eb) ->
  s' = s /\ (exists e, data r = Sc e) /\
  (requires_grad r = requires_grad a || requires_grad b) /\
  sval rho r = sval rho a + sval rho b.
Proof.
  intros H [ea Ha] [eb Hb]. unfold torch_add, binary in H.
  rewrite Ha, Hb in H. cbn [broadcast] in H. unfold ret in H.
  injection H as <- <-. unfold sval. rewrite Ha, Hb. cbn [data eval].
  repeat split; eauto.
  unfold requires_grad at 1. cbn [origin_of].
  now destruct (requires_grad a || requires_grad b).
Qed.

Lemma mse_f_inv (mdl : model) (x_f t_f r : tensor) (s s' : state) :
  mse_f mdl x_f t_f s = (Ok r, s') ->
  exists f_u, f mdl x_f t_f s = (Ok f_u, s')
              /\ r = torch_mean (torch_pow f_u 2).
Proof.
  unfold mse_f. intros H. apply bind_ok in H.
  destruct H as (f_u & s1 & Hf & H). unfold ret in H. injection H as <- <-.
  eauto.
Qed.

Lemma mse_0_inv (mdl : model) (x_0 u_0 r : tensor) (s s' : state) :
  mse_0 mdl x_0 u_0 s = (Ok r, s') ->
  exists d, r = torch_mean (torch_pow d 2).
Proof.
  unfold mse_0. intros H.
  apply bind_ok in H. destruct H as (inp & s1 & _ & H).
  apply bind_ok in H. destruct H as (u & s2 & _ & H).
  apply bind_ok in H. destruct H as (d & s3 & _ & H).
  unfold ret in H. injection H as <- <-. eauto.
Qed.

Lemma mse_b_terms_inv (mdl : model) (t_b dir neu : tensor) (s s' : state) :
  mse_b_terms mdl t_b s = (Ok (dir, neu), s') ->
  (exists u, dir = torch_mean (torch_pow u 2)) /\
  (exists d, neu = torch_mean (torch_pow d 2) /\ requires_grad d = true).
Proof.
  unfold mse_b_terms. intros H.
  apply bind_ok in H. destruct H as (xu & s1 & _ & H).
  apply bind_ok in H. destruct H as (inp & s2 & _ & H).
  apply bind_ok in H. destruct H as (uu & s3 & _ & H).
  apply bind_ok in H. destruct H as (xl & s4 & _ & H).
  apply bind_ok in H. destruct H as (inp' & s5 & _ & H).
  apply bind_ok in H. destruct H as (ul & s6 & _ & H).
  apply bind_ok in H. destruct H as (ux & s7 & Hd & H).
  apply bind_ok in H. destruct H as (d & s8 & Hsub & H).
  unfold ret in H. injection H as <- <- <-.
  split; [eauto |]. exists d. split; [reflexivity |].
  (* the differentiated output requires grad, hence so does the difference *)
  assert (Hul : requires_grad ul = true).
  { unfold derivative in Hd. change (Z.to_nat 1) with 1%nat in Hd.
    cbn [for_range] in Hd. apply bind_ok in Hd.
    destruct Hd as (g & s9 & Hg & _). unfold grad, requires_grad in *.
    destruct (origin_of ul); [discriminate | reflexivity | reflexivity]. }
  unfold torch_sub, binary in Hsub.
  destruct (broadcast Sub (data ul) (data ux)); [| discriminate].
  unfold ret in Hsub. injection Hsub as <- <-.
  unfold requires_grad at 1. cbn [origin_of]. now rewrite Hul.
Qed.

Lemma requires_grad_mean (t : tensor) :
  requires_grad (torch_mean t) = requires_grad t.
Proof.
  unfold torch_mean, requires_grad at 1. cbn [origin_of].
  now destruct (requires_grad t).
Qed.

Lemma requires_grad_pointwise (g : expr -> expr) (t : tensor) :
  requires_grad (pointwise g t) = requires_grad t.
Proof.
  unfold pointwise, requires_grad at 1. cbn [origin_of].
  now destruct (requires_grad t).
Qed.

Lemma mse_b_inv (mdl : model) (t_b r : tensor) (s s' : state) :
  mse_b mdl t_b s = (Ok r, s') ->
  exists dir neu,
    mse_b_terms mdl t_b s = (Ok (dir, neu), s')
    /\ (exists e, data r = Sc e)
    /\ requires_grad r = true
    /\ forall rho, sval rho r = sval rho dir + sval rho neu.
Proof.
  unfold mse_b. intros H. apply bind_ok in H.
  destruct H as ([dir neu] & s1 & Ht & H). cbn [fst snd] in H.
  destruct (mse_b_terms_inv mdl t_b dir neu s s1 Ht)
    as [[u ->] [d [-> Hd]]].
  exists (torch_mean (torch_pow u 2)), (torch_mean (torch_pow d 2)).
  destruct (sval_add (fun _ => 0) _ _ _ _ _ H) as (-> & He & Hr & _);
    [cbn [torch_mean data]; eauto .. |].
  repeat split; [exact Ht | exact He | |].
  - rewrite Hr, !requires_grad_mean. unfold torch_pow.
    rewrite !requires_grad_pointwise, Hd. apply orb_true_r.
  - intros rho.
    destruct (sval_add rho _ _ _ _ _ H) as (_ & _ & _ & Hv);
      [cbn [torch_mean data]; eauto .. |]. exact Hv.
Qed.

Lemma add_scalars (a b : tensor) (ea eb : expr) (s : state) :
  data a = Sc ea -> data b = Sc eb ->
  torch_add a b s
  = (Ok (mkTensor (result_origin (requires_grad a || requires_grad b))
                  (Sc (Add ea eb))), s).
Proof.
  intros Ha Hb. unfold torch_add, binary. now rewrite Ha, Hb.
Qed.

(** Complete case analysis of one closure evaluation: it raises what the
    first failing sub-loss raises, and otherwise returns the sum of the three
    sub-losses, with the counter advanced by one. *)
Lemma closure_cases (mdl : model) (opt : optimizer)
      (x_f t_f x_0 u_0 t : tensor) (s : state) :
  match mse_f mdl x_f t_f (snd (zero_grad opt s)) with
  | (Raise e, s1) => closure mdl opt x_f t_f x_0 u_0 t s = (Raise e, s1)
  | (Ok l_f, s1) =>
      match mse_0 mdl x_0 u_0 s1 with
      | (Raise e, s2) => closure mdl opt x_f t_f x_0 u_0 t s = (Raise e, s2)
      | (Ok l_0, s2) =>
          match mse_b mdl t s2 with
          | (Raise e, s3) =>
              closure mdl opt x_f t_f x_0 u_0 t s = (Raise e, s3)
          | (Ok l_b, s3) =>
              exists loss s',
                closure mdl opt x_f t_f x_0 u_0 t s = (Ok loss, s')
                /\ (forall rho, sval rho loss
                                = sval rho l_f + sval rho l_0 + sval rho l_b)
                /\ iter s' = (iter s3 + 1)%Z
                /\ stdout s'
                   = stdout s3 ++ progress_line (iter s3 + 1)
                                                (sval (store s3) loss)
                /\ store s' = store s3
                /\ next_id s' = next_id s3
          end
      end
  end.
Proof.
  set (s0 := snd (zero_grad opt s)).
  unfold closure.
  rewrite (bind_step (zero_grad opt) _ s s0 tt eq_refl).
  destruct (mse_f mdl x_f t_f s0) as [[l_f|e] s1] eqn:Ef;
    [| now rewrite (bind_raise _ _ _ _ _ Ef)].
  rewrite (bind_step _ _ _ _ _ Ef).
  destruct (mse_0 mdl x_0 u_0 s1) as [[l_0|e] s2] eqn:E0;
    [| now rewrite (bind_raise _ _ _ _ _ E0)].
  rewrite (bind_step _ _ _ _ _ E0).
  destruct (mse_f_inv _ _ _ _ _ _ Ef) as (f_u & _ & ->).
  destruct (mse_0_inv _ _ _ _ _ _ E0) as (d0 & ->).
  rewrite (bind_step _ _ _ _ _
             (add_scalars (torch_mean (torch_pow f_u 2))
                          (torch_mean (torch_pow d0 2)) _ _ s2
                          eq_refl eq_refl)).
  destruct (mse_b mdl t s2) as [[l_b|e] s3] eqn:Eb;
    [| now rewrite (bind_raise _ _ _ _ _ Eb)].
  rewrite (bind_step _ _ _ _ _ Eb).
  destruct (mse_b_inv _ _ _ _ _ Eb) as (dir & neu & _ & [eb Hb] & Hrb & _).
  rewrite (bind_step _ _ _ _ _
             (add_scalars (mkTensor _ (Sc _)) l_b _ _ s3 eq_refl Hb)).
  rewrite Hrb, orb_true_r. cbn [result_origin].
  unfold bind, backward, incr_iter, get, item, print_progress, ret.
  cbn [origin_of data iter elems stdout store next_id].
  unfold progress_line.
  destruct (Z.eqb ((iter s3 + 1) mod 50) 0);
    (eexists; eexists; split; [reflexivity |]);
    cbn [iter stdout store next_id]; unfold sval; rewrite ?Hb;
    cbn [data eval]; rewrite ?app_nil_r; repeat split; reflexivity.
Qed.

Lemma combined_loss_is_sum_of_sub_losses_aux
      (mdl : model) (opt : optimizer) (x_f t_f x_0 u_0 t loss : tensor)
      (s s' : state) :
  closure mdl opt x_f t_f x_0 u_0 t s = (Ok loss, s') ->
  exists l_f l_0 l_b s1 s2 s3,
    mse_f mdl x_f t_f (snd (zero_grad opt s)) = (Ok l_f, s1)
    /\ mse_0 mdl x_0 u_0 s1 = (Ok l_0, s2)
    /\ mse_b mdl t s2 = (Ok l_b, s3)
    /\ forall rho,
        sval rho loss = sval rho l_f + sval rho l_0 + sval rho l_b.
Proof.
  intros H.
  pose proof (closure_cases mdl opt x_f t_f x_0 u_0 t s) as C.
  destruct (mse_f mdl x_f t_f (snd (zero_grad opt s))) as [[l_f|e] s1] eqn:Ef;
    [| congruence].
  destruct (mse_0 mdl x_0 u_0 s1) as [[l_0|e] s2] eqn:E0; [| congruence].
  destruct (mse_b mdl t s2) as [[l_b|e] s3] eqn:Eb; [| congruence].
  destruct C as (loss' & s'' & Hc & Hv & _).
  rewrite H in Hc. injection Hc as <- <-.
  exists l_f, l_0, l_b, s1, s2, s3. repeat split; auto.
Qed.

(** C4.  Whenever a closure evaluation returns, its loss is the sum of the
    losses returned by `mse_f`, `mse_0` and `mse_b` on the same inputs, in
    this order; and whenever `mse_b` returns, its loss is the Dirichlet term
    plus the Neumann term. *)
Theorem combined_loss_is_sum_of_sub_losses :
  (forall (mdl : model) (opt : optimizer) (x_f t_f x_0 u_0 t loss : tensor)
          (s s' : state),
      closure mdl opt x_f t_f x_0 u_0 t s = (Ok loss, s') ->
      exists l_f l_0 l_b s1 s2 s3,
        mse_f mdl x_f t_f (snd (zero_grad opt s)) = (Ok l_f, s1)
        /\ mse_0 mdl x_0 u_0 s1 = (Ok l_0, s2)
        /\ mse_b mdl t s2 = (Ok l_b, s3)
        /\ forall rho,
            sval rho loss = sval rho l_f + sval rho l_0 + sval rho l_b)
  /\ (forall (mdl : model) (t_b l_b : tensor) (s s' : state),
         mse_b mdl t_b s = (Ok l_b, s') ->
         exists mse_dirichlet mse_neumann,
           mse_b_terms mdl t_b s = (Ok (mse_dirichlet, mse_neumann), s')
           /\ forall rho,
               sval rho l_b = sval rho mse_dirichlet + sval rho mse_neumann).
Proof.
  split.
  - intros mdl opt x_f t_f x_0 u_0 t loss s s' H.
    now apply combined_loss_is_sum_of_sub_losses_aux with (1 := H).
  - intros mdl t_b l_b s s' H.
    destruct (mse_b_inv mdl t_b l_b s s' H) as (dir & neu & Ht & _ & _ & Hv).
    eauto.
Qed.

Lemma combined_loss_is_sum_of_sub_losses_witness :
  exists loss s',
    demo_closure (demo_state 0) = (Ok loss, s')
    /\ exists l_f l_0 l_b s1 s2 s3,
        mse_f (rowwise demo_body) (leaf1 0 1) (leaf1 1 1)
              (snd (zero_grad (mkOptimizer []) (demo_state 0))) = (Ok l_f, s1)
        /\ mse_0 (rowwise demo_body) (const1 [1 / 2]) (const1 [0]) s1
           = (Ok l_0, s2)
        /\ mse_b (rowwise demo_body) (const1 [0]) s2 = (Ok l_b, s3)
        /\ forall rho,
            sval rho loss = sval rho l_f + sval rho l_0 + sval rho l_b.
Proof.
  eexists. eexists. split; [run |].
  destruct combined_loss_is_sum_of_sub_losses as [H _].
  eapply H. run.
Defined.

End Losses.

(** ** The optimization driver *)

Section Driver.

Import Graph Torch Notebook.
Local Open Scope R_scope.

Lemma stateless_for_range (step : tensor -> M tensor) (n : nat) (dy : tensor) :
  (forall d, stateless (step d)) -> stateless (for_range n step dy).
Proof.
  intros Hs. revert dy. induction n as [|n IH]; intros dy; cbn [for_range].
  - apply stateless_ret.
  - apply stateless_bind; auto.
Qed.

Lemma stateless_derivative (dy x : tensor) (order : Z) :
  stateless (derivative dy x order).
Proof.
  apply stateless_for_range. intros d. apply stateless_grad.
Qed.

Lemma stateless_f (body : expr) (x_f t_f : tensor) :
  stateless (f (rowwise body) x_f t_f).
Proof.
  unfold f.
  apply stateless_bind; [apply stateless_stack | intros inp].
  apply stateless_bind; [apply stateless_rowwise | intros u].
  apply stateless_bind; [apply stateless_derivative | intros u_t].
  apply stateless_bind; [apply stateless_derivative | intros u_xx].
  apply stateless_binary.
Qed.

Lemma stateless_mse_f (body : expr) (x_f t_f : tensor) :
  stateless (mse_f (rowwise body) x_f t_f).
Proof.
  unfold mse_f. apply stateless_bind; [apply stateless_f |].
  intros a. apply stateless_ret.
Qed.

Lemma stateless_mse_0 (body : expr) (x_0 u_0 : tensor) :
  stateless (mse_0 (rowwise body) x_0 u_0).
Proof.
  unfold mse_0.
  apply stateless_bind; [apply stateless_stack | intros inp].
  apply stateless_bind; [apply stateless_rowwise | intros u].
  apply stateless_bind; [apply stateless_binary | intros d].
  apply stateless_ret.
Qed.

Lemma silent_mse_b_terms (body : expr) (t_b : tensor) :
  silent (mse_b_terms (rowwise body) t_b).
Proof.
  unfold mse_b_terms.
  apply silent_bind; [apply silent_set_requires_grad | intros x_b_upper].
  apply silent_bind; [apply stateless_silent, stateless_stack | intros inp].
  apply silent_bind; [apply stateless_silent, stateless_rowwise | intros u].
  apply silent_bind; [apply silent_set_requires_grad | intros x_b_lower].
  apply silent_bind; [apply stateless_silent, stateless_stack | intros inp'].
  apply silent_bind; [apply stateless_silent, stateless_rowwise | intros u'].
  apply silent_bind; [apply stateless_silent, stateless_derivative | intros g].
  apply silent_bind; [apply stateless_silent, stateless_binary | intros d].
  apply stateless_silent, stateless_ret.
Qed.

Lemma silent_mse_b (body : expr) (t_b : tensor) :
  silent (mse_b (rowwise body) t_b).
Proof.
  unfold mse_b. apply silent_bind; [apply silent_mse_b_terms |].
  intros a. apply stateless_silent, stateless_binary.
Qed.

(** Counter and output of one closure evaluation of a row-wise model. *)
Lemma closure_counter (body : expr) (opt : optimizer)
      (x_f t_f x_0 u_0 t : tensor) (s : state) :
  match closure (rowwise body) opt x_f t_f x_0 u_0 t s with
  | (Ok loss, s') =>
      iter s' = (iter s + 1)%Z
      /\ stdout s' = stdout s ++ progress_line (iter s + 1)
                                               (sval (store s') loss)
  | (Raise _, s') => iter s' = iter s /\ stdout s' = stdout s
  end.
Proof.
  pose proof (closure_cases (rowwise body) opt x_f t_f x_0 u_0 t s) as C.
  set (s0 := snd (zero_grad opt s)) in *.
  assert (H0 : iter s0 = iter s /\ stdout s0 = stdout s) by (now split).
  destruct (stateless_mse_f body x_f t_f) as [o_f Hf]. rewrite Hf in C.
  destruct o_f as [l_f|e]; [| now rewrite C].
  destruct (stateless_mse_0 body x_0 u_0) as [o_0 H0']. rewrite H0' in C.
  destruct o_0 as [l_0|e]; [| now rewrite C].
  pose proof (silent_mse_b body t s0) as Hb.
  destruct (mse_b (rowwise body) t s0) as [[l_b|e] s3]; cbn [snd] in Hb.
  - destruct C as (loss & s' & -> & _ & Hi & Ho & Hs & _).
    destruct Hb as [Hb1 Hb2]. destruct H0 as [H1 H2].
    rewrite Hi, Ho, Hs, Hb1, Hb2, H1, H2. now split.
  - rewrite C. destruct Hb, H0. split; congruence.
Qed.

Lemma lbfgs_step_monotone (alg : lbfgs) (opt : optimizer)
      (closure_fn : M tensor) :
  (forall s, (iter s <= iter (snd (closure_fn s)))%Z) ->
  forall s, (iter s <= iter (snd (lbfgs_step alg opt closure_fn s)))%Z.
Proof.
  intros Hc. induction alg as [|move next IH]; intros s; cbn [lbfgs_step].
  - cbn. lia.
  - unfold bind at 1. specialize (Hc s).
    destruct (closure_fn s) as [[loss|e] s1]; cbn [snd] in *; [| exact Hc].
    unfold bind at 1, item.
    destruct (elems (data loss)) as [|a [|b l]]; cbn [snd]; try exact Hc.
    unfold bind at 1, get. unfold bind at 1, update_params.
    eapply Z.le_trans; [| apply IH]. cbn [iter]. exact Hc.
Qed.

(** C6.  A closure evaluation that returns advances `iter` by exactly one and
    prints one line, the new counter with the value of the loss, exactly when
    the new counter is a multiple of 50; an evaluation that raises leaves
    counter and output as they were.  `train` never lowers the counter, and
    a fresh process starts at zero. *)
Theorem closure_counts_evaluations :
  (forall (body : expr) (opt : optimizer) (x_f t_f x_0 u_0 t : tensor)
          (s : state),
      match closure (rowwise body) opt x_f t_f x_0 u_0 t s with
      | (Ok loss, s') =>
          iter s' = (iter s + 1)%Z
          /\ stdout s'
             = stdout s ++ (if Z.eqb ((iter s + 1) mod 50) 0
                            then [((iter s + 1)%Z, sval (store s') loss)]
                            else [])
      | (Raise _, s') => iter s' = iter s /\ stdout s' = stdout s
      end)
  /\ (forall (alg : lbfgs) (body : expr) (x_f t_f x_0 u_0 t : tensor)
             (s : state),
         (iter s
          <= iter (snd (train alg (rowwise body) x_f t_f x_0 u_0 t s)))%Z)
  /\ (forall (rho : env) (g : nat -> R), iter (initial_state rho g) = 0%Z)
  /\ (exists loss s',
         demo_closure (demo_state 49) = (Ok loss, s')
         /\ iter s' = 50%Z /\ stdout s' = [(50%Z, sval (store s') loss)]).
Proof.
  split; [| split; [| split]].
  - intros. apply closure_counter.
  - intros. unfold train. apply lbfgs_step_monotone. intros s0.
    pose proof (closure_counter body (mkOptimizer (parameters (rowwise body)))
                  x_f t_f x_0 u_0 t s0) as C.
    destruct (closure _ _ _ _ _ _ _ s0) as [[loss|e] s1]; cbn [snd]; lia.
  - reflexivity.
  - pose proof (closure_counter demo_body (mkOptimizer []) (leaf1 0 1)
                  (leaf1 1 1) (const1 [1 / 2]) (const1 [0]) (const1 [0])
                  (demo_state 49)) as C.
    fold demo_closure in C.
    destruct (demo_closure (demo_state 49)) as [[loss|e] s'] eqn:E.
    + exists loss, s'. split; [reflexivity |]. exact C.
    + exfalso. revert E. unfold demo_closure.
      lazy -[Rplus Rmult Rminus Ropp Rinv Rdiv INR IZR PI exp tanh pow sqrt].
      discriminate.
Qed.

(** C6 read for every evaluation, also one that raises: on a boundary batch
    that requires grad the closure raises and the counter stays. *)
Lemma closure_evaluation_may_not_count :
  ~ (forall (body : expr) (opt : optimizer) (x_f t_f x_0 u_0 t : tensor)
            (s : state),
        iter (snd (closure (rowwise body) opt x_f t_f x_0 u_0 t s))
        = (iter s + 1)%Z).
Proof.
  intros H.
  specialize (H demo_body (mkOptimizer []) (leaf1 0 1) (leaf1 1 1)
                (const1 [1 / 2]) (const1 [0]) (leaf1 1 1) (demo_state 0)).
  revert H.
  lazy -[Rplus Rmult Rminus Ropp Rinv Rdiv INR IZR PI exp tanh pow sqrt].
  discriminate.
Qed.

End Driver.

(** ** Error behaviour of the boundary loss *)

Section BoundaryError.

Import Graph Torch Notebook.
Local Open Scope R_scope.

Lemma length_mapi_from {A B : Type} (g : nat -> A -> B) (k : nat) (l : list A) :
  length (mapi_from g k l) = length l.
Proof.
  revert k. induction l as [|a l IH]; intros k; simpl; [reflexivity |].
  now rewrite IH.
Qed.

Lemma forallb_pairs {A : Type} (l : list (A * A)) :
  forallb (fun r => Nat.eqb (length r) 2)
          (map (fun p => [fst p; snd p]) l) = true.
Proof. apply forallb_map_true. reflexivity. Qed.

(** The Dirichlet half of `mse_b` runs on every flat batch: the zero batch
    becomes a new leaf, and the stacked input has two columns. *)
Lemma mse_b_reaches_lower (body : expr) (t_b : tensor) (l : list expr)
      (s : state) :
  data t_b = Vec l ->
  exists s1,
    next_id s1 = S (next_id s) /\ iter s1 = iter s /\ stdout s1 = stdout s /\
    mse_b_terms (rowwise body) t_b s
    = bind (set_requires_grad
              (torch_rmul (2 * PI) (torch_exp (torch_neg t_b))))
           (fun x_b_lower =>
              bind (torch_stack x_b_lower t_b)
                (fun inp =>
                   bind (forward (rowwise body) inp)
                     (fun u_b_lower =>
                        bind (derivative u_b_lower x_b_lower 1)
                          (fun u_x_b_lower =>
                             bind (torch_sub u_b_lower u_x_b_lower)
                               (fun d =>
                                  ret (torch_mean
                                         (torch_pow
                                            (mkTensor Derived
                                               (Mat (map
                                                  (fun r => [inst (row_of r) body])
                                                  (map (fun p => [fst p; snd p])
                                                     (combine
                                                        (mapi (fun j _ =>
                                                           Var (Elem (next_id s) 0 j))
                                                           (map (fun _ => Const 0) l))
                                                        l)))))
                                            2),
                                       torch_mean (torch_pow d 2)))))))
           s1.
Proof.
  intros Hl. eexists. split; [| split; [| split]]; cycle 3.
  - unfold mse_b_terms.
    unfold bind at 1. unfold set_requires_grad at 1.
    cbn [zeros_like origin_of data tvalue].
    unfold bind at 1. unfold torch_stack at 1.
    cbn [leaf_like data origin_of]. rewrite Hl. cbn [amap apos].
    unfold mapi at 1. rewrite length_mapi_from, length_map, Nat.eqb_refl.
    unfold ret at 1. unfold bind at 1.
    cbn [forward rowwise]. unfold rowwise_forward at 1. cbn [data].
    rewrite forallb_pairs. unfold ret at 1.
    cbn [requires_grad origin_of orb result_origin].
    reflexivity.
  - reflexivity.
  - reflexivity.
  - reflexivity.
Qed.

(** C1.  On a flat boundary batch that requires grad, `mse_b` raises the
    leaf-flag violation when it sets `requires_grad` on [x_b_lower], after the
    Dirichlet input has been built and before any Neumann quantity exists;
    every closure evaluation on such a batch raises and leaves the counter
    and the output untouched, and it raises this violation whenever the two
    other sub-losses return. *)
Theorem mse_b_flags_derived_tensor (body : expr) (t_b : tensor)
        (l : list expr) (s : state) :
  requires_grad t_b = true ->
  data t_b = Vec l ->
  is_leaf (torch_rmul (2 * PI) (torch_exp (torch_neg t_b))) = false
  /\ (exists s1,
         next_id s1 = S (next_id s)
         /\ mse_b_terms (rowwise body) t_b s
            = (Raise (GraphViolation FlagOnNonLeaf), s1)
         /\ mse_b (rowwise body) t_b s
            = (Raise (GraphViolation FlagOnNonLeaf), s1))
  /\ forall (opt : optimizer) (x_f t_f x_0 u_0 : tensor),
      exists e s',
        closure (rowwise body) opt x_f t_f x_0 u_0 t_b s = (Raise e, s')
        /\ iter s' = iter s /\ stdout s' = stdout s
        /\ (forall l_f l_0 s1 s2,
               mse_f (rowwise body) x_f t_f s = (Ok l_f, s1) ->
               mse_0 (rowwise body) x_0 u_0 s = (Ok l_0, s2) ->
               e = GraphViolation FlagOnNonLeaf).
Proof.
  intros Hr Hl.
  assert (Hleaf : is_leaf (torch_rmul (2 * PI) (torch_exp (torch_neg t_b)))
                  = false).
  { unfold torch_rmul, torch_exp, torch_neg, pointwise, is_leaf, requires_grad
      in *. cbn [origin_of]. destruct (origin_of t_b); [discriminate | |];
      reflexivity. }
  assert (Hterms : forall s0, exists s1,
             next_id s1 = S (next_id s0)
             /\ mse_b_terms (rowwise body) t_b s0
                = (Raise (GraphViolation FlagOnNonLeaf), s1)
             /\ mse_b (rowwise body) t_b s0
                = (Raise (GraphViolation FlagOnNonLeaf), s1)).
  { intros s0.
    destruct (mse_b_reaches_lower body t_b l s0 Hl) as (s1 & Hn & _ & _ & E).
    assert (E' : mse_b_terms (rowwise body) t_b s0
                 = (Raise (GraphViolation FlagOnNonLeaf), s1)).
    { rewrite E. unfold bind at 1, set_requires_grad.
      unfold is_leaf in Hleaf.
      destruct (origin_of (torch_rmul (2 * PI) (torch_exp (torch_neg t_b))));
        [discriminate | discriminate | reflexivity]. }
    exists s1. repeat split; [exact Hn | exact E' |].
    unfold mse_b. now rewrite (bind_raise _ _ _ _ _ E'). }
  split; [exact Hleaf |]. split; [apply Hterms |].
  intros opt x_f t_f x_0 u_0.
  pose proof (closure_counter body opt x_f t_f x_0 u_0 t_b s) as Hc.
  pose proof (closure_cases (rowwise body) opt x_f t_f x_0 u_0 t_b s) as C.
  set (s0 := snd (zero_grad opt s)) in *.
  destruct (stateless_mse_f body x_f t_f) as [o_f Hf]. rewrite Hf in C.
  destruct (stateless_mse_0 body x_0 u_0) as [o_0 H0]. 
  destruct o_f as [l_f|e].
  - rewrite H0 in C. destruct o_0 as [l_0|e].
    + destruct (Hterms s0) as (s1 & _ & _ & Eb). rewrite Eb in C.
      rewrite C in Hc. exists (GraphViolation FlagOnNonLeaf), s1.
      rewrite C. repeat split; tauto.
    + rewrite C in Hc. exists e, s0. rewrite C. repeat split; try tauto.
      intros l_f' l_0' s1 s2 _ E. rewrite H0 in E. discriminate.
  - rewrite C in Hc. exists e, s0. rewrite C. repeat split; try tauto.
    intros l_f' l_0' s1 s2 E _. rewrite Hf in E. discriminate.
Qed.

Lemma mse_b_flags_derived_tensor_witness :
  is_leaf (torch_rmul (2 * PI) (torch_exp (torch_neg (leaf1 1 2)))) = false
  /\ (exists s1,
         next_id s1 = S (next_id (demo_state 0))
         /\ mse_b_terms (rowwise demo_body) (leaf1 1 2) (demo_state 0)
            = (Raise (GraphViolation FlagOnNonLeaf), s1)
         /\ mse_b (rowwise demo_body) (leaf1 1 2) (demo_state 0)
            = (Raise (GraphViolation FlagOnNonLeaf), s1))
  /\ forall (opt : optimizer) (x_f t_f x_0 u_0 : tensor),
      exists e s',
        closure (rowwise demo_body) opt x_f t_f x_0 u_0 (leaf1 1 2)
                (demo_state 0) = (Raise e, s')
        /\ iter s' = iter (demo_state 0) /\ stdout s' = stdout (demo_state 0)
        /\ (forall l_f l_0 s1 s2,
               mse_f (rowwise demo_body) x_f t_f (demo_state 0) = (Ok l_f, s1) ->
               mse_0 (rowwise demo_body) x_0 u_0 (demo_state 0) = (Ok l_0, s2) ->
               e = GraphViolation FlagOnNonLeaf).
Proof.
  apply (mse_b_flags_derived_tensor demo_body (leaf1 1 2)
           [Var (Elem 1 0 0); Var (Elem 1 0 1)] (demo_state 0));
    reflexivity.
Defined.

End BoundaryError.

(** ** Shapes in the initial and boundary losses *)

Section Broadcasting.

Import Graph Torch Notebook.
Local Open Scope R_scope.

Lemma brow_singleton (g : expr -> expr -> expr) (a : expr) (l : list expr) :
  brow g [a] l = Some (map (g a) l).
Proof.
  unfold brow. destruct l as [|b [|c l]]; reflexivity.
Qed.

Lemma sequence_map_some {A B : Type} (g : A -> B) (l : list A) :
  sequence (map (fun a => Some (g a)) l) = Some (map g l).
Proof.
  induction l as [|a l IH]; [reflexivity |]. cbn [map sequence].
  now rewrite IH.
Qed.

Lemma eval_esum (rho : env) (l : list expr) :
  eval rho (esum l) = fold_right Rplus 0 (map (eval rho) l).
Proof.
  induction l as [|a l IH]; [reflexivity |].
  rewrite eval_esum_cons, IH. reflexivity.
Qed.

Lemma pairs_const_zeros (xs : list R) :
  map (fun p : expr * expr => [fst p; snd p])
      (combine (map Const xs) (map (fun _ : expr => Const 0) (map Const xs)))
  = map (fun x => [Const x; Const 0]) xs.
Proof.
  induction xs as [|x xs IH]; [reflexivity |]. cbn [map combine fst snd].
  now rewrite IH.
Qed.

Lemma stack_const_zeros (xs : list R) (s : state) :
  torch_stack (const1 xs) (zeros_like (const1 xs)) s
  = (Ok (mkTensor Detached (Mat (map (fun x => [Const x; Const 0]) xs))), s).
Proof.
  unfold torch_stack, const1, zeros_like. cbn [data amap].
  rewrite !length_map, Nat.eqb_refl, pairs_const_zeros. reflexivity.
Qed.

Lemma squares_of_pairs {A : Type} (rho : env) (B : A -> expr)
      (xs : list A) (gs : list expr) :
  map (eval rho)
      (map (fun e => Pow e 2)
           (concat (map (fun x => map (Sub (B x)) gs) xs)))
  = flat_map (fun a => map (fun u => (a - u) ^ 2) (map (eval rho) gs))
             (map (fun x => eval rho (B x)) xs).
Proof.
  induction xs as [|x xs IH]; [reflexivity |].
  cbn [map concat flat_map]. rewrite !map_app, IH. f_equal.
  rewrite !map_map. apply map_ext. intros u. reflexivity.
Qed.

(** The mean of the squares of a column minus a flat batch. *)
Lemma column_minus_flat (o : origin) (bs gs : list expr) (u : tensor)
      (s : state) :
  data u = Vec gs ->
  exists d,
    torch_sub (mkTensor o (Mat (map (fun b => [b]) bs))) u s = (Ok d, s)
    /\ forall rho,
        sval rho (torch_mean (torch_pow d 2))
        = all_pairs_mse (map (eval rho) bs) (map (eval rho) gs).
Proof.
  intros Hu. unfold torch_sub, binary. cbn [data broadcast]. rewrite Hu.
  rewrite map_map.
  rewrite (map_ext _ _ (fun b => brow_singleton Sub b gs)).
  rewrite (sequence_map_some (fun b => map (Sub b) gs)).
  cbn [option_map]. unfold ret. eexists. split; [reflexivity |].
  intros rho. unfold sval, torch_mean, torch_pow, pointwise, all_pairs_mse.
  cbn [data eval]. rewrite elems_amap. cbn [elems]. rewrite eval_esum.
  pose proof (squares_of_pairs rho (fun b : expr => b) bs gs) as E.
  cbv beta in E. change (fun x : expr => eval rho x) with (eval rho) in E.
  rewrite <- E, !length_map. reflexivity.
Qed.

(** What `mse_0` computes on flat constant batches: the output column of
    the model, of shape [(n, 1)], is broadcast against the flat targets, and
    the mean runs over all pairs of an output and a target. *)
Lemma mse_0_value (body : expr) (xs us : list R) (s : state) :
  exists r,
    mse_0 (rowwise body) (const1 xs) (const1 us) s = (Ok r, s)
    /\ forall rho,
        sval rho r
        = all_pairs_mse (map (fun x => net_fun rho body x 0) xs) us.
Proof.
  unfold mse_0. rewrite (bind_step _ _ _ _ _ (stack_const_zeros xs s)).
  rewrite (bind_step _ _ _ _ _
             (rowwise_pairs body Detached Const (fun _ => Const 0) xs s)).
  rewrite <- (map_map (fun x => inst (row_of [Const x; Const 0]) body)
                      (fun b => [b])).
  destruct (column_minus_flat
              (result_origin (requires_grad (mkTensor Detached (Vec []))
                              || tracked body))
              (map (fun x => inst (row_of [Const x; Const 0]) body) xs)
              (map Const us) (const1 us) s eq_refl) as (d & Hd & Hv).
  rewrite (bind_step _ _ _ _ _ Hd). unfold ret.
  eexists. split; [reflexivity |].
  intros rho. rewrite Hv, !map_map. f_equal.
  - apply map_ext. intros x. now rewrite eval_inst.
  - cbn [eval]. now rewrite map_id.
Qed.

Lemma leaf_like_vec {A : Type} (id : nat) (l : list A) :
  leaf_like id (Vec l) = leaf1 id (length l).
Proof.
  unfold leaf1, leaf_like, apos, mapi.
  now rewrite mapi_from_repeat, mapi_from_const.
Qed.

Lemma pairs_leaf_const (id : nat) (ts : list R) :
  forall k,
    map (fun p : expr * expr => [fst p; snd p])
        (combine (map (fun j => Var (Elem id 0 j)) (seq k (length ts)))
                 (map Const ts))
    = map (fun j => [Var (Elem id 0 j); Const (nth (j - k) ts 0)])
          (seq k (length ts)).
Proof.
  induction ts as [|t ts IH]; intros k; [reflexivity |].
  cbn [length seq map combine fst snd]. rewrite Nat.sub_diag. cbn [nth].
  f_equal. rewrite IH. apply map_ext_in. intros j Hj.
  apply in_seq in Hj. replace (j - k)%nat with (S (j - S k)) by lia.
  reflexivity.
Qed.

Lemma stack_leaf_const (id : nat) (ts : list R) (s : state) :
  torch_stack (leaf1 id (length ts)) (const1 ts) s
  = (Ok (mkTensor Derived
           (Mat (map (fun j => [Var (Elem id 0 j); Const (nth j ts 0)])
                     (seq 0 (length ts))))), s).
Proof.
  unfold torch_stack. rewrite data_leaf1. cbn [const1 data].
  rewrite !length_map, length_seq, Nat.eqb_refl, pairs_leaf_const.
  cbn [requires_grad origin_of leaf1 leaf_like orb result_origin].
  unfold ret. do 4 f_equal. apply map_ext. intros j.
  now rewrite Nat.sub_0_r.
Qed.

Lemma feeds_boundary (id : nat) (ts : list R) :
  feeds (boundary_row id ts) 0 id.
Proof.
  split; [reflexivity |].
  intros i [|[|[|k']]] Hk; congruence || reflexivity.
Qed.

Lemma write_same (id : nat) (vals : list R) (rho : env) (j : nat) :
  (j < length vals)%nat ->
  write id (Vec vals) rho (Elem id 0 j) = nth j vals 0.
Proof.
  intros Hj. unfold write. rewrite Nat.eqb_refl. cbn [aget].
  destruct (nth_error vals j) as [r|] eqn:E.
  - symmetry. now apply nth_error_nth.
  - apply nth_error_None in E. lia.
Qed.

Lemma map_nth_seq {A : Type} (g : R -> A) (ts : list R) :
  map (fun j => g (nth j ts 0)) (seq 0 (length ts)) = map g ts.
Proof.
  assert (H : forall k, map (fun j => g (nth (j - k) ts 0)) (seq k (length ts))
                        = map g ts).
  { induction ts as [|t ts IH]; intros k; [reflexivity |].
    cbn [length seq map]. rewrite Nat.sub_diag. cbn [nth]. f_equal.
    rewrite <- (IH (S k)). apply map_ext_in. intros j Hj. apply in_seq in Hj.
    replace (j - k)%nat with (S (j - S k)) by lia. reflexivity. }
  rewrite <- (H 0%nat). apply map_ext. intros j. now rewrite Nat.sub_0_r.
Qed.

(** What `mse_b` computes for its Neumann term on a flat batch of boundary
    times that does not require grad: the predictions at the moving points
    form a column of shape [(n, 1)], their x-derivatives a flat batch, and
    the mean runs over all pairs of a prediction and a derivative. *)
Lemma mse_b_terms_value (body ux : expr) (ts : list R) (s : state) :
  ts <> [] ->
  mentions_leaf (S (next_id s)) body = false ->
  D (Arg 0) body = Some ux ->
  exists dirichlet neumann s',
    mse_b_terms (rowwise body) (const1 ts) s
    = (Ok (dirichlet, neumann), s')
    /\ sval (store s') neumann
       = all_pairs_mse
           (map (fun t => net_fun (store s') body (2 * PI * exp (- t)) t) ts)
           (map (fun t => net_fun (store s') ux (2 * PI * exp (- t)) t) ts).
Proof.
  intros Hne Hfresh Hux.
  set (n := length ts). set (id1 := next_id s). set (id2 := S (next_id s)).
  assert (Hn : (0 < n)%nat) by (unfold n; destruct ts; [congruence | cbn; lia]).
  unfold mse_b_terms.
  (* the Dirichlet input *)
  unfold bind at 1. unfold set_requires_grad at 1.
  cbn [zeros_like origin_of data const1 amap].
  rewrite leaf_like_vec, !length_map. fold n. fold id1.
  set (s1 := mkState (S id1) _ (grad_of s) (iter s) (stdout s) (rng s)).
  rewrite (bind_step _ _ _ _ _ (stack_leaf_const id1 ts s1)).
  rewrite (bind_step _ _ _ _ _
             (rowwise_pairs body Derived _ _ (seq 0 (length ts)) s1)).
  (* the Neumann input *)
  unfold bind at 1. unfold set_requires_grad at 1.
  cbn [torch_rmul torch_exp torch_neg pointwise requires_grad origin_of
       result_origin data const1 amap].
  rewrite leaf_like_vec, !length_map. fold n.
  change (next_id s1) with id2.
  set (s2 := mkState (S id2) _ (grad_of s1) (iter s1) (stdout s1) (rng s1)).
  rewrite (bind_step _ _ _ _ _ (stack_leaf_const id2 ts s2)).
  rewrite (bind_step _ _ _ _ _
             (rowwise_pairs body Derived _ _ (seq 0 (length ts)) s2)).
  cbn [requires_grad origin_of orb result_origin]. fold n.
  change (map (fun j => [inst (row_of [Var (Elem id2 0 j); Const (nth j ts 0)])
                              body]) (seq 0 n))
    with (map (fun j => [inst (boundary_row id2 ts j) body]) (seq 0 n)).
  rewrite <- (map_map (fun j => inst (boundary_row id2 ts j) body)
                      (fun b => [b])).
  (* one differentiation pass *)
  unfold bind at 1. unfold derivative. change (Z.to_nat 1) with 1%nat.
  cbn [for_range]. unfold bind at 1.
  rewrite (grad_rows (boundary_row id2 ts) 0 id2 n body ux Derived s2 true
             (feeds_boundary id2 ts) Hfresh Hux Hn) by discriminate.
  unfold ret at 1.
  (* the difference and the mean *)
  destruct (column_minus_flat Derived
              (map (fun j => inst (boundary_row id2 ts j) body) (seq 0 n))
              (map (fun j => inst (boundary_row id2 ts j) ux) (seq 0 n))
              (mkTensor
                 (result_origin
                    (existsb tracked
                       (map (fun j => inst (boundary_row id2 ts j) ux)
                            (seq 0 n))))
                 (Vec (map (fun j => inst (boundary_row id2 ts j) ux)
                           (seq 0 n))))
              s2 eq_refl) as (d & Hd & Hv).
  rewrite (bind_step _ _ _ _ _ Hd). unfold ret.
  eexists. eexists. eexists. split; [reflexivity |].
  rewrite Hv, !map_map.
  assert (Hx : forall j, (j < n)%nat ->
                         store s2 (Elem id2 0 j) = 2 * PI * exp (- nth j ts 0)).
  { intros j Hj. unfold s2. cbn [store].
    unfold tvalue, torch_rmul, torch_exp, torch_neg, pointwise, const1.
    cbn [data amap].
    rewrite write_same by (rewrite !length_map; exact Hj).
    rewrite !map_map. cbn [eval].
    rewrite (nth_indep _ 0 (2 * PI * exp (- 0)))
      by (rewrite length_map; exact Hj).
    now rewrite (map_nth (fun t => 2 * PI * exp (- t)) ts 0 j). }
  assert (Hval : forall e,
             map (fun j => eval (store s2) (inst (boundary_row id2 ts j) e))
                 (seq 0 n)
             = map (fun t => net_fun (store s2) e (2 * PI * exp (- t)) t) ts).
  { intros e. rewrite <- (map_nth_seq
                           (fun t => net_fun (store s2) e (2 * PI * exp (- t)) t)).
    fold n. apply map_ext_in. intros j Hj. apply in_seq in Hj.
    rewrite eval_inst. unfold net_fun. apply eval_ext.
    intros [[|[|k]]|a i l]; cbn; try reflexivity.
    apply Hx. lia. }
  now rewrite !Hval.
Qed.

(** C7, at a failing input.  The model [u(x, t) = 4 x] gives the initial
    values sin(2 pi x) at both sampled points 0 and 1/4, the batch is paired
    with zeros for [t], and yet `mse_0` returns 1/2: the mean over the four
    pairs of an output and a target, not over the two samples (whose mean
    squared difference is 0). *)
Theorem mse_0_not_zero_on_exact_model :
  let body := Mul (Const 4) (Var (Arg 0)) in
  let xs := [0; 1 / 4] in
  let us := [0; 1] in
  us = map (fun x => sin (2 * PI * x)) xs
  /\ (forall rho, map (fun x => net_fun rho body x 0) xs = us)
  /\ (forall rho, pointwise_mse (map (fun x => net_fun rho body x 0) xs) us = 0)
  /\ forall s, exists r,
        mse_0 (rowwise body) (const1 xs) (const1 us) s = (Ok r, s)
        /\ forall rho, sval rho r = 1 / 2.
Proof.
  cbn zeta. split; [| split; [| split]].
  - cbn [map]. replace (2 * PI * 0) with 0 by ring.
    replace (2 * PI * (1 / 4)) with (PI / 2) by field.
    now rewrite sin_0, sin_PI2.
  - intros rho. unfold net_fun. cbn.
    repeat (apply f_equal2; [lra |]); reflexivity.
  - intros rho. unfold pointwise_mse, net_fun. cbn. lra.
  - intros s.
    destruct (mse_0_value (Mul (Const 4) (Var (Arg 0))) [0; 1 / 4] [0; 1] s)
      as (r & Hr & Hv).
    exists r. split; [exact Hr |]. intros rho. rewrite Hv.
    unfold all_pairs_mse, net_fun. cbn. lra.
Qed.

(** C2, at a failing input.  For the model [u(x, t) = x t] and the boundary
    times {0, 1} the Neumann term of `mse_b` is the mean over the four pairs
    of a prediction and a derivative, which differs from the mean over the
    two boundary points of the squared difference of prediction and
    derivative at the same point. *)
Theorem neumann_term_mixes_samples :
  let body := Mul (Var (Arg 0)) (Var (Arg 1)) in
  let ts := [0; 1] in
  let xs := map (fun t => 2 * PI * exp (- t)) ts in
  exists dirichlet neumann s',
    mse_b_terms (rowwise body) (const1 ts) (demo_state 0)
    = (Ok (dirichlet, neumann), s')
    /\ (forall rho,
           map (fun p => net_fun rho body (fst p) (snd p)) (combine xs ts)
           = [0; 2 * PI * exp (- (1))]
           /\ map (fun p => oval (row_env rho (row_of [Const (fst p);
                                                       Const (snd p)]))
                                 (D (Arg 0) body)) (combine xs ts)
              = [0; 1])
    /\ sval (store s') neumann
       = all_pairs_mse [0; 2 * PI * exp (- (1))] [0; 1]
    /\ sval (store s') neumann
       <> pointwise_mse [0; 2 * PI * exp (- (1))] [0; 1].
Proof.
  cbn zeta. eexists. eexists. eexists. split; [| split].
  - lazy -[Rplus Rmult Rminus Ropp Rinv INR IZR PI exp tanh pow].
    reflexivity.
  - intros rho. unfold net_fun. cbn -[PI exp].
    split; repeat (apply f_equal2; [ring |]); reflexivity.
  - assert (H : 0 < 2 * PI * exp (- (1))).
    { pose proof PI_RGT_0. pose proof (exp_pos (- (1))). nra. }
    unfold sval, all_pairs_mse, pointwise_mse. cbn -[INR PI exp]. simpl INR.
    set (x1 := 2 * PI * exp (- (1))) in *. split; [field | lra].
Qed.

End Broadcasting.

(** ** The initializer *)

Section Initializer.

Import Graph Torch Notebook.
Local Open Scope R_scope.

Lemma init_all_app (ls ls' : list linear) (s : state) :
  init_all (ls ++ ls') s = init_all ls' (init_all ls s).
Proof. unfold init_all. apply fold_left_app. Qed.

Lemma init_weights_linear (l : linear) (s : state) :
  init_weights (Linear l) s = (Ok tt, init_linear l s).
Proof. reflexivity. Qed.

(** `apply` runs the initializer on the linear layers, in order, and on
    nothing else. *)
Lemma apply_init_weights (m : nn_module) :
  forall s, apply init_weights m s = (Ok tt, init_all (linears m) s).
Proof.
  induction m as [l| |ms IH|a b c d IHa IHb IHc IHd] using nn_module_induction;
    intros s.
  - reflexivity.
  - reflexivity.
  - cbn [apply linears].
    assert (H : forall s0,
               (fix each (cs : list nn_module) : M unit :=
                  match cs with
                  | [] => ret tt
                  | c :: cs' => bind (apply init_weights c) (fun _ => each cs')
                  end) ms s0
               = (Ok tt,
                  init_all ((fix each (cs : list nn_module) : list linear :=
                               match cs with
                               | [] => []
                               | c :: cs' => linears c ++ each cs'
                               end) ms) s0)).
    { induction IH as [|c cs Hc _ IHcs]; intros s0; [reflexivity |].
      rewrite (bind_step _ _ _ _ _ (Hc s0)), IHcs, init_all_app.
      reflexivity. }
    rewrite (bind_step _ _ _ _ _ (H s)). reflexivity.
  - cbn [apply linears].
    rewrite (bind_step _ _ _ _ _ (IHa s)).
    rewrite (bind_step _ _ _ _ _ (IHb _)).
    rewrite (bind_step _ _ _ _ _ (IHc _)).
    rewrite (bind_step _ _ _ _ _ (IHd _)).
    rewrite !init_all_app. reflexivity.
Qed.

Lemma init_linear_other (l : linear) (s : state) (a i j : nat) :
  a <> weight l -> a <> bias l ->
  store (init_linear l s) (Elem a i j) = store s (Elem a i j).
Proof.
  intros Hw Hb. unfold init_linear. cbn -[Nat.ltb Nat.eqb Rmult xavier_std].
  apply Nat.eqb_neq in Hw, Hb. now rewrite Hw, Hb.
Qed.

Lemma init_linear_bias (l : linear) (s : state) (j : nat) :
  (j < out_features l)%nat ->
  store (init_linear l s) (Elem (bias l) 0 j) = 0.01.
Proof.
  intros Hj. unfold init_linear. cbn -[Nat.ltb Nat.eqb Rmult xavier_std].
  apply Nat.ltb_lt in Hj. now rewrite Nat.eqb_refl, Hj.
Qed.

Lemma init_linear_weight (l : linear) (s : state) (i j : nat) :
  weight l <> bias l ->
  (i < out_features l)%nat -> (j < in_features l)%nat ->
  store (init_linear l s) (Elem (weight l) i j)
  = xavier_std (out_features l) (in_features l)
    * rng s (i * in_features l + j)%nat.
Proof.
  intros Hne Hi Hj. unfold init_linear. cbn -[Nat.ltb Nat.eqb Rmult xavier_std].
  apply Nat.eqb_neq in Hne. apply Nat.ltb_lt in Hi, Hj.
  now rewrite Hne, Nat.eqb_refl, Hi, Hj.
Qed.

Lemma init_linear_rng (l : linear) (s : state) (k : nat) :
  rng (init_linear l s) k = rng s (out_features l * in_features l + k)%nat.
Proof. reflexivity. Qed.

Lemma init_all_frame (ls : list linear) :
  forall s,
    iter (init_all ls s) = iter s /\ stdout (init_all ls s) = stdout s
    /\ next_id (init_all ls s) = next_id s
    /\ grad_of (init_all ls s) = grad_of s
    /\ forall k, store (init_all ls s) (Arg k) = store s (Arg k).
Proof.
  induction ls as [|l ls IH]; intros s; [now repeat split |].
  cbn [init_all fold_left]. destruct (IH (init_linear l s)) as (H1 & H2 & H3 & H4 & H5).
  unfold init_all in *. rewrite H1, H2, H3, H4. repeat split; try reflexivity.
  intros k. now rewrite H5.
Qed.

Lemma init_all_other (ls : list linear) (a i j : nat) :
  ~ In a (linear_ids ls) ->
  forall s, store (init_all ls s) (Elem a i j) = store s (Elem a i j).
Proof.
  induction ls as [|l ls IH]; intros Ha s; [reflexivity |].
  cbn [init_all fold_left]. cbn [linear_ids flat_map app] in Ha.
  unfold init_all in IH. rewrite IH.
  - apply init_linear_other; intros ->; apply Ha; cbn; tauto.
  - intros H. apply Ha. cbn. tauto.
Qed.

Lemma init_all_rng (ls : list linear) (k : nat) :
  forall s, rng (init_all ls s) k = rng s (draws ls + k)%nat.
Proof.
  induction ls as [|l ls IH]; intros s; [reflexivity |].
  cbn [init_all fold_left draws fold_right]. unfold init_all in IH.
  rewrite IH, init_linear_rng. f_equal. fold (draws ls). lia.
Qed.

Lemma init_all_bias (ls : list linear) (l : linear) (j : nat) :
  NoDup (linear_ids ls) -> In l ls -> (j < out_features l)%nat ->
  forall s, store (init_all ls s) (Elem (bias l) 0 j) = 0.01.
Proof.
  induction ls as [|l0 ls IH]; intros Hnd Hin Hj s; [destruct Hin |].
  cbn [linear_ids flat_map app] in Hnd.
  inversion Hnd as [|? ? Hw Hnd']; subst.
  inversion Hnd' as [|? ? Hb Hnd'']; subst.
  cbn [init_all fold_left]. destruct Hin as [->|Hin].
  - fold (init_all ls (init_linear l s)).
    rewrite init_all_other by exact Hb. now apply init_linear_bias.
  - apply (IH Hnd'' Hin Hj).
Qed.

Lemma init_all_weight (ls : list linear) (l : linear) :
  NoDup (linear_ids ls) -> In l ls ->
  exists k, forall s i j,
      (i < out_features l)%nat -> (j < in_features l)%nat ->
      store (init_all ls s) (Elem (weight l) i j)
      = xavier_std (out_features l) (in_features l)
        * rng s (k + (i * in_features l + j))%nat.
Proof.
  induction ls as [|l0 ls IH]; intros Hnd Hin; [destruct Hin |].
  cbn [linear_ids flat_map app] in Hnd.
  inversion Hnd as [|? ? Hw Hnd']; subst.
  inversion Hnd' as [|? ? Hb Hnd'']; subst.
  destruct Hin as [->|Hin].
  - exists 0%nat. intros s i j Hi Hj. cbn [init_all fold_left].
    fold (init_all ls (init_linear l s)).
    rewrite init_all_other.
    + apply init_linear_weight; [| exact Hi | exact Hj].
      intros E. apply Hw. rewrite E. now left.
    + intros H. apply Hw. now right.
  - destruct (IH Hnd'' Hin) as [k Hk].
    exists (out_features l0 * in_features l0 + k)%nat.
    intros s i j Hi Hj. cbn [init_all fold_left].
    fold (init_all ls (init_linear l0 s)).
    rewrite (Hk _ i j Hi Hj), init_linear_rng. do 2 f_equal. lia.
Qed.

(** C9.  Applied over a module tree whose parameters are distinct tensors,
    the initializer returns, leaves every bias entry of every linear layer at
    0.01, sets every weight entry of a linear layer to a draw of the
    generator scaled by the Xavier deviation of the layer, taking one draw
    per weight entry, and changes nothing else; on a module that is not a
    linear layer it does nothing. *)
Theorem init_weights_initializes_linear_layers (m : nn_module) (s : state) :
  NoDup (param_ids m) ->
  exists s',
    apply init_weights m s = (Ok tt, s')
    /\ (forall l j, In l (linears m) -> (j < out_features l)%nat ->
                    store s' (Elem (bias l) 0 j) = 0.01)
    /\ (forall l, In l (linears m) ->
                  exists k, forall i j,
                      (i < out_features l)%nat -> (j < in_features l)%nat ->
                      store s' (Elem (weight l) i j)
                      = sqrt (2 / INR (in_features l + out_features l))
                        * rng s (k + (i * in_features l + j))%nat)
    /\ (forall n, rng s' n = rng s (draws (linears m) + n)%nat)
    /\ (forall a i j, ~ In a (param_ids m) ->
                      store s' (Elem a i j) = store s (Elem a i j))
    /\ (forall k, store s' (Arg k) = store s (Arg k))
    /\ iter s' = iter s /\ stdout s' = stdout s /\ next_id s' = next_id s
    /\ grad_of s' = grad_of s
    /\ (forall m' s0, (forall l, m' <> Linear l) ->
                      init_weights m' s0 = (Ok tt, s0)).
Proof.
  intros Hnd. exists (init_all (linears m) s).
  destruct (init_all_frame (linears m) s) as (H1 & H2 & H3 & H4 & H5).
  split; [apply apply_init_weights |].
  split; [intros l j Hl Hj; now apply init_all_bias |].
  split.
  { intros l Hl. destruct (init_all_weight (linears m) l Hnd Hl) as [k Hk].
    exists k. intros i j Hi Hj. apply (Hk s i j Hi Hj). }
  split; [intros n; apply init_all_rng |].
  split; [intros a i j Ha; now apply init_all_other |].
  repeat split; auto.
  intros m' s0 Hm. destruct m'; try reflexivity. now destruct (Hm l).
Qed.

(** C9 at the model the notebook builds in a fresh process: fourteen
    parameter tensors, numbered in the order of construction. *)
Lemma init_weights_initializes_linear_layers_witness :
  let m := Wave (Linear (mkLinear 2 100 0 1)) (Linear (mkLinear 100 1 2 3))
                (ModuleList [Linear (mkLinear 100 100 4 5);
                             Linear (mkLinear 100 100 6 7);
                             Linear (mkLinear 100 100 8 9);
                             Linear (mkLinear 100 100 10 11);
                             Linear (mkLinear 100 100 12 13)])
                Tanh_ in
  let s1 := mkState 14 (fun _ => 0) (fun _ => None) 0 [] (fun _ => 0) in
  Wave_init (initial_state (fun _ => 0) (fun _ => 0)) = (Ok m, s1)
  /\ exists s2,
      apply init_weights m s1 = (Ok tt, s2)
      /\ forall l j, In l (linears m) -> (j < out_features l)%nat ->
                     store s2 (Elem (bias l) 0 j) = 0.01.
Proof.
  intros m s1. split; [reflexivity |].
  assert (Hnd : NoDup (param_ids m)).
  { unfold param_ids, linear_ids. cbn [m linears map app flat_map weight bias].
    repeat (constructor; [cbn [In]; lia |]). constructor. }
  destruct (init_weights_initializes_linear_layers m s1 Hnd)
    as (s2 & H1 & H2 & _).
  exists s2. split; [exact H1 | exact H2].
Defined.

End Initializer.

(** ** The approximator is a row-wise model *)

Section Approximator.

Import Graph Torch Notebook.
Local Open Scope R_scope.

Lemma length_linear_row (l : linear) (r : list expr) :
  length (linear_row l r) = out_features l.
Proof. unfold linear_row. now rewrite length_map, length_seq. Qed.

Lemma inst_esum (row : nat -> expr) (l : list expr) :
  inst row (esum l) = esum (map (inst row) l).
Proof.
  induction l as [|a [|b l] IH]; try reflexivity.
  change (esum (a :: b :: l)) with (Add a (esum (b :: l))).
  cbn [inst]. rewrite IH. reflexivity.
Qed.

Lemma linear_row_inst (row : nat -> expr) (l : linear) (r : list expr) :
  linear_row l (map (inst row) r) = map (inst row) (linear_row l r).
Proof.
  unfold linear_row. rewrite map_map. apply map_ext. intros j.
  cbn [inst]. rewrite inst_esum. do 2 f_equal.
  unfold mapi. generalize 0%nat. induction r as [|a r IH]; intros k;
    [reflexivity |].
  cbn [map mapi_from inst]. now rewrite IH.
Qed.

Lemma hidden_row_inst (row : nat -> expr) (ls : list linear) :
  forall r, hidden_row ls (map (inst row) r) = map (inst row) (hidden_row ls r).
Proof.
  induction ls as [|l ls IH]; intros r; [reflexivity |].
  cbn [hidden_row]. rewrite linear_row_inst, <- IH. f_equal.
  rewrite !map_map. reflexivity.
Qed.

Lemma wave_row_inst (row : nat -> expr) (lin lout : linear)
      (ls : list linear) (r : list expr) :
  wave_row lin lout ls (map (inst row) r)
  = map (inst row) (wave_row lin lout ls r).
Proof.
  unfold wave_row. now rewrite linear_row_inst, hidden_row_inst, linear_row_inst.
Qed.

Lemma length_hidden_row (ls : list linear) :
  forall d d' r, chain d ls d' -> length r = d ->
                 length (hidden_row ls r) = d'.
Proof.
  induction ls as [|l ls IH]; intros d d' r; cbn [chain hidden_row].
  - congruence.
  - intros [_ Hc] _. apply (IH _ _ _ Hc).
    now rewrite length_map, length_linear_row.
Qed.

Lemma rows_ok_map (g : list expr -> list expr) (n n' : nat) (d : arr expr) :
  (forall r, length r = n -> length (g r) = n') ->
  rows_ok n d = true -> rows_ok n' (rows_map g d) = true.
Proof.
  intros Hg. destruct d as [a|r|rows]; cbn [rows_ok rows_map].
  - discriminate.
  - intros H. apply Nat.eqb_eq in H. apply Nat.eqb_eq. auto.
  - intros H. rewrite forallb_forall in H. apply forallb_forall.
    intros r' Hr'. apply in_map_iff in Hr'. destruct Hr' as (r & <- & Hr).
    apply Nat.eqb_eq. apply Hg. apply Nat.eqb_eq. auto.
Qed.

Lemma rows_map_ext (g h : list expr -> list expr) (n : nat) (d : arr expr) :
  (forall r, length r = n -> g r = h r) ->
  rows_ok n d = true -> rows_map g d = rows_map h d.
Proof.
  intros Hg. destruct d as [a|r|rows]; cbn [rows_ok rows_map].
  - discriminate.
  - intros H. apply Nat.eqb_eq in H. f_equal. auto.
  - intros H. rewrite forallb_forall in H. f_equal. apply map_ext_in.
    intros r Hr. apply Hg. apply Nat.eqb_eq. auto.
Qed.

Lemma rows_map_map (g h : list expr -> list expr) (d : arr expr) :
  rows_map g (rows_map h d) = rows_map (fun r => g (h r)) d.
Proof.
  destruct d as [a|r|rows]; cbn [rows_map]; try reflexivity.
  now rewrite map_map.
Qed.

Lemma linear_forward_rows (l : linear) (x : tensor) (s : state) :
  linear_forward l x s
  = if rows_ok (in_features l) (data x)
    then (Ok (mkTensor Derived (rows_map (linear_row l) (data x))), s)
    else (Raise ShapeMismatch, s).
Proof.
  unfold linear_forward. destruct (data x) as [a|r|rows];
    cbn [rows_ok rows_map]; try reflexivity.
  - now destruct (Nat.eqb _ _).
  - now destruct (forallb _ _).
Qed.

Lemma rowwise_forward_rows (body : expr) (x : tensor) (s : state) :
  rowwise_forward body x s
  = if rows_ok 2 (data x)
    then (Ok (mkTensor (result_origin (requires_grad x || tracked body))
                       (rows_map (fun r => [inst (row_of r) body]) (data x))),
          s)
    else (Raise ShapeMismatch, s).
Proof.
  unfold rowwise_forward. destruct (data x) as [a|r|rows];
    cbn [rows_ok rows_map]; try reflexivity.
  - now destruct (Nat.eqb _ _).
  - now destruct (forallb _ _).
Qed.

(** The loop over the hidden layers. *)
Lemma hidden_layers_run (ls : list linear) :
  forall d d' (x : arr expr) (s : state),
    chain d ls d' -> rows_ok d x = true ->
    (fix each (cs : list nn_module) (x : tensor) : M tensor :=
       match cs with
       | [] => ret x
       | layer :: cs' =>
           bind (call layer x)
                (fun y => bind (call Tanh_ y) (fun x' => each cs' x'))
       end) (map Linear ls) (mkTensor Derived x) s
    = (Ok (mkTensor Derived (rows_map (hidden_row ls) x)), s).
Proof.
  induction ls as [|l ls IH]; intros d d' x s Hc Hx; cbn [map chain] in *.
  - destruct x as [a|r|rows]; cbn [rows_map hidden_row]; try reflexivity.
    now rewrite map_id.
  - destruct Hc as [Hin Hc]. unfold bind at 1. cbn [call].
    rewrite linear_forward_rows. cbn [data]. rewrite Hin, Hx.
    unfold bind at 1, ret at 1. cbn [pointwise requires_grad origin_of
                                      result_origin data].
    assert (E : amap Tanh (rows_map (linear_row l) x)
                = rows_map (fun r => map Tanh (linear_row l r)) x).
    { destruct x as [a|r|rows]; cbn [rows_ok] in Hx; [discriminate | |];
        cbn [rows_map amap]; [reflexivity | now rewrite map_map]. }
    assert (Hok : rows_ok (out_features l)
                    (rows_map (fun r => map Tanh (linear_row l r)) x) = true).
    { apply (rows_ok_map _ d); [| exact Hx].
      intros r _. now rewrite length_map, length_linear_row. }
    pose proof (IH (out_features l) d' _ s Hc Hok) as IH'.
    rewrite rows_map_map in IH'.
    unfold pointwise. cbn [requires_grad origin_of result_origin data].
    rewrite E. exact IH'.
Qed.

Lemma tracked_linear_row_hd (l : linear) (r : list expr) :
  out_features l = 1%nat ->
  exists e, linear_row l r = [e] /\ tracked e = true.
Proof.
  intros H. unfold linear_row. rewrite H. cbn [seq map].
  eexists. split; [reflexivity |]. cbn [tracked]. apply orb_true_r.
Qed.

(** A `Wave` whose layers fit (two input features, one output feature) is a
    row-wise model: its forward pass is the instantiation of one body, the
    graph of the output in terms of the two features of a row. *)
Lemma wave_is_rowwise_body (lin lout : linear) (ls : list linear)
      (body : expr) :
  in_features lin = 2%nat ->
  chain (out_features lin) ls (in_features lout) ->
  out_features lout = 1%nat ->
  linear_row lout (hidden_row ls (linear_row lin [Var (Arg 0); Var (Arg 1)]))
  = [body] ->
  tracked body = true ->
  forall inp s,
    forward (as_model (Wave (Linear lin) (Linear lout)
                            (ModuleList (map Linear ls)) Tanh_)) inp s
    = forward (rowwise body) inp s.
Proof.
  intros Hin Hc Hout Hbody Htr inp s.
  cbn [forward as_model rowwise]. rewrite rowwise_forward_rows.
  assert (Hrow : forall r, length r = 2%nat ->
                           wave_row lin lout ls r = [inst (row_of r) body]).
  { intros [|a [|b [|c r]]] Hr; try discriminate.
    change [a; b] with (map (inst (row_of [a; b])) [Var (Arg 0); Var (Arg 1)])
      at 1.
    rewrite wave_row_inst. unfold wave_row. now rewrite Hbody. }
  change (call (Wave (Linear lin) (Linear lout) (ModuleList (map Linear ls))
                     Tanh_) inp s)
    with (bind (linear_forward lin inp)
               (fun x =>
                  bind ((fix each (cs : list nn_module) (x : tensor)
                          : M tensor :=
                           match cs with
                           | [] => ret x
                           | layer :: cs' =>
                               bind (call layer x)
                                    (fun y => bind (call Tanh_ y)
                                                   (fun x' => each cs' x'))
                           end) (map Linear ls) x)
                       (fun x => linear_forward lout x)) s).
  unfold bind at 1. rewrite linear_forward_rows, Hin.
  destruct (rows_ok 2 (data inp)) eqn:Hok; [| reflexivity].
  assert (Hok1 : rows_ok (out_features lin)
                   (rows_map (linear_row lin) (data inp)) = true).
  { apply (rows_ok_map _ 2); [| exact Hok].
    intros r _. apply length_linear_row. }
  unfold bind at 1.
  rewrite (hidden_layers_run ls _ _ _ s Hc Hok1).
  rewrite linear_forward_rows. cbn [data].
  rewrite (rows_ok_map (hidden_row ls) (out_features lin) (in_features lout)).
  - rewrite Htr, orb_true_r. cbn [result_origin]. rewrite !rows_map_map.
    do 3 f_equal. apply (rows_map_ext _ _ 2); [| exact Hok].
    intros r Hr. apply (Hrow r Hr).
  - intros r Hr. apply (length_hidden_row ls _ _ r Hc Hr).
  - exact Hok1.
Qed.

Lemma wave_is_rowwise (lin lout : linear) (ls : list linear) :
  in_features lin = 2%nat ->
  chain (out_features lin) ls (in_features lout) ->
  out_features lout = 1%nat ->
  exists body,
    same_forward (as_model (Wave (Linear lin) (Linear lout)
                                 (ModuleList (map Linear ls)) Tanh_))
                 (rowwise body).
Proof.
  intros Hin Hc Hout.
  destruct (tracked_linear_row_hd lout
              (hidden_row ls (linear_row lin [Var (Arg 0); Var (Arg 1)])) Hout)
    as (body & Hbody & Htr).
  exists body. intros inp s. now apply wave_is_rowwise_body.
Qed.

(** The model the notebook builds has distinct parameter tensors and layers
    that fit. *)
Lemma Wave_init_result (s : state) :
  exists lin lout ls s',
    Wave_init s
    = (Ok (Wave (Linear lin) (Linear lout) (ModuleList (map Linear ls)) Tanh_),
       s')
    /\ in_features lin = 2%nat
    /\ chain (out_features lin) ls (in_features lout)
    /\ out_features lout = 1%nat
    /\ length ls = 5%nat
    /\ (0 < out_features lin)%nat
    /\ Forall (fun l => (0 < out_features l)%nat) ls
    /\ NoDup (param_ids (Wave (Linear lin) (Linear lout)
                              (ModuleList (map Linear ls)) Tanh_))
    /\ (forall id, In id (param_ids (Wave (Linear lin) (Linear lout)
                                          (ModuleList (map Linear ls)) Tanh_))
                   -> (next_id s <= id < next_id s')%nat)
    /\ store s' = store s /\ iter s' = iter s.
Proof.
  set (n := next_id s).
  exists (mkLinear 2 100 n (S n)), (mkLinear 100 1 (2 + n) (3 + n)),
         [mkLinear 100 100 (4 + n) (5 + n); mkLinear 100 100 (6 + n) (7 + n);
          mkLinear 100 100 (8 + n) (9 + n); mkLinear 100 100 (10 + n) (11 + n);
          mkLinear 100 100 (12 + n) (13 + n)],
         (mkState (14 + n) (store s) (grad_of s) (iter s) (stdout s) (rng s)).
  split; [reflexivity |].
  split; [reflexivity |]. split; [cbn; auto 10 |].
  split; [reflexivity |]. split; [reflexivity |].
  split; [cbn; lia |]. split; [repeat constructor; cbn; lia |].
  split; [| split; [| split; reflexivity]].
  - unfold param_ids, linear_ids. cbn [linears map app flat_map weight bias].
    repeat (constructor; [cbn [In]; lia |]). constructor.
  - intros id. unfold param_ids, linear_ids.
    cbn [linears map app flat_map weight bias In next_id]. fold n. lia.
Qed.

(** The notebook functions depend on a model only through its forward
    pass. *)
Lemma bind_same {A B : Type} (m : M A) (k k' : A -> M B) (s : state) :
  (forall a s1, k a s1 = k' a s1) -> bind m k s = bind m k' s.
Proof.
  intros H. unfold bind. destruct (m s) as [[a|e] s1]; [apply H | reflexivity].
Qed.

Lemma bind_same_both {A B : Type} (m m' : M A) (k k' : A -> M B) (s : state) :
  m s = m' s -> (forall a s1, k a s1 = k' a s1) -> bind m k s = bind m' k' s.
Proof.
  intros Hm H. unfold bind. rewrite Hm.
  destruct (m' s) as [[a|e] s1]; [apply H | reflexivity].
Qed.

Lemma same_forward_f (m1 m2 : model) (x_f t_f : tensor) (s : state) :
  same_forward m1 m2 -> f m1 x_f t_f s = f m2 x_f t_f s.
Proof.
  intros H. unfold f. apply bind_same. intros inp s1.
  apply bind_same_both; [apply H | reflexivity].
Qed.

Lemma same_forward_mse_f (m1 m2 : model) (x_f t_f : tensor) (s : state) :
  same_forward m1 m2 -> mse_f m1 x_f t_f s = mse_f m2 x_f t_f s.
Proof.
  intros H. unfold mse_f.
  apply bind_same_both; [now apply same_forward_f | reflexivity].
Qed.

Lemma same_forward_mse_0 (m1 m2 : model) (x_0 u_0 : tensor) (s : state) :
  same_forward m1 m2 -> mse_0 m1 x_0 u_0 s = mse_0 m2 x_0 u_0 s.
Proof.
  intros H. unfold mse_0. apply bind_same. intros inp s1.
  apply bind_same_both; [apply H | reflexivity].
Qed.

Lemma same_forward_mse_b_terms (m1 m2 : model) (t_b : tensor) (s : state) :
  same_forward m1 m2 -> mse_b_terms m1 t_b s = mse_b_terms m2 t_b s.
Proof.
  intros H. unfold mse_b_terms.
  apply bind_same. intros x_b_upper s1.
  apply bind_same. intros inp s2.
  apply bind_same_both; [apply H |]. intros u_b_upper s3.
  apply bind_same. intros x_b_lower s4.
  apply bind_same. intros inp' s5.
  apply bind_same_both; [apply H | reflexivity].
Qed.

Lemma same_forward_mse_b (m1 m2 : model) (t_b : tensor) (s : state) :
  same_forward m1 m2 -> mse_b m1 t_b s = mse_b m2 t_b s.
Proof.
  intros H. unfold mse_b.
  apply bind_same_both; [now apply same_forward_mse_b_terms | reflexivity].
Qed.

Lemma same_forward_closure (m1 m2 : model) (opt : optimizer)
      (x_f t_f x_0 u_0 t : tensor) (s : state) :
  same_forward m1 m2 ->
  closure m1 opt x_f t_f x_0 u_0 t s = closure m2 opt x_f t_f x_0 u_0 t s.
Proof.
  intros H. unfold closure.
  apply bind_same. intros [] s1.
  apply bind_same_both; [now apply same_forward_mse_f |]. intros l_f s2.
  apply bind_same_both; [now apply same_forward_mse_0 |]. intros l_0 s3.
  apply bind_same. intros l_f0 s4.
  apply bind_same_both; [now apply same_forward_mse_b | reflexivity].
Qed.

(** *** The graph of a `Wave` output uses both features, and its gradient
    in a feature still uses the feature *)

Lemma bent_mentions (v : var) (e : expr) :
  bent v e = true -> mentions v e = true.
Proof.
  unfold bent. intros H. apply D_some_iff.
  destruct (D v e); [eauto | discriminate].
Qed.

Lemma bent_tanh (v : var) (a : expr) :
  mentions v a = true -> bent v (Tanh a) = true.
Proof.
  intros H. unfold bent. cbn [D]. destruct (D v a) as [g|] eqn:E.
  - cbn [option_map mentions]. rewrite H. cbn [orb]. apply orb_true_r.
  - apply D_none_iff in E. congruence.
Qed.

Lemma bent_mul_l (v : var) (a b : expr) :
  bent v a = true -> bent v (Mul a b) = true.
Proof.
  unfold bent. cbn [D]. destruct (D v a) as [g|]; [| discriminate].
  intros H. destruct (D v b) as [g'|]; cbn [option_map oadd mentions];
    rewrite H; reflexivity.
Qed.

Lemma bent_add_l (v : var) (a b : expr) :
  bent v a = true -> bent v (Add a b) = true.
Proof.
  unfold bent. cbn [D]. destruct (D v a) as [g|]; [| discriminate].
  intros H. destruct (D v b) as [g'|]; cbn [oadd mentions];
    rewrite H; reflexivity.
Qed.

Lemma bent_add_r (v : var) (a b : expr) :
  bent v b = true -> bent v (Add a b) = true.
Proof.
  unfold bent. cbn [D]. destruct (D v b) as [g|]; [| discriminate].
  intros H. destruct (D v a) as [g'|]; cbn [oadd mentions];
    rewrite H; [apply orb_true_r | reflexivity].
Qed.

Lemma bent_esum (v : var) (l : list expr) (e : expr) :
  In e l -> bent v e = true -> bent v (esum l) = true.
Proof.
  intros Hin He. induction l as [|a l IH]; [destruct Hin |].
  destruct l as [|b l].
  - destruct Hin as [->|[]]. exact He.
  - change (esum (a :: b :: l)) with (Add a (esum (b :: l))).
    destruct Hin as [->|Hin]; [now apply bent_add_l |].
    apply bent_add_r. now apply IH.
Qed.

Lemma mentions_esum (v : var) (l : list expr) (e : expr) :
  In e l -> mentions v e = true -> mentions v (esum l) = true.
Proof.
  intros Hin He. induction l as [|a l IH]; [destruct Hin |].
  destruct l as [|b l].
  - destruct Hin as [->|[]]. exact He.
  - change (esum (a :: b :: l)) with (Add a (esum (b :: l))).
    cbn [mentions]. apply orb_true_iff.
    destruct Hin as [->|Hin]; [now left | right; now apply IH].
Qed.

Lemma mentions_leaf_esum (id : nat) (l : list expr) :
  Forall (fun e => mentions_leaf id e = false) l ->
  mentions_leaf id (esum l) = false.
Proof.
  induction 1 as [|a l Ha Hl IH]; [reflexivity |].
  destruct l as [|b l]; [exact Ha |].
  change (esum (a :: b :: l)) with (Add a (esum (b :: l))).
  cbn [mentions_leaf]. now rewrite Ha, IH.
Qed.

Lemma in_mapi_from {A B : Type} (g : nat -> A -> B) (l : list A) (a : A) :
  In a l -> forall k, exists k', In (g k' a) (mapi_from g k l).
Proof.
  induction l as [|b l IH]; intros Hin k; [destruct Hin |].
  destruct Hin as [->|Hin].
  - exists k. now left.
  - destruct (IH Hin (S k)) as [k' Hk']. exists k'. now right.
Qed.

Lemma forall_mapi_from {A B : Type} (P : B -> Prop) (g : nat -> A -> B)
      (l : list A) :
  (forall k a, In a l -> P (g k a)) ->
  forall k, Forall P (mapi_from g k l).
Proof.
  induction l as [|b l IH]; intros H k; cbn [mapi_from]; constructor.
  - apply H. now left.
  - apply IH. intros k' a Ha. apply H. now right.
Qed.

(** Every output of a linear layer uses what some input uses, and bends
    where some input bends. *)
Lemma linear_row_spread (P : expr -> bool) (l : linear) (r : list expr) :
  (forall a b, P a = true -> P (Mul a b) = true) ->
  (forall a b, P a = true -> P (Add a b) = true) ->
  (forall ls e, In e ls -> P e = true -> P (esum ls) = true) ->
  (exists e, In e r /\ P e = true) ->
  Forall (fun e' => P e' = true) (linear_row l r).
Proof.
  intros Hmul Hadd Hsum (e & Hin & He). unfold linear_row.
  apply Forall_forall. intros e' He'. apply in_map_iff in He'.
  destruct He' as (j & <- & _). apply Hadd.
  destruct (in_mapi_from (fun k a => Mul a (Var (Elem (weight l) j k)))
                         r e Hin 0) as [k' Hk'].
  apply (Hsum _ _ Hk'). now apply Hmul.
Qed.

Lemma linear_row_mentions (v : var) (l : linear) (r : list expr) :
  (exists e, In e r /\ mentions v e = true) ->
  Forall (fun e' => mentions v e' = true) (linear_row l r).
Proof.
  apply linear_row_spread.
  - intros a b H. cbn [mentions]. now rewrite H.
  - intros a b H. cbn [mentions]. now rewrite H.
  - intros ls e. apply mentions_esum.
Qed.

Lemma linear_row_bent (v : var) (l : linear) (r : list expr) :
  (exists e, In e r /\ bent v e = true) ->
  Forall (fun e' => bent v e' = true) (linear_row l r).
Proof.
  apply linear_row_spread.
  - intros a b. apply bent_mul_l.
  - intros a b. apply bent_add_l.
  - intros ls e. apply bent_esum.
Qed.

Lemma linear_row_fresh (id : nat) (l : linear) (r : list expr) :
  id <> weight l -> id <> bias l ->
  Forall (fun e => mentions_leaf id e = false) r ->
  Forall (fun e' => mentions_leaf id e' = false) (linear_row l r).
Proof.
  intros Hw Hb Hr. unfold linear_row. apply Forall_forall.
  intros e' He'. apply in_map_iff in He'. destruct He' as (j & <- & _).
  cbn [mentions_leaf]. apply orb_false_iff. split.
  - apply mentions_leaf_esum. unfold mapi. apply forall_mapi_from.
    intros k a Ha. cbn [mentions_leaf]. apply orb_false_iff. split.
    + rewrite Forall_forall in Hr. now apply Hr.
    + apply Nat.eqb_neq. congruence.
  - apply Nat.eqb_neq. congruence.
Qed.

Lemma linear_row_nonempty (l : linear) (r : list expr) :
  (0 < out_features l)%nat -> exists e, In e (linear_row l r).
Proof.
  intros H. pose proof (length_linear_row l r) as E.
  destruct (linear_row l r) as [|e r']; [cbn in E; lia |].
  exists e. now left.
Qed.

Lemma hidden_row_uses (v : var) (ls : list linear) :
  Forall (fun l => (0 < out_features l)%nat) ls ->
  forall r,
    r <> [] -> Forall (fun e => mentions v e = true) r ->
    hidden_row ls r <> []
    /\ Forall (fun e => mentions v e = true) (hidden_row ls r)
    /\ (ls <> [] -> Forall (fun e => bent v e = true) (hidden_row ls r)).
Proof.
  induction 1 as [|l ls Hl Hls IH]; intros r Hne Hr; cbn [hidden_row].
  - repeat split; auto. congruence.
  - destruct r as [|e0 r0]; [congruence |].
    assert (Hm : Forall (fun e => mentions v e = true) (linear_row l (e0 :: r0))).
    { apply linear_row_mentions. exists e0. split; [now left |].
      now inversion Hr. }
    destruct (linear_row_nonempty l (e0 :: r0) Hl) as [e1 He1].
    set (r1 := map Tanh (linear_row l (e0 :: r0))) in *.
    assert (Hne1 : r1 <> []).
    { unfold r1. destruct (linear_row l (e0 :: r0)); [destruct He1 |].
      discriminate. }
    assert (Hm1 : Forall (fun e => mentions v e = true) r1).
    { unfold r1. apply Forall_forall. intros e He. apply in_map_iff in He.
      destruct He as (a & <- & Ha). rewrite Forall_forall in Hm.
      cbn [mentions]. now apply Hm. }
    assert (Hb1 : Forall (fun e => bent v e = true) r1).
    { unfold r1. apply Forall_forall. intros e He. apply in_map_iff in He.
      destruct He as (a & <- & Ha). rewrite Forall_forall in Hm.
      apply bent_tanh. now apply Hm. }
    destruct (IH r1 Hne1 Hm1) as (H1 & H2 & H3).
    repeat split; auto. intros _.
    destruct ls as [|l' ls']; [exact Hb1 | apply H3; discriminate].
Qed.

Lemma hidden_row_fresh (id : nat) (ls : list linear) :
  Forall (fun l => id <> weight l /\ id <> bias l) ls ->
  forall r,
    Forall (fun e => mentions_leaf id e = false) r ->
    Forall (fun e => mentions_leaf id e = false) (hidden_row ls r).
Proof.
  induction 1 as [|l ls [Hw Hb] Hls IH]; intros r Hr; cbn [hidden_row];
    [exact Hr |].
  apply IH. apply Forall_forall. intros e He. apply in_map_iff in He.
  destruct He as (a & <- & Ha). cbn [mentions_leaf].
  pose proof (linear_row_fresh id l r Hw Hb Hr) as H.
  rewrite Forall_forall in H. now apply H.
Qed.

Lemma not_in_linear_ids (id : nat) (ls : list linear) :
  ~ In id (linear_ids ls) ->
  Forall (fun l => id <> weight l /\ id <> bias l) ls.
Proof.
  induction ls as [|l ls IH]; intros H; constructor.
  - split; intros ->; apply H; cbn; tauto.
  - apply IH. intros Hin. apply H. cbn. tauto.
Qed.

Lemma linears_map_Linear (ls : list linear) :
  (fix each (cs : list nn_module) : list linear :=
     match cs with
     | [] => []
     | c :: cs' => linears c ++ each cs'
     end) (map Linear ls) = ls.
Proof. induction ls as [|l ls IH]; [reflexivity |]. cbn. now rewrite IH. Qed.

(** The body of a `Wave` with at least one hidden layer and positive widths:
    it uses both features, its gradients in a feature still use the feature,
    and its only leaves are the parameters. *)
Lemma wave_body (lin lout : linear) (ls : list linear) :
  in_features lin = 2%nat ->
  chain (out_features lin) ls (in_features lout) ->
  out_features lout = 1%nat ->
  (0 < out_features lin)%nat ->
  Forall (fun l => (0 < out_features l)%nat) ls ->
  ls <> [] ->
  let w := Wave (Linear lin) (Linear lout) (ModuleList (map Linear ls)) Tanh_ in
  exists body,
    same_forward (as_model w) (rowwise body)
    /\ mentions (Arg 0) body = true /\ mentions (Arg 1) body = true
    /\ curved 0 body = true /\ curved 1 body = true
    /\ forall id, ~ In id (param_ids w) -> mentions_leaf id body = false.
Proof.
  intros Hin Hc Hout Hpos Hls Hne w.
  set (r0 := linear_row lin [Var (Arg 0); Var (Arg 1)]).
  set (h := hidden_row ls r0).
  destruct (tracked_linear_row_hd lout h Hout) as (body & Hbody & Htr).
  assert (Hb : In body (linear_row lout h)) by (rewrite Hbody; now left).
  assert (Huse : forall k, (k < 2)%nat ->
                           mentions (Arg k) body = true
                           /\ bent (Arg k) body = true).
  { intros k Hk.
    assert (H0 : Forall (fun e => mentions (Arg k) e = true) r0).
    { apply linear_row_mentions. exists (Var (Arg k)).
      destruct k as [|[|k]]; [| | lia]; cbn; auto. }
    assert (Hr0 : r0 <> []).
    { destruct (linear_row_nonempty lin [Var (Arg 0); Var (Arg 1)] Hpos)
        as [e He]. fold r0 in He. destruct r0; [destruct He | discriminate]. }
    destruct (hidden_row_uses (Arg k) ls Hls r0 Hr0 H0) as (H1 & H2 & H3).
    fold h in H1, H2, H3. specialize (H3 Hne).
    destruct h as [|e h']; [congruence |].
    pose proof (linear_row_mentions (Arg k) lout (e :: h')) as Hm.
    pose proof (linear_row_bent (Arg k) lout (e :: h')) as Hbt.
    rewrite Forall_forall in Hm, Hbt. split.
    - apply Hm; [| exact Hb]. exists e. split; [now left | now inversion H2].
    - apply Hbt; [| exact Hb]. exists e. split; [now left | now inversion H3]. }
  exists body. split; [| split; [| split; [| split; [| split]]]];
    try (apply Huse; lia).
  - intros inp s.
    apply (wave_is_rowwise_body lin lout ls body Hin Hc Hout Hbody Htr).
  - intros id Hid. unfold param_ids in Hid. cbn [w linears] in Hid.
    rewrite linears_map_Linear in Hid. cbn [app] in Hid.
    rewrite app_nil_r in Hid. unfold linear_ids in Hid.
    cbn [flat_map app] in Hid. fold (linear_ids ls) in Hid.
    assert (Hlin : id <> weight lin /\ id <> bias lin).
    { split; intros ->; apply Hid; cbn; tauto. }
    assert (Hlout : id <> weight lout /\ id <> bias lout).
    { split; intros ->; apply Hid; cbn; tauto. }
    assert (Hmid : ~ In id (linear_ids ls)).
    { intros H. apply Hid. cbn. tauto. }
    assert (F0 : Forall (fun e => mentions_leaf id e = false) r0).
    { apply linear_row_fresh; try tauto. repeat constructor. }
    pose proof (hidden_row_fresh id ls (not_in_linear_ids id ls Hmid) r0 F0)
      as Fh.
    fold h in Fh.
    pose proof (linear_row_fresh id lout h (proj1 Hlout) (proj2 Hlout) Fh) as Fb.
    rewrite Forall_forall in Fb. now apply Fb.
Qed.

Lemma predicts_same_forward (m1 m2 : model) (rho : env) (u : R -> R -> R) :
  same_forward m1 m2 -> predicts m2 rho u -> predicts m1 rho u.
Proof.
  intros H P x t s. destruct (P x t s) as (r & Hr & Hv).
  exists r. now rewrite H.
Qed.

(** `f` on a `Wave` whose layers fit, with at least one hidden layer and
    positive widths. *)
Lemma f_residual_wave (lin lout : linear) (ls : list linear) (ix it n : nat)
      (s : state) :
  let w := Wave (Linear lin) (Linear lout) (ModuleList (map Linear ls)) Tanh_ in
  in_features lin = 2%nat ->
  chain (out_features lin) ls (in_features lout) ->
  out_features lout = 1%nat ->
  (0 < out_features lin)%nat ->
  Forall (fun l => (0 < out_features l)%nat) ls ->
  ls <> [] ->
  ix <> it -> (0 < n)%nat ->
  ~ In ix (param_ids w) -> ~ In it (param_ids w) ->
  returns_residual (as_model w) ix it n s.
Proof.
  intros w Hin Hc Hout Hpos Hls Hne Hxt Hn Hix Hit.
  destruct (wave_body lin lout ls Hin Hc Hout Hpos Hls Hne)
    as (body & Hsame & _ & Ht & Hcx & _ & Hfresh).
  fold w in Hsame, Hfresh.
  destruct (f_residual_rowwise body ix it n s Hxt Hn (Hfresh ix Hix)
              (Hfresh it Hit) Ht Hcx)
    as (u & u_t & u_x & u_xx & Hp & H1 & H2 & H3 & r & Hf & Hv).
  exists u, u_t, u_x, u_xx.
  split; [now apply (predicts_same_forward _ _ _ _ Hsame) |].
  repeat (split; [assumption |]).
  exists r. split; [| exact Hv].
  now rewrite (same_forward_f _ _ _ _ s Hsame).
Qed.

(** The model the notebook builds: `f` returns the pointwise residual on
    every pair of distinct flat leaf batches created after it. *)
Lemma f_residual_notebook_model (s0 s1 s : state) (w : nn_module)
      (ix it n : nat) :
  Wave_init s0 = (Ok w, s1) ->
  (next_id s1 <= ix)%nat -> (next_id s1 <= it)%nat ->
  ix <> it -> (0 < n)%nat ->
  returns_residual (as_model w) ix it n s.
Proof.
  intros Hw Hix Hit Hne Hn.
  destruct (Wave_init_result s0)
    as (lin & lout & ls & s' & E & Hin & Hc & Hout & Hlen & Hpos & Hls & _
        & Hids & _).
  rewrite E in Hw. injection Hw as <- <-.
  apply f_residual_wave; auto.
  - intros ->. discriminate Hlen.
  - intros H. apply Hids in H. lia.
  - intros H. apply Hids in H. lia.
Qed.




End Approximator.

(** ** More on the derivative operator *)

Section AutogradFacts.

Import Graph Torch Notebook.
Local Open Scope R_scope.

(** The value of the gradient of a sum of outputs is the sum of the values
    of the gradients that flow. *)
Lemma eval_vjp (rho : env) (v : var) (outs : list expr) :
  eval rho (vjp v outs)
  = fold_right Rplus 0 (map (fun e => oval rho (D v e)) outs).
Proof.
  unfold vjp. rewrite eval_esum.
  induction outs as [|e outs IH]; [reflexivity |].
  cbn [flat_map map fold_right]. rewrite map_app, fold_right_app.
  rewrite IH. destruct (D v e) as [g|]; cbn; lra.
Qed.

Lemma dlim_sum (rho : env) (v : var) (outs : list expr) (r : R) :
  derivable_pt_lim
    (fun y => fold_right Rplus 0 (map (eval (upd rho v y)) outs)) r
    (fold_right Rplus 0 (map (fun e => oval (upd rho v r) (D v e)) outs)).
Proof.
  induction outs as [|e outs IH]; cbn [map fold_right].
  - apply derivable_pt_lim_const.
  - apply (derivable_pt_lim_plus (fun y => eval (upd rho v y) e)
             (fun y => fold_right Rplus 0 (map (eval (upd rho v y)) outs))).
    + apply D_correct.
    + exact IH.
Qed.

Lemma upd_self (rho : env) (v w : var) : upd rho v (rho v) w = rho w.
Proof.
  unfold upd. destruct (var_eqb_spec w v) as [->|]; reflexivity.
Qed.

(** X1.  A first-order `derivative` of a tensor [dy] with respect to a flat
    leaf batch [x] that is a node of its graph returns, without touching the
    state, a flat tensor with one entry per element of [x], and entry [j] is
    the derivative, with respect to element [j] of [x], of the sum of all
    the elements of [dy]: contributions of every output that depends on the
    element are added up. *)
Theorem derivative_is_gradient_of_sum (dy : tensor) (id n j : nat) (s : state) :
  requires_grad dy = true ->
  existsb (mentions_leaf id) (elems (data dy)) = true ->
  (j < n)%nat ->
  exists gs,
    derivative dy (leaf1 id n) 1 s
    = (Ok (mkTensor (result_origin (existsb tracked gs)) (Vec gs)), s)
    /\ length gs = n
    /\ derivable_pt_lim
         (fun y => fold_right Rplus 0
                     (map (eval (upd (store s) (Elem id 0 j) y))
                          (elems (data dy))))
         (store s (Elem id 0 j))
         (eval (store s) (nth j gs (Const 0))).
Proof.
  intros Hr Hu Hj.
  exists (map (fun j => vjp (Elem id 0 j) (elems (data dy))) (seq 0 n)).
  split; [| split].
  - unfold derivative. change (Z.to_nat 1) with 1%nat. cbn [for_range].
    unfold bind. rewrite (grad_leaf1 dy id n s Hr Hu). reflexivity.
  - now rewrite length_map, length_seq.
  - set (g := fun j => vjp (Elem id 0 j) (elems (data dy))).
    rewrite (nth_indep _ (Const 0) (g 0%nat))
      by (now rewrite length_map, length_seq).
    rewrite (map_nth g), seq_nth by exact Hj. cbn [Nat.add]. unfold g.
    rewrite eval_vjp.
    eapply dlim_value; [| apply dlim_sum].
    f_equal. apply map_ext. intros e.
    destruct (D (Elem id 0 j) e) as [d|]; [| reflexivity].
    cbn [oval]. apply eval_ext. intros w. apply upd_self.
Qed.

(** X1 at the outputs [x0 * x1] and [x1]: both depend on [x1]. *)
Lemma derivative_is_gradient_of_sum_witness :
  exists gs,
    derivative (mkTensor Derived
                  (Vec [Mul (Var (Elem 0 0 0)) (Var (Elem 0 0 1));
                        Var (Elem 0 0 1)]))
               (leaf1 0 2) 1 (demo_state 0)
    = (Ok (mkTensor (result_origin (existsb tracked gs)) (Vec gs)),
       demo_state 0)
    /\ length gs = 2%nat
    /\ derivable_pt_lim
         (fun y => fold_right Rplus 0
                     (map (eval (upd (store (demo_state 0)) (Elem 0 0 1) y))
                          [Mul (Var (Elem 0 0 0)) (Var (Elem 0 0 1));
                           Var (Elem 0 0 1)]))
         (store (demo_state 0) (Elem 0 0 1))
         (eval (store (demo_state 0)) (nth 1 gs (Const 0))).
Proof.
  apply (derivative_is_gradient_of_sum
           (mkTensor Derived
              (Vec [Mul (Var (Elem 0 0 0)) (Var (Elem 0 0 1));
                    Var (Elem 0 0 1)]))
           0 2 1 (demo_state 0)); [reflexivity | reflexivity | lia].
Defined.

(** X2.  For an order of at least one, `derivative` raises on its first
    pass, with the state unchanged, when [dy] does not require grad (the
    output has no graph) and, when [dy] does, when [x] does not require
    grad. *)
Theorem derivative_refuses_untracked (dy x : tensor) (order : Z) (s : state) :
  (1 <= order)%Z ->
  requires_grad dy && requires_grad x = false ->
  derivative dy x order s
  = (Raise (GraphViolation (if requires_grad dy then InputNotTracked
                            else OutputNotTracked)), s).
Proof.
  intros Ho H. unfold derivative.
  destruct (Z.to_nat order) as [|k] eqn:E; [lia |].
  cbn [for_range]. unfold bind, grad. unfold requires_grad in *.
  destruct (origin_of dy); [reflexivity | |];
    (destruct (origin_of x); (discriminate || reflexivity)).
Qed.

(** X2 at a leaf differentiated with respect to a batch of constants. *)
Lemma derivative_refuses_untracked_witness :
  derivative (leaf1 0 1) (const1 [1]) 2 (demo_state 0)
  = (Raise (GraphViolation InputNotTracked), demo_state 0).
Proof.
  apply (derivative_refuses_untracked (leaf1 0 1) (const1 [1]) 2
           (demo_state 0)); [lia | reflexivity].
Defined.

Lemma for_range_add (step : tensor -> M tensor) (a b : nat) :
  forall dy s,
    for_range (a + b) step dy s
    = bind (for_range a step dy) (fun d => for_range b step d) s.
Proof.
  induction a as [|a IH]; intros dy s; [reflexivity |].
  cbn [Nat.add for_range]. unfold bind.
  destruct (step dy s) as [[d|e] s1]; [| reflexivity].
  specialize (IH d s1). unfold bind in IH. exact IH.
Qed.

(** X3.  Orders add up: a `derivative` of order [m + n] is the `derivative`
    of order [n] of the `derivative` of order [m] with respect to the same
    tensor, exceptions included: what the passes of the first raise, the
    whole raises. *)
Theorem derivative_orders_add (dy x : tensor) (m n : Z) (s : state) :
  (0 <= m)%Z -> (0 <= n)%Z ->
  derivative dy x (m + n) s
  = bind (derivative dy x m) (fun d => derivative d x n) s.
Proof.
  intros Hm Hn. unfold derivative. rewrite Z2Nat.inj_add by assumption.
  apply for_range_add.
Qed.

(** X3 at the cube of two points, for the orders one and one. *)
Lemma derivative_orders_add_witness :
  derivative (pointwise (fun e => Pow e 3) (leaf1 0 2)) (leaf1 0 2) (1 + 1)
             (demo_state 0)
  = bind (derivative (pointwise (fun e => Pow e 3) (leaf1 0 2)) (leaf1 0 2) 1)
         (fun d => derivative d (leaf1 0 2) 1) (demo_state 0).
Proof.
  apply (derivative_orders_add (pointwise (fun e => Pow e 3) (leaf1 0 2))
           (leaf1 0 2) 1 1 (demo_state 0)); lia.
Defined.

Lemma length_mapi {A B : Type} (g : nat -> A -> B) (l : list A) :
  length (mapi g l) = length l.
Proof. apply length_mapi_from. Qed.

Lemma shape_apos {A B : Type} (g : nat -> nat -> B) (d : arr A) :
  shape (apos g d) = shape d.
Proof.
  destruct d as [a|l|rows]; cbn [apos shape].
  - reflexivity.
  - now rewrite length_mapi.
  - rewrite length_mapi. destruct rows as [|r rows]; [reflexivity |].
    unfold mapi. cbn [mapi_from]. now rewrite length_mapi_from.
Qed.

Lemma grad_shape (dy x r : tensor) (s s' : state) :
  grad dy x s = (Ok r, s') -> s' = s /\ shape (data r) = shape (data x).
Proof.
  unfold grad.
  destruct (origin_of dy); [discriminate | |];
    (destruct (origin_of x); try discriminate;
     destruct (existsb _ _); [| discriminate];
     unfold ret; intros H; injection H as <- <-; cbn [data];
     now rewrite shape_apos).
Qed.

(** X4.  Whenever `derivative` of an order of at least one returns, the
    state is unchanged and the result has the shape of [x], whatever the
    shape of [dy]. *)
Theorem derivative_has_shape_of_x (dy x r : tensor) (order : Z) (s s' : state) :
  (1 <= order)%Z ->
  derivative dy x order s = (Ok r, s') ->
  s' = s /\ shape (data r) = shape (data x).
Proof.
  intros Ho. rewrite <- (Z2Nat.id order) by lia.
  destruct (Z.to_nat order) as [|k] eqn:E; [lia |].
  rewrite derivative_unroll. unfold bind.
  destruct (stateless_derivative dy x (Z.of_nat k)) as [o Hs]. rewrite Hs.
  destruct o as [d|e]; [| discriminate].
  apply grad_shape.
Qed.

(** X4 at a [(1, 1)] output differentiated with respect to a flat leaf of
    one element: the result is flat. *)
Lemma derivative_has_shape_of_x_witness :
  demo_state 0 = demo_state 0
  /\ shape (data (mkTensor Derived
                    (Vec [Mul (Const 1) (Mul (Const (INR 2))
                                             (Pow (Var (Elem 0 0 0)) 1))])))
     = shape (data (leaf1 0 1)).
Proof.
  apply (derivative_has_shape_of_x
           (mkTensor Derived (Mat [[Pow (Var (Elem 0 0 0)) 2]]))
           (leaf1 0 1) _ 1 (demo_state 0) (demo_state 0));
    [lia | reflexivity].
Defined.

End AutogradFacts.

(** ** Error behaviour of the residual *)

Section ResidualErrors.

Import Graph Torch Notebook.
Local Open Scope R_scope.

(** X5.  `f` cannot be evaluated on a model that is affine in its input
    row: when neither gradient of the output with respect to a feature has a
    feature left in its graph (`u = x + t`, `u = t`, a single `nn.Linear`),
    `f` raises an autograd error and leaves the state as it was.  The error
    is that a differentiated batch is not used in the graph, or that the
    tensor to differentiate does not require grad. *)
Theorem f_raises_on_affine_models (body : expr) (ix it n : nat) (s : state) :
  ix <> it -> (0 < n)%nat ->
  mentions_leaf ix body = false ->
  mentions_leaf it body = false ->
  affine body = true ->
  exists w,
    f (rowwise body) (leaf1 ix n) (leaf1 it n) s = (Raise (GraphViolation w), s)
    /\ (w = InputUnused \/ w = OutputNotTracked).
Proof.
  intros Hne Hn Hbx Hbt Ha.
  apply f_raises_without_graph; auto using affine_not_curved.
Qed.

(** X5 at the body [x + t] on two points. *)
Lemma f_raises_on_affine_models_witness :
  exists w,
    f (rowwise (Add (Var (Arg 0)) (Var (Arg 1)))) (leaf1 0 2) (leaf1 1 2)
      (demo_state 0)
    = (Raise (GraphViolation w), demo_state 0)
    /\ (w = InputUnused \/ w = OutputNotTracked).
Proof.
  apply (f_raises_on_affine_models (Add (Var (Arg 0)) (Var (Arg 1))) 0 1 2
           (demo_state 0));
    [discriminate | lia | reflexivity | reflexivity | reflexivity].
Defined.

End ResidualErrors.

(** ** The residual loss *)

Section ResidualLoss.

Import Graph Torch Notebook.
Local Open Scope R_scope.

(** X6.  `f` refuses batches that do not fit: two flat batches of different
    lengths are refused by the stack, before the model is called, for every
    model; and with a batch [t_f] that does not require grad the first
    differentiation pass is refused.  The state is unchanged. *)
Theorem f_rejects_bad_batches :
  (forall (mdl : model) (x_f t_f : tensor) (la lb : list expr) (s : state),
      data x_f = Vec la -> data t_f = Vec lb -> length la <> length lb ->
      f mdl x_f t_f s = (Raise ShapeMismatch, s))
  /\ (forall (body : expr) (x_f t_f : tensor) (la lb : list expr) (s : state),
         data x_f = Vec la -> data t_f = Vec lb -> length la = length lb ->
         requires_grad x_f = true -> requires_grad t_f = false ->
         f (rowwise body) x_f t_f s
         = (Raise (GraphViolation InputNotTracked), s)).
Proof.
  split.
  - intros mdl x_f t_f la lb s Ha Hb Hl. unfold f, bind, torch_stack.
    rewrite Ha, Hb. apply Nat.eqb_neq in Hl. now rewrite Hl.
  - intros body x_f t_f la lb s Ha Hb Hl Hx Ht.
    unfold f. unfold bind at 1. unfold torch_stack. rewrite Ha, Hb, Hl.
    rewrite Nat.eqb_refl, Hx. cbn [orb result_origin]. unfold ret at 1.
    unfold bind at 1. cbn [rowwise forward]. unfold rowwise_forward.
    cbn [data]. rewrite forallb_map_true by reflexivity.
    unfold ret at 1. unfold bind at 1, derivative at 1.
    change (Z.to_nat 1) with 1%nat. cbn [for_range]. unfold bind at 1.
    unfold grad. cbn [origin_of requires_grad orb result_origin].
    unfold requires_grad in Ht.
    destruct (origin_of t_f); (discriminate || reflexivity).
Qed.

(** X6 at batches of two and three points, and at a constant [t_f]. *)
Lemma f_rejects_bad_batches_witness :
  f (rowwise demo_body) (leaf1 0 2) (leaf1 1 3) (demo_state 0)
  = (Raise ShapeMismatch, demo_state 0)
  /\ f (rowwise demo_body) (leaf1 0 2) (const1 [0; 1]) (demo_state 0)
     = (Raise (GraphViolation InputNotTracked), demo_state 0).
Proof.
  destruct f_rejects_bad_batches as [H1 H2]. split.
  - apply (H1 _ _ _ [Var (Elem 0 0 0); Var (Elem 0 0 1)]
              [Var (Elem 1 0 0); Var (Elem 1 0 1); Var (Elem 1 0 2)]);
      [reflexivity | reflexivity | discriminate].
  - apply (H2 _ _ _ [Var (Elem 0 0 0); Var (Elem 0 0 1)] [Const 0; Const 1]);
      reflexivity.
Defined.

(** The mean of the squares of a flat batch. *)
Lemma mean_of_squares (rho : env) (r : tensor) (l : list R) :
  tvalue rho r = Vec l ->
  sval rho (torch_mean (torch_pow r 2))
  = fold_right Rplus 0 (map (fun y => y ^ 2) l) * / INR (length l).
Proof.
  unfold tvalue. destruct (data r) as [a|es|rows] eqn:E; try discriminate.
  cbn [amap]. intros H. injection H as <-.
  unfold sval, torch_mean, torch_pow, pointwise. cbn [data eval].
  rewrite E. cbn [amap elems]. rewrite eval_esum, !map_map, !length_map.
  reflexivity.
Qed.

Lemma pointwise_mse_map {A : Type} (g h : A -> R) (l : list A) :
  fold_right Rplus 0 (map (fun y => y ^ 2) (map (fun j => g j - h j) l))
  * / INR (length (map (fun j => g j - h j) l))
  = pointwise_mse (map g l) (map h l).
Proof.
  unfold pointwise_mse. rewrite combine_map_same, !map_map, !length_map.
  reflexivity.
Qed.

(** X7.  On two distinct flat leaf batches of the same positive length and
    a `Wave` whose layers fit, with at least one hidden layer, `mse_f`
    returns, without touching the state, the mean over the batch of the
    squared residual u_t - u_xx of the function the model computes, each
    sample paired with itself. *)
Theorem mse_f_is_mean_squared_residual
        (lin lout : linear) (ls : list linear) (ix it n : nat) (s : state) :
  let w := Wave (Linear lin) (Linear lout) (ModuleList (map Linear ls)) Tanh_ in
  in_features lin = 2%nat ->
  chain (out_features lin) ls (in_features lout) ->
  out_features lout = 1%nat ->
  (0 < out_features lin)%nat ->
  Forall (fun l => (0 < out_features l)%nat) ls ->
  ls <> [] ->
  ix <> it -> (0 < n)%nat ->
  ~ In ix (param_ids w) -> ~ In it (param_ids w) ->
  exists u u_t u_x u_xx : R -> R -> R,
    predicts (as_model w) (store s) u
    /\ (forall x t, derivable_pt_lim (fun y => u x y) t (u_t x t))
    /\ (forall x t, derivable_pt_lim (fun y => u y t) x (u_x x t))
    /\ (forall x t, derivable_pt_lim (fun y => u_x y t) x (u_xx x t))
    /\ exists r,
        mse_f (as_model w) (leaf1 ix n) (leaf1 it n) s = (Ok r, s)
        /\ sval (store s) r
           = pointwise_mse
               (map (fun j => u_t (store s (Elem ix 0 j))
                                  (store s (Elem it 0 j))) (seq 0 n))
               (map (fun j => u_xx (store s (Elem ix 0 j))
                                   (store s (Elem it 0 j))) (seq 0 n)).
Proof.
  intros w Hin Hc Hout Hpos Hls Hne Hxt Hn Hix Hit.
  destruct (f_residual_wave lin lout ls ix it n s Hin Hc Hout Hpos Hls Hne Hxt
              Hn Hix Hit)
    as (u & u_t & u_x & u_xx & Hp & H1 & H2 & H3 & r & Hf & Hv).
  exists u, u_t, u_x, u_xx. repeat (split; [assumption |]).
  exists (torch_mean (torch_pow r 2)). split.
  - unfold mse_f, bind. unfold w. now rewrite Hf.
  - rewrite (mean_of_squares _ _ _ Hv). apply pointwise_mse_map.
Qed.

(** X7 at the small `Wave` on two points. *)
Lemma mse_f_is_mean_squared_residual_witness :
  exists u u_t u_x u_xx : R -> R -> R,
    predicts (as_model small_wave) (store (demo_state 0)) u
    /\ (forall x t, derivable_pt_lim (fun y => u x y) t (u_t x t))
    /\ (forall x t, derivable_pt_lim (fun y => u y t) x (u_x x t))
    /\ (forall x t, derivable_pt_lim (fun y => u_x y t) x (u_xx x t))
    /\ exists r,
        mse_f (as_model small_wave) (leaf1 6 2) (leaf1 7 2) (demo_state 0)
        = (Ok r, demo_state 0)
        /\ sval (store (demo_state 0)) r
           = pointwise_mse
               (map (fun j => u_t (store (demo_state 0) (Elem 6 0 j))
                                  (store (demo_state 0) (Elem 7 0 j)))
                    (seq 0 2))
               (map (fun j => u_xx (store (demo_state 0) (Elem 6 0 j))
                                   (store (demo_state 0) (Elem 7 0 j)))
                    (seq 0 2)).
Proof.
  apply (mse_f_is_mean_squared_residual (mkLinear 2 1 0 1) (mkLinear 1 1 4 5)
           [mkLinear 1 1 2 3] 6 7 2 (demo_state 0)).
  - reflexivity.
  - cbn. auto.
  - reflexivity.
  - cbn. lia.
  - repeat constructor.
  - discriminate.
  - discriminate.
  - lia.
  - cbn. lia.
  - cbn. lia.
Defined.

End ResidualLoss.

(** ** The initial-condition loss *)

Section InitialLoss.

Import Graph Torch Notebook.
Local Open Scope R_scope.

Lemma pairs_with_zeros (xs : list expr) :
  map (fun p : expr * expr => [fst p; snd p])
      (combine xs (map (fun _ : expr => Const 0) xs))
  = map (fun x => [x; Const 0]) xs.
Proof.
  induction xs as [|x xs IH]; [reflexivity |]. cbn [map combine fst snd].
  now rewrite IH.
Qed.

Lemma eval_at_zero_time (rho : env) (x body : expr) :
  eval rho (inst (row_of [x; Const 0]) body)
  = net_fun rho body (eval rho x) 0.
Proof.
  rewrite eval_inst. apply eval_ext. intros [[|[|k]]|a i l]; reflexivity.
Qed.

(** `mse_0` on flat batches: the run and the value. *)
Lemma mse_0_on_flat_batches
      (body : expr) (x_0 u_0 : tensor) (xs us : list expr) (s : state) :
  data x_0 = Vec xs -> data u_0 = Vec us ->
  exists r,
    mse_0 (rowwise body) x_0 u_0 s = (Ok r, s)
    /\ forall rho,
        sval rho r
        = all_pairs_mse (map (fun x => net_fun rho body (eval rho x) 0) xs)
                        (map (eval rho) us).
Proof.
  intros Hx Hu. unfold mse_0.
  unfold bind at 1. unfold torch_stack, zeros_like. cbn [data]. rewrite Hx.
  cbn [amap]. rewrite length_map, Nat.eqb_refl, pairs_with_zeros.
  unfold ret at 1.
  rewrite (bind_step _ _ _ _ _
             (rowwise_pairs body _ (fun x : expr => x) (fun _ => Const 0) xs s)).
  rewrite <- (map_map (fun x => inst (row_of [x; Const 0]) body)
                      (fun b => [b])).
  destruct (column_minus_flat
              (result_origin
                 (requires_grad
                    (mkTensor
                       (result_origin
                          (requires_grad x_0
                           || requires_grad
                                (mkTensor Detached
                                   (Vec (map (fun _ : expr => Const 0) xs)))))
                       (Vec []))
                  || tracked body))
              (map (fun x => inst (row_of [x; Const 0]) body) xs)
              us u_0 s Hu) as (d & Hd & Hv).
  rewrite (bind_step _ _ _ _ _ Hd). unfold ret.
  eexists. split; [reflexivity |].
  intros rho. rewrite Hv, !map_map. f_equal.
  apply map_ext. intros x. apply eval_at_zero_time.
Qed.

(** X8.  On flat batches [x_0] and [u_0], of any lengths and whether they
    require grad or not, `mse_0` returns without touching the state; the
    model is evaluated at the points [(x, 0)], and the value is the mean of
    the squared differences over all pairs of a prediction and a target:
    the lengths of the two batches need not agree. *)
Theorem mse_0_is_mean_over_all_pairs
        (body : expr) (x_0 u_0 : tensor) (xs us : list expr) (s : state) :
  data x_0 = Vec xs -> data u_0 = Vec us ->
  exists r,
    mse_0 (rowwise body) x_0 u_0 s = (Ok r, s)
    /\ forall rho,
        sval rho r
        = all_pairs_mse (map (fun x => net_fun rho body (eval rho x) 0) xs)
                        (map (eval rho) us).
Proof.
  intros Hx Hu. exact (mse_0_on_flat_batches body x_0 u_0 xs us s Hx Hu).
Qed.

(** X8 at a leaf batch of three points and two targets. *)
Lemma mse_0_is_mean_over_all_pairs_witness :
  exists r,
    mse_0 (rowwise demo_body) (leaf1 0 3) (const1 [1; 2]) (demo_state 0)
    = (Ok r, demo_state 0)
    /\ forall rho,
        sval rho r
        = all_pairs_mse
            (map (fun x => net_fun rho demo_body (eval rho x) 0)
                 [Var (Elem 0 0 0); Var (Elem 0 0 1); Var (Elem 0 0 2)])
            (map (eval rho) [Const 1; Const 2]).
Proof.
  apply (mse_0_is_mean_over_all_pairs demo_body (leaf1 0 3) (const1 [1; 2])
           [Var (Elem 0 0 0); Var (Elem 0 0 1); Var (Elem 0 0 2)]
           [Const 1; Const 2] (demo_state 0)); reflexivity.
Defined.







End InitialLoss.

(** ** The boundary loss, term by term *)

Section BoundaryLoss.

Import Graph Torch Notebook.
Local Open Scope R_scope.

Lemma mean_of_squares_elems (rho : env) (r : tensor) :
  sval rho (torch_mean (torch_pow r 2))
  = fold_right Rplus 0 (map (fun e => eval rho e ^ 2) (elems (data r)))
    * / INR (length (elems (data r))).
Proof.
  unfold sval, torch_mean, torch_pow, pointwise. cbn [data eval].
  rewrite elems_amap, eval_esum, map_map, length_map. reflexivity.
Qed.

Lemma write_other (id a i j : nat) (vals : arr R) (rho : env) :
  a <> id -> write id vals rho (Elem a i j) = rho (Elem a i j).
Proof.
  intros H. unfold write. apply Nat.eqb_neq in H. now rewrite H.
Qed.

Lemma pointwise_mse_zero_targets {A : Type} (g : A -> R) (l : list A) :
  fold_right Rplus 0 (map (fun a => g a ^ 2) l) * / INR (length l)
  = pointwise_mse (map g l) (map (fun _ => 0) l).
Proof.
  unfold pointwise_mse. rewrite combine_map_same, map_map, length_map.
  f_equal. f_equal. apply map_ext. intros a. cbn [fst snd]. f_equal. lra.
Qed.

Lemma nth_const_map {A : Type} (l : list A) (c : R) (j : nat) :
  nth j (map (fun _ => c) l) c = c.
Proof.
  revert j. induction l as [|a l IH]; intros [|j]; cbn [map nth]; auto.
Qed.

(** A run of the two boundary terms on a flat batch of times that does not
    require grad: the two new leaf batches, what else the state holds, and
    the values of the two terms. *)
Lemma mse_b_terms_run (body ux : expr) (ts : list R) (s : state) :
  ts <> [] ->
  mentions_leaf (S (next_id s)) body = false ->
  D (Arg 0) body = Some ux ->
  exists dirichlet neumann s',
    mse_b_terms (rowwise body) (const1 ts) s
    = (Ok (dirichlet, neumann), s')
    /\ next_id s' = S (S (next_id s))
    /\ (forall j, (j < length ts)%nat -> store s' (Elem (next_id s) 0 j) = 0)
    /\ (forall j, (j < length ts)%nat ->
                  store s' (Elem (S (next_id s)) 0 j)
                  = 2 * PI * exp (- nth j ts 0))
    /\ (forall a i j, a <> next_id s -> a <> S (next_id s) ->
                      store s' (Elem a i j) = store s (Elem a i j))
    /\ (forall k, store s' (Arg k) = store s (Arg k))
    /\ grad_of s' = grad_of s /\ iter s' = iter s /\ stdout s' = stdout s
    /\ rng s' = rng s
    /\ sval (store s') dirichlet
       = pointwise_mse (map (fun t => net_fun (store s') body 0 t) ts)
                       (map (fun _ => 0) ts)
    /\ sval (store s') neumann
       = all_pairs_mse
           (map (fun t => net_fun (store s') body (2 * PI * exp (- t)) t) ts)
           (map (fun t => net_fun (store s') ux (2 * PI * exp (- t)) t) ts).
Proof.
  intros Hne Hfresh Hux.
  set (n := length ts). set (id1 := next_id s). set (id2 := S (next_id s)).
  assert (Hn : (0 < n)%nat) by (unfold n; destruct ts; [congruence | cbn; lia]).
  unfold mse_b_terms.
  unfold bind at 1. unfold set_requires_grad at 1.
  cbn [zeros_like origin_of data const1 amap].
  rewrite leaf_like_vec, !length_map. fold n. fold id1.
  set (s1 := mkState (S id1) _ (grad_of s) (iter s) (stdout s) (rng s)).
  rewrite (bind_step _ _ _ _ _ (stack_leaf_const id1 ts s1)).
  rewrite (bind_step _ _ _ _ _
             (rowwise_pairs body Derived _ _ (seq 0 (length ts)) s1)).
  unfold bind at 1. unfold set_requires_grad at 1.
  cbn [torch_rmul torch_exp torch_neg pointwise requires_grad origin_of
       result_origin data const1 amap].
  rewrite leaf_like_vec, !length_map. fold n.
  change (next_id s1) with id2.
  set (s2 := mkState (S id2) _ (grad_of s1) (iter s1) (stdout s1) (rng s1)).
  rewrite (bind_step _ _ _ _ _ (stack_leaf_const id2 ts s2)).
  rewrite (bind_step _ _ _ _ _
             (rowwise_pairs body Derived _ _ (seq 0 (length ts)) s2)).
  cbn [requires_grad origin_of orb result_origin]. fold n.
  change (map (fun j => [inst (row_of [Var (Elem id2 0 j); Const (nth j ts 0)])
                              body]) (seq 0 n))
    with (map (fun j => [inst (boundary_row id2 ts j) body]) (seq 0 n)).
  rewrite <- (map_map (fun j => inst (boundary_row id2 ts j) body)
                      (fun b => [b])).
  unfold bind at 1. unfold derivative. change (Z.to_nat 1) with 1%nat.
  cbn [for_range]. unfold bind at 1.
  rewrite (grad_rows (boundary_row id2 ts) 0 id2 n body ux Derived s2 true
             (feeds_boundary id2 ts) Hfresh Hux Hn) by discriminate.
  unfold ret at 1.
  destruct (column_minus_flat Derived
              (map (fun j => inst (boundary_row id2 ts j) body) (seq 0 n))
              (map (fun j => inst (boundary_row id2 ts j) ux) (seq 0 n))
              (mkTensor
                 (result_origin
                    (existsb tracked
                       (map (fun j => inst (boundary_row id2 ts j) ux)
                            (seq 0 n))))
                 (Vec (map (fun j => inst (boundary_row id2 ts j) ux)
                           (seq 0 n))))
              s2 eq_refl) as (d & Hd & Hv).
  rewrite (bind_step _ _ _ _ _ Hd). unfold ret.
  assert (Hx2 : forall j, (j < n)%nat ->
                          store s2 (Elem id2 0 j) = 2 * PI * exp (- nth j ts 0)).
  { intros j Hj. unfold s2. cbn [store].
    unfold tvalue, torch_rmul, torch_exp, torch_neg, pointwise, const1.
    cbn [data amap].
    rewrite write_same by (rewrite !length_map; exact Hj).
    rewrite !map_map. cbn [eval].
    rewrite (nth_indep _ 0 (2 * PI * exp (- 0)))
      by (rewrite length_map; exact Hj).
    now rewrite (map_nth (fun t => 2 * PI * exp (- t)) ts 0 j). }
  assert (Hx1 : forall j, (j < n)%nat -> store s2 (Elem id1 0 j) = 0).
  { intros j Hj. unfold s2. cbn [store].
    rewrite write_other by (unfold id1, id2; lia).
    unfold s1. cbn [store]. unfold tvalue, zeros_like, const1.
    cbn [data amap].
    rewrite write_same by (rewrite !length_map; exact Hj).
    rewrite !map_map. cbn [eval]. apply nth_const_map. }
  eexists. eexists. exists s2. split; [reflexivity |].
  split; [reflexivity |]. split; [exact Hx1 |]. split; [exact Hx2 |].
  split.
  { intros a i j H1 H2. unfold s2. cbn [store].
    rewrite write_other by exact H2. unfold s1. cbn [store].
    now rewrite write_other by exact H1. }
  split; [reflexivity |].
  split; [reflexivity |]. split; [reflexivity |]. split; [reflexivity |].
  split; [reflexivity |].
  split.
  - rewrite mean_of_squares_elems. cbn [data elems].
    rewrite (concat_map_singleton
               (fun j => inst (row_of [Var (Elem id1 0 j); Const (nth j ts 0)])
                              body)).
    rewrite map_map, length_map, length_seq.
    rewrite <- (pointwise_mse_zero_targets
                  (fun t => net_fun (store s2) body 0 t) ts).
    fold n. f_equal. f_equal.
    rewrite <- (map_nth_seq (fun t => net_fun (store s2) body 0 t ^ 2)).
    fold n. apply map_ext_in. intros j Hj. apply in_seq in Hj. f_equal.
    rewrite eval_inst. unfold net_fun. apply eval_ext.
    intros [[|[|k]]|a i l]; cbn; try reflexivity.
    apply Hx1. lia.
  - rewrite Hv, !map_map.
    assert (Hval : forall e,
               map (fun j => eval (store s2) (inst (boundary_row id2 ts j) e))
                   (seq 0 n)
               = map (fun t => net_fun (store s2) e (2 * PI * exp (- t)) t) ts).
    { intros e.
      rewrite <- (map_nth_seq
                    (fun t => net_fun (store s2) e (2 * PI * exp (- t)) t)).
      fold n. apply map_ext_in. intros j Hj. apply in_seq in Hj.
      rewrite eval_inst. unfold net_fun. apply eval_ext.
      intros [[|[|k]]|a i l]; cbn; try reflexivity.
      apply Hx2. lia. }
    now rewrite !Hval.
Qed.

(** X10.  The Dirichlet term of `mse_b`, on a flat non-empty batch of boundary
    times that does not require grad: the model is evaluated at the points
    [(0, t_j)], with a new leaf batch of zeros for [x], and the term is the
    mean over the batch of the squared predictions, sample by sample;
    tensors that existed keep their values. *)
Theorem mse_b_dirichlet_is_batch_mean (body : expr) (ts : list R) (s : state) :
  ts <> [] ->
  mentions_leaf (S (next_id s)) body = false ->
  mentions (Arg 0) body = true ->
  exists dirichlet neumann s',
    mse_b_terms (rowwise body) (const1 ts) s
    = (Ok (dirichlet, neumann), s')
    /\ sval (store s') dirichlet
       = pointwise_mse (map (fun t => net_fun (store s') body 0 t) ts)
                       (map (fun _ => 0) ts)
    /\ (forall j, (j < length ts)%nat -> store s' (Elem (next_id s) 0 j) = 0)
    /\ (forall a i j, (a < next_id s)%nat ->
                      store s' (Elem a i j) = store s (Elem a i j)).
Proof.
  intros Hts Hfresh Hm. apply D_some_iff in Hm. destruct Hm as [ux Hux].
  destruct (mse_b_terms_run body ux ts s Hts Hfresh Hux)
    as (dir & neu & s' & E & _ & H0 & _ & Hold & _ & _ & _ & _ & _ & Hv & _).
  exists dir, neu, s'. split; [exact E |]. split; [exact Hv |].
  split; [exact H0 |].
  intros a i j Ha. apply Hold; lia.
Qed.

(** X10 at the body [x * (x * t)] and the times 0 and 1. *)
Lemma mse_b_dirichlet_is_batch_mean_witness :
  exists dirichlet neumann s',
    mse_b_terms (rowwise demo_body) (const1 [0; 1]) (demo_state 0)
    = (Ok (dirichlet, neumann), s')
    /\ sval (store s') dirichlet
       = pointwise_mse (map (fun t => net_fun (store s') demo_body 0 t) [0; 1])
                       (map (fun _ => 0) [0; 1])
    /\ (forall j, (j < length [0; 1])%nat ->
                  store s' (Elem (next_id (demo_state 0)) 0 j) = 0)
    /\ (forall a i j, (a < next_id (demo_state 0))%nat ->
                      store s' (Elem a i j) = store (demo_state 0) (Elem a i j)).
Proof.
  apply (mse_b_dirichlet_is_batch_mean demo_body [0; 1] (demo_state 0));
    [discriminate | reflexivity | reflexivity].
Defined.

(** X11.  The Neumann term of `mse_b`, on a flat non-empty batch of boundary
    times that does not require grad: the model is evaluated at the points
    [(2 pi e^(-t_j), t_j)], with a new leaf batch for [x], its output is
    differentiated once in [x], and the term is the mean of the squared
    differences over all pairs of a prediction and an x-derivative, the
    prediction of one sample also meeting the derivatives of the others. *)
Theorem mse_b_neumann_is_mean_over_all_pairs
        (body : expr) (ts : list R) (s : state) :
  ts <> [] ->
  mentions_leaf (S (next_id s)) body = false ->
  mentions (Arg 0) body = true ->
  exists ux dirichlet neumann s',
    (forall rho x t,
        derivable_pt_lim (fun y => net_fun rho body y t) x (net_fun rho ux x t))
    /\ mse_b_terms (rowwise body) (const1 ts) s
       = (Ok (dirichlet, neumann), s')
    /\ sval (store s') neumann
       = all_pairs_mse
           (map (fun t => net_fun (store s') body (2 * PI * exp (- t)) t) ts)
           (map (fun t => net_fun (store s') ux (2 * PI * exp (- t)) t) ts)
    /\ (forall j, (j < length ts)%nat ->
                  store s' (Elem (S (next_id s)) 0 j)
                  = 2 * PI * exp (- nth j ts 0)).
Proof.
  intros Hts Hfresh Hm. apply D_some_iff in Hm. destruct Hm as [ux Hux].
  destruct (mse_b_terms_run body ux ts s Hts Hfresh Hux)
    as (dir & neu & s' & E & _ & _ & H1 & _ & _ & _ & _ & _ & _ & _ & Hv).
  exists ux, dir, neu, s'.
  split; [intros rho x t; now apply net_fun_dx |].
  split; [exact E |]. split; [exact Hv | exact H1].
Qed.

(** X11 at the body [x * (x * t)] and the times 0 and 1. *)
Lemma mse_b_neumann_is_mean_over_all_pairs_witness :
  exists ux dirichlet neumann s',
    (forall rho x t,
        derivable_pt_lim (fun y => net_fun rho demo_body y t) x
                         (net_fun rho ux x t))
    /\ mse_b_terms (rowwise demo_body) (const1 [0; 1]) (demo_state 0)
       = (Ok (dirichlet, neumann), s')
    /\ sval (store s') neumann
       = all_pairs_mse
           (map (fun t => net_fun (store s') demo_body (2 * PI * exp (- t)) t)
                [0; 1])
           (map (fun t => net_fun (store s') ux (2 * PI * exp (- t)) t) [0; 1])
    /\ (forall j, (j < length [0; 1])%nat ->
                  store s' (Elem (S (next_id (demo_state 0))) 0 j)
                  = 2 * PI * exp (- nth j [0; 1] 0)).
Proof.
  apply (mse_b_neumann_is_mean_over_all_pairs demo_body [0; 1] (demo_state 0));
    [discriminate | reflexivity | reflexivity].
Defined.

End BoundaryLoss.

(** ** The losses are means of squares *)

Section LossValues.

Import Graph Torch Notebook.
Local Open Scope R_scope.










End LossValues.

(** ** The initial-condition loss on column targets *)

Section ColumnTargets.

Import Graph Torch Notebook.
Local Open Scope R_scope.

Lemma columns_minus_columns (bs us : list expr) :
  length bs = length us ->
  bmat Sub (map (fun b => [b]) bs) (map (fun u => [u]) us)
  = Some (map (fun p => [Sub (fst p) (snd p)]) (combine bs us)).
Proof.
  intros Hl. unfold bmat. rewrite !length_map, Hl, Nat.eqb_refl.
  clear Hl. revert us. induction bs as [|b bs IH]; intros [|u us];
    try reflexivity.
  cbn [map combine sequence fst snd]. unfold brow at 1. cbn [length Nat.eqb map combine fst snd].
  now rewrite IH.
Qed.

Lemma combine_map_both {A B C D : Type} (g : A -> C) (h : B -> D)
      (l : list A) (l' : list B) :
  combine (map g l) (map h l')
  = map (fun p => (g (fst p), h (snd p))) (combine l l').
Proof.
  revert l'. induction l as [|a l IH]; intros [|b l']; try reflexivity.
  cbn [map combine fst snd]. now rewrite IH.
Qed.

(** X12.  With the targets given as a column, of shape [(n, 1)] like the
    output of the model, `mse_0` is the mean squared error sample by sample;
    a column of another length is refused. *)
Theorem mse_0_is_pointwise_on_column_targets :
  (forall (body : expr) (x_0 u_0 : tensor) (xs us : list expr) (s : state),
      data x_0 = Vec xs -> data u_0 = Mat (map (fun u => [u]) us) ->
      length xs = length us ->
      exists r,
        mse_0 (rowwise body) x_0 u_0 s = (Ok r, s)
        /\ forall rho,
            sval rho r
            = pointwise_mse
                (map (fun x => net_fun rho body (eval rho x) 0) xs)
                (map (eval rho) us))
  /\ (forall (body : expr) (x_0 u_0 : tensor) (xs us : list expr) (s : state),
         data x_0 = Vec xs -> data u_0 = Mat (map (fun u => [u]) us) ->
         length xs <> length us -> length xs <> 1%nat -> length us <> 1%nat ->
         mse_0 (rowwise body) x_0 u_0 s = (Raise ShapeMismatch, s)).
Proof.
  split.
  - intros body x_0 u_0 xs us s Hx Hu Hl. unfold mse_0.
    unfold bind at 1. unfold torch_stack, zeros_like. cbn [data]. rewrite Hx.
    cbn [amap]. rewrite length_map, Nat.eqb_refl, pairs_with_zeros.
    unfold ret at 1.
    rewrite (bind_step _ _ _ _ _
               (rowwise_pairs body _ (fun x : expr => x) (fun _ => Const 0) xs
                              s)).
    rewrite <- (map_map (fun x => inst (row_of [x; Const 0]) body)
                        (fun b => [b])).
    unfold bind at 1. unfold torch_sub, binary. cbn [data broadcast].
    rewrite Hu, columns_minus_columns by (now rewrite length_map).
    cbn [option_map]. unfold ret. eexists. split; [reflexivity |].
    intros rho. rewrite mean_of_squares_elems. cbn [data elems].
    rewrite (concat_map_singleton (fun p : expr * expr => Sub (fst p) (snd p))).
    unfold pointwise_mse.
    rewrite !map_map, !length_map, length_combine, length_map, <- Hl,
      Nat.min_id.
    f_equal. f_equal.
    rewrite <- (map_id us) at 1. rewrite !combine_map_both, !map_map.
    apply map_ext. intros [x u]. cbn [fst snd eval].
    now rewrite eval_at_zero_time.
  - intros body x_0 u_0 xs us s Hx Hu Hl H1 H2. unfold mse_0.
    unfold bind at 1. unfold torch_stack, zeros_like. cbn [data]. rewrite Hx.
    cbn [amap]. rewrite length_map, Nat.eqb_refl, pairs_with_zeros.
    unfold ret at 1.
    rewrite (bind_step _ _ _ _ _
               (rowwise_pairs body _ (fun x : expr => x) (fun _ => Const 0) xs
                              s)).
    unfold bind at 1. unfold torch_sub, binary. cbn [data broadcast].
    rewrite Hu. unfold bmat. rewrite !length_map.
    apply Nat.eqb_neq in Hl. rewrite Hl.
    destruct xs as [|x [|x' xs]], us as [|u [|u' us]]; cbn in *;
      congruence || reflexivity.
Qed.

(** X12 at two points with their two targets, and with three targets. *)
Lemma mse_0_is_pointwise_on_column_targets_witness :
  (exists r,
      mse_0 (rowwise demo_body) (const1 [0; 1])
            (mkTensor Detached (Mat [[Const 0]; [Const 1]])) (demo_state 0)
      = (Ok r, demo_state 0)
      /\ forall rho,
          sval rho r
          = pointwise_mse
              (map (fun x => net_fun rho demo_body (eval rho x) 0)
                   [Const 0; Const 1])
              (map (eval rho) [Const 0; Const 1]))
  /\ mse_0 (rowwise demo_body) (const1 [0; 1])
           (mkTensor Detached (Mat [[Const 0]; [Const 1]; [Const 2]]))
           (demo_state 0)
     = (Raise ShapeMismatch, demo_state 0).
Proof.
  destruct mse_0_is_pointwise_on_column_targets as [H1 H2]. split.
  - apply (H1 demo_body (const1 [0; 1])
              (mkTensor Detached (Mat [[Const 0]; [Const 1]]))
              [Const 0; Const 1] [Const 0; Const 1] (demo_state 0));
      reflexivity.
  - apply (H2 demo_body (const1 [0; 1])
              (mkTensor Detached (Mat [[Const 0]; [Const 1]; [Const 2]]))
              [Const 0; Const 1] [Const 0; Const 1; Const 2] (demo_state 0));
      (reflexivity || discriminate).
Defined.

End ColumnTargets.


(** ** What a closure evaluation leaves behind *)

Section ClosureFacts.

Import Graph Torch Notebook.
Local Open Scope R_scope.

Lemma allocates_only_stateless {A : Type} (m : M A) :
  stateless m -> allocates_only m.
Proof.
  intros [o H] s. rewrite H. cbn [snd]. repeat split; auto.
Qed.

Lemma allocates_only_bind {A B : Type} (m : M A) (k : A -> M B) :
  allocates_only m -> (forall a, allocates_only (k a)) ->
  allocates_only (bind m k).
Proof.
  intros Hm Hk s. unfold bind. specialize (Hm s).
  destruct (m s) as [[a|e] s1]; cbn [snd] in *; [| exact Hm].
  destruct Hm as (H1 & H2 & H3 & H4 & H5).
  destruct (Hk a s1) as (K1 & K2 & K3 & K4 & K5).
  split; [lia |]. split.
  { intros b i j Hb. rewrite K2 by lia. now apply H2. }
  split; [intros n; now rewrite K3 |].
  split; congruence.
Qed.

Lemma allocates_only_set_requires_grad (t : tensor) :
  allocates_only (set_requires_grad t).
Proof.
  intros s. unfold set_requires_grad.
  destruct (origin_of t); cbn [snd next_id store grad_of rng];
    repeat split; auto.
  intros a i j Ha. apply write_other. lia.
Qed.

Lemma allocates_only_mse_b (body : expr) (t_b : tensor) :
  allocates_only (mse_b (rowwise body) t_b).
Proof.
  unfold mse_b.
  apply allocates_only_bind;
    [| intros a; apply allocates_only_stateless, stateless_binary].
  unfold mse_b_terms.
  repeat (apply allocates_only_bind;
          [first [apply allocates_only_set_requires_grad
                 |apply allocates_only_stateless;
                  first [apply stateless_stack | apply stateless_rowwise
                        |apply stateless_derivative | apply stateless_binary]]
          |intros ?]).
  apply allocates_only_stateless, stateless_ret.
Qed.

(** The state after one closure evaluation: tensors that existed keep their
    values; the `.grad` fields are as `zero_grad` left them, plus, when the
    evaluation returns, the gradient of the returned loss. *)
Lemma closure_backward (body : expr) (opt : optimizer)
      (x_f t_f x_0 u_0 t : tensor) (s : state) :
  let s0 := snd (zero_grad opt s) in
  match closure (rowwise body) opt x_f t_f x_0 u_0 t s with
  | (Ok loss, s') =>
      (next_id s <= next_id s')%nat
      /\ (forall a i j, (a < next_id s)%nat ->
                        store s' (Elem a i j) = store s (Elem a i j))
      /\ rng s' = rng s
      /\ exists e,
          data loss = Sc e
          /\ forall v,
              grad_of s' v
              = match D v e with
                | Some g =>
                    Some (match grad_of s0 v with
                          | Some a => a
                          | None => 0
                          end + eval (store s') g)
                | None => grad_of s0 v
                end
  | (Raise _, s') =>
      (next_id s <= next_id s')%nat
      /\ (forall a i j, (a < next_id s)%nat ->
                        store s' (Elem a i j) = store s (Elem a i j))
      /\ rng s' = rng s
      /\ grad_of s' = grad_of s0
  end.
Proof.
  intros s0. unfold closure.
  rewrite (bind_step (zero_grad opt) _ s s0 tt eq_refl).
  destruct (stateless_mse_f body x_f t_f) as [o_f Hf].
  unfold bind at 1. rewrite Hf.
  destruct o_f as [l_f|e]; [| repeat split; auto].
  destruct (stateless_mse_0 body x_0 u_0) as [o_0 H0].
  unfold bind at 1. rewrite H0.
  destruct o_0 as [l_0|e]; [| repeat split; auto].
  destruct (mse_f_inv _ _ _ _ _ _ (Hf s0)) as (f_u & _ & ->).
  destruct (mse_0_inv _ _ _ _ _ _ (H0 s0)) as (d0 & ->).
  rewrite (bind_step _ _ _ _ _
             (add_scalars (torch_mean (torch_pow f_u 2))
                          (torch_mean (torch_pow d0 2)) _ _ s0
                          eq_refl eq_refl)).
  pose proof (allocates_only_mse_b body t s0) as Hb.
  destruct (mse_b (rowwise body) t s0) as [[l_b|e] s3] eqn:Eb;
    cbn [snd] in Hb; destruct Hb as (B1 & B2 & _ & B4 & B5).
  2: { rewrite (bind_raise _ _ _ _ _ Eb). repeat split; auto. }
  rewrite (bind_step _ _ _ _ _ Eb).
  destruct (mse_b_inv _ _ _ _ _ Eb) as (dir & neu & _ & [eb Hd] & Hrb & _).
  rewrite (bind_step _ _ _ _ _
             (add_scalars (mkTensor _ (Sc _)) l_b _ _ s3 eq_refl Hd)).
  rewrite Hrb, orb_true_r. cbn [result_origin].
  unfold bind, backward, incr_iter, get, item, print_progress, ret.
  cbn [origin_of data iter elems stdout store next_id].
  destruct (Z.eqb ((iter s3 + 1) mod 50) 0);
    cbn [data store grad_of next_id rng];
    (split; [exact B1 |]);
    (split; [intros a i j Ha; now apply B2 |]);
    (split; [exact B5 |]);
    (eexists; split; [reflexivity |]);
    intros v; now rewrite B4.
Qed.

(** X13.  A closure evaluation fails only in a sub-loss, for every model:
    it raises what the first failing one of `mse_f`, `mse_0` and `mse_b`
    raises, in this order, without evaluating the later ones; when the three
    return, the sums, the backward pass and the progress report do not fail
    and the evaluation returns, with the stored values as `mse_b` left
    them. *)
Theorem closure_fails_only_in_a_sub_loss
        (mdl : model) (opt : optimizer) (x_f t_f x_0 u_0 t : tensor)
        (s : state) :
  match mse_f mdl x_f t_f (snd (zero_grad opt s)) with
  | (Raise e, s1) => closure mdl opt x_f t_f x_0 u_0 t s = (Raise e, s1)
  | (Ok l_f, s1) =>
      match mse_0 mdl x_0 u_0 s1 with
      | (Raise e, s2) => closure mdl opt x_f t_f x_0 u_0 t s = (Raise e, s2)
      | (Ok l_0, s2) =>
          match mse_b mdl t s2 with
          | (Raise e, s3) =>
              closure mdl opt x_f t_f x_0 u_0 t s = (Raise e, s3)
          | (Ok l_b, s3) =>
              exists loss s',
                closure mdl opt x_f t_f x_0 u_0 t s = (Ok loss, s')
                /\ store s' = store s3 /\ next_id s' = next_id s3
          end
      end
  end.
Proof.
  pose proof (closure_cases mdl opt x_f t_f x_0 u_0 t s) as C.
  destruct (mse_f mdl x_f t_f (snd (zero_grad opt s))) as [[l_f|e] s1];
    [| exact C].
  destruct (mse_0 mdl x_0 u_0 s1) as [[l_0|e] s2]; [| exact C].
  destruct (mse_b mdl t s2) as [[l_b|e] s3]; [| exact C].
  destruct C as (loss & s' & Hc & _ & _ & _ & Hs & Hn).
  exists loss, s'. auto.
Qed.

(** X14.  No closure evaluation, returning or raising, changes the value of a
    tensor that existed before it: the parameters move only in the
    optimizer. *)
Theorem closure_preserves_tensor_values
        (body : expr) (opt : optimizer) (x_f t_f x_0 u_0 t : tensor)
        (s : state) (a i j : nat) :
  (a < next_id s)%nat ->
  store (snd (closure (rowwise body) opt x_f t_f x_0 u_0 t s)) (Elem a i j)
  = store s (Elem a i j).
Proof.
  intros Ha.
  pose proof (closure_backward body opt x_f t_f x_0 u_0 t s) as H.
  cbv zeta in H.
  destruct (closure _ _ _ _ _ _ _ s) as [[loss|e] s']; cbn [snd];
    destruct H as (_ & H & _); now apply H.
Qed.

(** X14 at the small run, for the batch [t_f]. *)
Lemma closure_preserves_tensor_values_witness :
  store (snd (demo_closure (demo_state 0))) (Elem 1 0 0)
  = store (demo_state 0) (Elem 1 0 0).
Proof.
  apply (closure_preserves_tensor_values demo_body (mkOptimizer [])
           (leaf1 0 1) (leaf1 1 1) (const1 [1 / 2]) (const1 [0]) (const1 [0])
           (demo_state 0) 1 0 0).
  cbn. lia.
Defined.

Lemma zero_grad_params (opt : optimizer) (s : state) (a i j : nat) :
  grad_of (snd (zero_grad opt s)) (Elem a i j)
  = if existsb (Nat.eqb a) (params opt) then None else grad_of s (Elem a i j).
Proof. reflexivity. Qed.

Lemma existsb_eqb_in (a : nat) (l : list nat) :
  existsb (Nat.eqb a) l = true <-> In a l.
Proof.
  rewrite existsb_exists. split.
  - intros (b & Hb & E). apply Nat.eqb_eq in E. now subst.
  - intros H. exists a. split; [exact H | apply Nat.eqb_refl].
Qed.

(** X15.  After a closure evaluation that returns, the `.grad` field of every
    element of an optimizer parameter holds the partial derivative of the
    returned loss with respect to that element, at the current values (or
    is undefined when the loss does not depend on the element): gradients
    of earlier evaluations were cleared.  The `.grad` field of any other
    leaf of the loss, such as the collocation batches, accumulates.  After
    an evaluation that raises, the gradients of the parameters are
    cleared. *)
Theorem closure_stores_gradient_of_loss
        (body : expr) (opt : optimizer) (x_f t_f x_0 u_0 t : tensor)
        (s : state) :
  match closure (rowwise body) opt x_f t_f x_0 u_0 t s with
  | (Ok loss, s') =>
      exists e,
        data loss = Sc e
        /\ (forall a i j,
               In a (params opt) ->
               match grad_of s' (Elem a i j) with
               | Some d =>
                   derivable_pt_lim
                     (fun y => eval (upd (store s') (Elem a i j) y) e)
                     (store s' (Elem a i j)) d
               | None => mentions (Elem a i j) e = false
               end)
        /\ (forall a i j g,
               ~ In a (params opt) ->
               D (Elem a i j) e = Some g ->
               grad_of s' (Elem a i j)
               = Some (match grad_of s (Elem a i j) with
                       | Some d => d
                       | None => 0
                       end + eval (store s') g))
  | (Raise _, s') =>
      forall a i j, In a (params opt) -> grad_of s' (Elem a i j) = None
  end.
Proof.
  pose proof (closure_backward body opt x_f t_f x_0 u_0 t s) as H.
  cbv zeta in H.
  destruct (closure _ _ _ _ _ _ _ s) as [[loss|e] s'].
  - destruct H as (_ & _ & _ & e & He & Hg). exists e.
    split; [exact He |]. split.
    + intros a i j Ha. rewrite Hg, zero_grad_params.
      apply existsb_eqb_in in Ha. rewrite Ha.
      destruct (D (Elem a i j) e) as [g|] eqn:Eg.
      * pose proof (D_correct e (Elem a i j) (store s')
                      (store s' (Elem a i j))) as Hd.
        rewrite Eg in Hd. cbn [oval] in Hd.
        eapply dlim_value; [| exact Hd].
        rewrite Rplus_0_l. apply eval_ext. intros w. apply upd_self.
      * now apply D_none_iff.
    + intros a i j g Ha Eg. rewrite Hg, Eg, zero_grad_params.
      destruct (existsb (Nat.eqb a) (params opt)) eqn:Ex; [| reflexivity].
      apply existsb_eqb_in in Ex. contradiction.
  - destruct H as (_ & _ & _ & Hg). intros a i j Ha.
    rewrite Hg, zero_grad_params. apply existsb_eqb_in in Ha.
    now rewrite Ha.
Qed.

End ClosureFacts.

(** ** A whole training run *)

Section TrainingRun.

Import Graph Torch Notebook.
Local Open Scope R_scope.

Local Open Scope Z_scope.

Lemma reports_refl (s s' : state) :
  iter s' = iter s -> stdout s' = stdout s -> reports s s'.
Proof.
  intros Hi Ho. exists 0%nat, []. rewrite Hi, Ho, app_nil_r.
  repeat split. lia.
Qed.

Lemma seq_from (k n : nat) : seq k n = map (Nat.add k) (seq 0 n).
Proof.
  induction k as [|k IH]; [now rewrite map_id |].
  rewrite <- seq_shift, IH, map_map. reflexivity.
Qed.

Lemma counters_after_app (lo : Z) (k1 k2 : nat) :
  counters_after lo (k1 + k2)
  = counters_after lo k1 ++ counters_after (lo + Z.of_nat k1) k2.
Proof.
  unfold counters_after. rewrite seq_app, map_app. f_equal.
  cbn [Nat.add]. rewrite (seq_from k1 k2), map_map.
  apply map_ext. intros j. lia.
Qed.

Lemma reports_trans (s s1 s2 : state) :
  reports s s1 -> reports s1 s2 -> reports s s2.
Proof.
  intros (k1 & n1 & Hi1 & Ho1 & Hf1) (k2 & n2 & Hi2 & Ho2 & Hf2).
  exists (k1 + k2)%nat, (n1 ++ n2).
  split; [lia |]. split; [now rewrite Ho2, Ho1, app_assoc |].
  rewrite map_app, counters_after_app, filter_app, Hf1, Hf2, Hi1.
  reflexivity.
Qed.

Lemma reports_closure (body : expr) (opt : optimizer)
      (x_f t_f x_0 u_0 t : tensor) (s : state) :
  reports s (snd (closure (rowwise body) opt x_f t_f x_0 u_0 t s)).
Proof.
  pose proof (closure_counter body opt x_f t_f x_0 u_0 t s) as C.
  destruct (closure _ _ _ _ _ _ _ s) as [[loss|e] s']; cbn [snd].
  - destruct C as [Hi Ho].
    exists 1%nat, (progress_line (iter s + 1) (sval (store s') loss)).
    split; [lia |]. split; [exact Ho |].
    unfold progress_line, counters_after. cbn [seq map filter].
    replace (iter s + 1 + Z.of_nat 0) with (iter s + 1) by lia.
    destruct (Z.eqb ((iter s + 1) mod 50) 0); reflexivity.
  - destruct C as [Hi Ho]. now apply reports_refl.
Qed.

Lemma reports_lbfgs_step (alg : lbfgs) (opt : optimizer)
      (closure_fn : M tensor) :
  (forall s, reports s (snd (closure_fn s))) ->
  forall s, reports s (snd (lbfgs_step alg opt closure_fn s)).
Proof.
  intros Hc. induction alg as [|move next IH]; intros s; cbn [lbfgs_step].
  - now apply reports_refl.
  - unfold bind at 1. specialize (Hc s).
    destruct (closure_fn s) as [[loss|e] s1]; cbn [snd] in *; [| exact Hc].
    unfold bind at 1, item.
    destruct (elems (data loss)) as [|a [|b l]]; cbn [snd]; try exact Hc.
    unfold bind at 1, get. unfold bind at 1, update_params.
    eapply reports_trans; [exact Hc |].
    eapply reports_trans; [| apply IH].
    now apply reports_refl.
Qed.

(** X16.  Over a whole training run, whether it ends normally or with an
    exception, the counter advances by some number [k] of evaluations, the
    output is only appended to, and the iteration numbers printed are exactly
    the multiples of 50 among the [k] counters passed, in increasing
    order. *)
Theorem train_reports_every_fiftieth_evaluation
        (alg : lbfgs) (body : expr) (x_f t_f x_0 u_0 t : tensor) (s : state) :
  exists (k : nat) (new : list (Z * R)),
    iter (snd (train alg (rowwise body) x_f t_f x_0 u_0 t s))
    = iter s + Z.of_nat k
    /\ stdout (snd (train alg (rowwise body) x_f t_f x_0 u_0 t s))
       = stdout s ++ new
    /\ map fst new
       = filter (fun i => Z.eqb (i mod 50) 0)
                (map (fun j => iter s + 1 + Z.of_nat j) (seq 0 k)).
Proof.
  unfold train. apply reports_lbfgs_step. intros s0. apply reports_closure.
Qed.

Local Close Scope Z_scope.

(** One closure evaluation of a row-wise model on the kinds of batches the
    driver passes. *)
Lemma closure_returns_rowwise (body : expr) (opt : optimizer)
      (ix it n : nat) (x_0 u_0 : tensor) (xs us : list expr) (ts : list R)
      (s : state) :
  ix <> it -> (0 < n)%nat ->
  mentions_leaf ix body = false ->
  mentions_leaf it body = false ->
  mentions (Arg 1) body = true ->
  curved 0 body = true ->
  mentions_leaf (S (next_id s)) body = false ->
  data x_0 = Vec xs -> data u_0 = Vec us -> ts <> [] ->
  exists loss s',
    closure (rowwise body) opt (leaf1 ix n) (leaf1 it n) x_0 u_0 (const1 ts) s
    = (Ok loss, s').
Proof.
  intros Hne Hn Hbx Hbt Ht Hc Hfresh Hx Hu Hts.
  pose proof (closure_cases (rowwise body) opt (leaf1 ix n) (leaf1 it n)
                x_0 u_0 (const1 ts) s) as C.
  set (s0 := snd (zero_grad opt s)) in *.
  destruct (f_residual_rowwise body ix it n s0 Hne Hn Hbx Hbt Ht Hc)
    as (_ & _ & _ & _ & _ & _ & _ & _ & r & Hf & _).
  assert (Ef : mse_f (rowwise body) (leaf1 ix n) (leaf1 it n) s0
               = (Ok (torch_mean (torch_pow r 2)), s0))
    by (unfold mse_f, bind; now rewrite Hf).
  rewrite Ef in C.
  destruct (mse_0_on_flat_batches body x_0 u_0 xs us s0 Hx Hu)
    as (l_0 & E0 & _).
  rewrite E0 in C.
  assert (Hm : mentions (Arg 0) body = true)
    by (apply bent_mentions; exact Hc).
  apply D_some_iff in Hm. destruct Hm as [ux Hux].
  destruct (mse_b_terms_run body ux ts s0 Hts Hfresh Hux)
    as (dir & neu & s3 & Eb & _).
  destruct (mse_b_terms_inv _ _ _ _ _ _ Eb) as [[u ->] [d [-> _]]].
  assert (Eb' : exists l_b, mse_b (rowwise body) (const1 ts) s0 = (Ok l_b, s3)).
  { eexists. unfold mse_b. rewrite (bind_step _ _ _ _ _ Eb). cbn [fst snd].
    apply add_scalars; reflexivity. }
  destruct Eb' as [l_b Eb']. rewrite Eb' in C.
  destruct C as (loss & s' & Hcl & _). eauto.
Qed.

Lemma lbfgs_step_completes (alg : lbfgs) (opt : optimizer)
      (closure_fn : M tensor) (P : state -> Prop) :
  (forall s, P s ->
             exists loss e s', closure_fn s = (Ok loss, s')
                               /\ data loss = Sc e
                               /\ (forall mv, P (snd (update_params opt mv s')))) ->
  forall s, P s -> exists s', lbfgs_step alg opt closure_fn s = (Ok tt, s').
Proof.
  intros Hc. induction alg as [|move next IH]; intros s Hs; cbn [lbfgs_step].
  - eexists. reflexivity.
  - destruct (Hc s Hs) as (loss & e & s1 & E & Hd & HP).
    rewrite (bind_step _ _ _ _ _ E).
    unfold bind at 1, item. rewrite Hd. cbn [elems].
    unfold bind at 1, get. unfold bind at 1.
    specialize (HP (move (eval (store s1) e) (grad_of s1))).
    destruct (IH (eval (store s1) e) (grad_of s1) _ HP) as [s' Hs'].
    exists s'. exact Hs'.
Qed.

(** A training run of a `Wave` on the kinds of batches the driver passes. *)
Lemma train_completes_wave
      (alg : lbfgs) (lin lout : linear) (ls : list linear) (ix it n : nat)
        (x_0 u_0 : tensor) (xs us : list expr) (ts : list R) (s : state) :
  let w := Wave (Linear lin) (Linear lout) (ModuleList (map Linear ls)) Tanh_ in
  in_features lin = 2%nat ->
  chain (out_features lin) ls (in_features lout) ->
  out_features lout = 1%nat ->
  (0 < out_features lin)%nat ->
  Forall (fun l => (0 < out_features l)%nat) ls ->
  ls <> [] ->
  ix <> it -> (0 < n)%nat ->
  ~ In ix (param_ids w) -> ~ In it (param_ids w) ->
  (forall id, In id (param_ids w) -> (id < next_id s)%nat) ->
  data x_0 = Vec xs -> data u_0 = Vec us -> ts <> [] ->
  exists s',
    train alg (as_model w) (leaf1 ix n) (leaf1 it n) x_0 u_0 (const1 ts) s
    = (Ok tt, s').
Proof.
  intros w Hin Hc Hout Hpos Hls Hne Hxt Hn Hix Hit Hold Hx Hu Hts.
  destruct (wave_body lin lout ls Hin Hc Hout Hpos Hls Hne)
    as (body & Hsame & _ & Ht & Hcx & _ & Hfresh).
  fold w in Hsame, Hfresh.
  unfold train.
  apply (lbfgs_step_completes alg _ _
           (fun s0 => forall id, In id (param_ids w) -> (id < next_id s0)%nat));
    [| exact Hold].
  intros s0 Hs0.
  rewrite (same_forward_closure _ _ _ _ _ _ _ _ s0 Hsame).
  assert (Hf : mentions_leaf (S (next_id s0)) body = false).
  { apply Hfresh. intros H. apply Hs0 in H. lia. }
  destruct (closure_returns_rowwise body
              (mkOptimizer (parameters (as_model w))) ix it n x_0 u_0 xs us ts
              s0 Hxt Hn (Hfresh ix Hix) (Hfresh it Hit) Ht Hcx Hf Hx Hu Hts)
    as (loss & s1 & E).
  pose proof (closure_backward body (mkOptimizer (parameters (as_model w)))
                (leaf1 ix n) (leaf1 it n) x_0 u_0 (const1 ts) s0) as B.
  cbv zeta in B. rewrite E in B.
  destruct B as (Hid & _ & _ & e & He & _).
  exists loss, e, s1. split; [exact E |]. split; [exact He |].
  intros mv id Hin'. cbn [snd update_params next_id].
  apply Hs0 in Hin'. lia.
Qed.

(** X17.  On the kinds of batches the driver passes (two distinct flat leaf
    batches of collocation points of the same positive length, flat batches
    for the initial condition, a flat non-empty batch of boundary times that
    does not require grad) and a `Wave` whose layers fit, with at least one
    hidden layer, a training run ends without an exception, whatever the
    parameter values and whatever the optimizer decides. *)
Theorem train_completes_on_driver_inputs
        (alg : lbfgs) (lin lout : linear) (ls : list linear) (ix it n : nat)
        (x_0 u_0 : tensor) (xs us : list expr) (ts : list R) (s : state) :
  let w := Wave (Linear lin) (Linear lout) (ModuleList (map Linear ls)) Tanh_ in
  in_features lin = 2%nat ->
  chain (out_features lin) ls (in_features lout) ->
  out_features lout = 1%nat ->
  (0 < out_features lin)%nat ->
  Forall (fun l => (0 < out_features l)%nat) ls ->
  ls <> [] ->
  ix <> it -> (0 < n)%nat ->
  ~ In ix (param_ids w) -> ~ In it (param_ids w) ->
  (forall id, In id (param_ids w) -> (id < next_id s)%nat) ->
  data x_0 = Vec xs -> data u_0 = Vec us -> ts <> [] ->
  exists s',
    train alg (as_model w) (leaf1 ix n) (leaf1 it n) x_0 u_0 (const1 ts) s
    = (Ok tt, s').
Proof.
  intros w. now apply train_completes_wave.
Qed.

(** X17 at the small `Wave` and an optimizer that evaluates once. *)
Lemma train_completes_on_driver_inputs_witness :
  exists s',
    train (Evaluate (fun _ _ _ y => y) (fun _ _ => Finish))
          (as_model small_wave) (leaf1 6 1) (leaf1 7 1)
          (leaf1 8 2) (leaf1 9 2) (const1 [0; 1])
          (mkState 10 (fun _ => 1) (fun _ => None) 0 [] (fun _ => 0))
    = (Ok tt, s').
Proof.
  apply (train_completes_on_driver_inputs
           (Evaluate (fun _ _ _ y => y) (fun _ _ => Finish))
           (mkLinear 2 1 0 1) (mkLinear 1 1 4 5) [mkLinear 1 1 2 3] 6 7 1
           (leaf1 8 2) (leaf1 9 2)
           [Var (Elem 8 0 0); Var (Elem 8 0 1)]
           [Var (Elem 9 0 0); Var (Elem 9 0 1)] [0; 1]
           (mkState 10 (fun _ => 1) (fun _ => None) 0 [] (fun _ => 0))).
  - reflexivity.
  - cbn. auto.
  - reflexivity.
  - cbn. lia.
  - repeat constructor.
  - discriminate.
  - discriminate.
  - lia.
  - cbn. lia.
  - cbn. lia.
  - cbn. lia.
  - reflexivity.
  - reflexivity.
  - discriminate.
Defined.

End TrainingRun.

(** ** The forward pass *)

Section ForwardPass.

Import Graph Torch Notebook.
Local Open Scope R_scope.

(** X18.  The forward pass of a `Wave` whose layers fit acts row by row: on an
    [(n, 2)] input it returns, without touching the state, an [(n, 1)]
    tensor that requires grad and is not a leaf, and output row [i] is what
    the model returns on input row [i] alone, whatever else is in the batch;
    an input with a row that has not two entries is refused. *)
Theorem Wave_forward_acts_row_by_row
        (lin lout : linear) (ls : list linear) (inp : tensor)
        (rows : list (list expr)) (s : state) :
  let w := Wave (Linear lin) (Linear lout) (ModuleList (map Linear ls)) Tanh_ in
  in_features lin = 2%nat ->
  chain (out_features lin) ls (in_features lout) ->
  out_features lout = 1%nat ->
  data inp = Mat rows ->
  if forallb (fun r => Nat.eqb (length r) 2) rows
  then exists outs,
      call w inp s = (Ok (mkTensor Derived (Mat (map (fun e => [e]) outs))), s)
      /\ length outs = length rows
      /\ forall i r,
          nth_error rows i = Some r ->
          exists e,
            nth_error outs i = Some e
            /\ forall o s1,
                call w (mkTensor o (Mat [r])) s1
                = (Ok (mkTensor Derived (Mat [[e]])), s1)
  else call w inp s = (Raise ShapeMismatch, s).
Proof.
  intros w Hin Hc Hout Hd.
  destruct (tracked_linear_row_hd lout
              (hidden_row ls (linear_row lin [Var (Arg 0); Var (Arg 1)])) Hout)
    as (body & Hbody & Htr).
  pose proof (wave_is_rowwise_body lin lout ls body Hin Hc Hout Hbody Htr)
    as Hw.
  cbn [forward as_model rowwise] in Hw. fold w in Hw.
  destruct (forallb (fun r => Nat.eqb (length r) 2) rows) eqn:Hok.
  - exists (map (fun r => inst (row_of r) body) rows).
    split; [| split].
    + rewrite Hw. unfold rowwise_forward. rewrite Hd, Hok, Htr, orb_true_r.
      now rewrite map_map.
    + apply length_map.
    + intros i r Hr. exists (inst (row_of r) body). split.
      * now rewrite nth_error_map, Hr.
      * intros o s1. rewrite Hw. unfold rowwise_forward. cbn [data forallb].
        rewrite forallb_forall in Hok.
        rewrite (Hok r (nth_error_In _ _ Hr)), Htr, orb_true_r.
        reflexivity.
  - rewrite Hw. unfold rowwise_forward. now rewrite Hd, Hok.
Qed.

(** X18 at the small `Wave` on two rows. *)
Lemma Wave_forward_acts_row_by_row_witness :
  exists outs,
    call small_wave
         (mkTensor Detached (Mat [[Const 0; Const 1]; [Const 2; Const 3]]))
         (demo_state 0)
    = (Ok (mkTensor Derived (Mat (map (fun e => [e]) outs))), demo_state 0)
    /\ length outs = 2%nat
    /\ forall i r,
        nth_error [[Const 0; Const 1]; [Const 2; Const 3]] i = Some r ->
        exists e,
          nth_error outs i = Some e
          /\ forall o s1,
              call small_wave (mkTensor o (Mat [r])) s1
              = (Ok (mkTensor Derived (Mat [[e]])), s1).
Proof.
  apply (Wave_forward_acts_row_by_row (mkLinear 2 1 0 1) (mkLinear 1 1 4 5)
           [mkLinear 1 1 2 3]
           (mkTensor Detached (Mat [[Const 0; Const 1]; [Const 2; Const 3]]))
           [[Const 0; Const 1]; [Const 2; Const 3]] (demo_state 0)).
  - reflexivity.
  - cbn. auto.
  - reflexivity.
  - reflexivity.
Defined.

End ForwardPass.

(** ** The model as the driver builds it *)

Section FreshModel.

Import Graph Torch Notebook.
Local Open Scope R_scope.

Local Open Scope monad_scope.





End FreshModel.

(** ** The training cell *)

Section DriverCell.

Import Graph Torch Notebook.
Local Open Scope R_scope.

Lemma set_requires_grad_const1 (l : list R) (s : state) :
  set_requires_grad (const1 l) s
  = (Ok (leaf1 (next_id s) (length l)),
     mkState (S (next_id s))
             (write (next_id s) (tvalue (store s) (const1 l)) (store s))
             (grad_of s) (iter s) (stdout s) (rng s)).
Proof.
  unfold set_requires_grad. cbn [const1 origin_of data].
  now rewrite leaf_like_vec, length_map.
Qed.

(** X20.  The training cell runs to the end: with a non-empty sample of
    collocation points and a non-empty batch of boundary times, creating the
    tensors, building and initializing the model and training it ends
    without an exception, from every state and whatever the optimizer
    decides. *)
Theorem main_completes
        (alg : lbfgs) (x_ic u_ic t_x_train : list R)
        (lhs_sample : list (R * R)) (s : state) :
  t_x_train <> [] -> lhs_sample <> [] ->
  exists s', main alg x_ic u_ic t_x_train lhs_sample s = (Ok tt, s').
Proof.
  intros Ht Hl. unfold main. cbv zeta.
  rewrite (bind_step _ _ _ _ _ (set_requires_grad_const1 x_ic s)).
  set (s1 := mkState (S (next_id s)) _ _ _ _ _).
  rewrite (bind_step _ _ _ _ _ (set_requires_grad_const1 u_ic s1)).
  set (s2 := mkState (S (next_id s1)) _ _ _ _ _).
  rewrite (bind_step _ _ _ _ _ (set_requires_grad_const1 _ s2)).
  set (s3 := mkState (S (next_id s2)) _ _ _ _ _).
  rewrite (bind_step _ _ _ _ _ (set_requires_grad_const1 _ s3)).
  set (s4 := mkState (S (next_id s3)) _ _ _ _ _).
  destruct (Wave_init_result s4)
    as (lin & lout & ls & s5 & E & Hin & Hc & Hout & Hlen & Hpos & Hls & _
        & Hids & _).
  rewrite (bind_step _ _ _ _ _ E).
  rewrite (bind_step _ _ _ _ _ (apply_init_weights _ s5)).
  rewrite !length_map.
  destruct (init_all_frame
              (linears (Wave (Linear lin) (Linear lout)
                             (ModuleList (map Linear ls)) Tanh_)) s5)
    as (_ & _ & Hn & _).
  assert (H5 : (next_id s4 <= next_id s5)%nat).
  { destruct (Nat.le_gt_cases (next_id s4) (next_id s5)) as [H|H];
      [exact H | exfalso].
    assert (Hi : In (weight lin)
                    (param_ids (Wave (Linear lin) (Linear lout)
                                     (ModuleList (map Linear ls)) Tanh_)))
      by (now left).
    apply Hids in Hi. lia. }
  eapply (train_completes_wave alg lin lout ls
            (next_id s2) (next_id s3) (length lhs_sample)
            (leaf1 (next_id s) (length x_ic)) (leaf1 (next_id s1) (length u_ic))
            _ _ t_x_train _ Hin Hc Hout Hpos Hls).
  - intros ->. discriminate Hlen.
  - cbn. lia.
  - destruct lhs_sample; [congruence | cbn; lia].
  - intros H. apply Hids in H. cbn in H. lia.
  - intros H. apply Hids in H. cbn in H. lia.
  - intros id H. apply Hids in H. rewrite Hn. lia.
  - apply data_leaf1.
  - apply data_leaf1.
  - exact Ht.
Qed.

(** X20 at one sample per batch and an optimizer that evaluates once. *)
Lemma main_completes_witness :
  exists s',
    main (Evaluate (fun _ _ _ y => y) (fun _ _ => Finish))
         [1 / 4] [1] [0] [(1 / 2, 1 / 2)] (demo_state 0)
    = (Ok tt, s').
Proof.
  apply (main_completes (Evaluate (fun _ _ _ y => y) (fun _ _ => Finish))
           [1 / 4] [1] [0] [(1 / 2, 1 / 2)] (demo_state 0));
    discriminate.
Defined.

End DriverCell.

(** ** The sampling cell *)

Section SamplingCell.

Import Graph Torch Notebook.
Local Open Scope R_scope.

Lemma np_item_in_range (a : list R) (k : Z) :
  (0 <= k < Z.of_nat (length a))%Z ->
  np_item a k = Some (nth (Z.to_nat k) a 0).
Proof.
  intros Hk. unfold np_item.
  destruct (Z.leb_spec 0 k); [| lia].
  destruct (Z.ltb_spec k (Z.of_nat (length a))); [| lia].
  cbn [andb]. apply nth_error_nth'. lia.
Qed.

Lemma np_take_in_range (a : list R) (idx : list Z) (s : state) :
  Forall (fun k => (0 <= k < Z.of_nat (length a))%Z) idx ->
  np_take a idx s = (Ok (map (fun k => nth (Z.to_nat k) a 0) idx), s).
Proof.
  intros H. unfold np_take.
  rewrite (map_ext_in (np_item a)
             (fun k => Some (nth (Z.to_nat k) a 0))).
  - now rewrite (sequence_map_some (fun k => nth (Z.to_nat k) a 0)).
  - rewrite Forall_forall in H. intros k Hk. apply np_item_in_range.
    now apply H.
Qed.

(** The sampling cell on index samples within the bounds of the arrays they
    index. *)
Lemma sampling_cell_run (xi xb tb : list R) (idx1 idx2 : list Z)
      (tx : list R) (s : state) :
  Forall (fun k => (0 <= k < Z.of_nat (length (xi ++ xb)))%Z) idx1 ->
  Forall (fun k => (0 <= k < Z.of_nat (length (xi ++ tb)))%Z) idx1 ->
  Forall (fun k => (0 <= k < Z.of_nat (length (xi ++ xi)))%Z) idx1 ->
  Forall (fun k => (0 <= k < Z.of_nat (length tx))%Z) idx2 ->
  Forall (fun k => (0 <= k < Z.of_nat (length idx2))%Z) idx2 ->
  let take a := map (fun k => nth (Z.to_nat k) a 0) in
  let ti := map (fun _ => 0) xi in
  let ui := map (fun x => sin (2 * PI * x)) xi in
  let ub := map (fun _ => 0) ui in
  let tx' := take tx idx2 in
  sampling_cell xi xb tb idx1 idx2 tx s
  = (Ok (mkSamples xi ti xb tb ui ub
                   (take (xi ++ xb) idx1) (take (ti ++ tb) idx1)
                   (take (ui ++ ub) idx1)
                   tx' (map (fun z => z + 1) (map (fun _ => 0) tx'))
                   (take (map (fun t => 2 * PI * exp (- t)) tx') idx2)), s).
Proof.
  intros H1 H2 H3 H4 H5 take ti ui ub tx'. unfold sampling_cell.
  assert (H2' : Forall (fun k => (0 <= k < Z.of_nat (length (ti ++ tb)))%Z)
                       idx1).
  { unfold ti. rewrite length_app, length_map, <- length_app. exact H2. }
  assert (H3' : Forall (fun k => (0 <= k < Z.of_nat (length (ui ++ ub)))%Z)
                       idx1).
  { unfold ub, ui. rewrite length_app, !length_map, <- length_app. exact H3. }
  set (ux := map (fun t => 2 * PI * exp (- t)) tx').
  assert (H5' : Forall (fun k => (0 <= k < Z.of_nat (length ux))%Z) idx2).
  { unfold ux, tx', take. rewrite !length_map. exact H5. }
  rewrite (bind_step _ _ _ _ _ (np_take_in_range _ _ s H1)).
  rewrite (bind_step _ _ _ _ _ (np_take_in_range _ _ s H2')).
  rewrite (bind_step _ _ _ _ _ (np_take_in_range _ _ s H3')).
  rewrite (bind_step _ _ _ _ _ (np_take_in_range _ _ s H4)).
  rewrite (bind_step _ _ _ _ _ (np_take_in_range _ _ s H5')).
  reflexivity.
Qed.

Lemma nth_zeros {A : Type} (l : list A) (k : nat) :
  nth k (map (fun _ => 0) l) 0 = 0.
Proof. apply nth_const_map. Qed.

(** X21.  The first index sample picks, for every position, one point with its
    time and its label: an index below the number of initial points picks an
    initial point, with time 0 and label sin(2 pi x); any other index picks
    a point of the second batch with its time and the label 0.  The three
    arrays stay aligned. *)
Theorem sampling_cell_keeps_triples_aligned
        (xi xb tb : list R) (idx1 idx2 : list Z) (tx : list R) (s : state) :
  length xb = length xi -> length tb = length xi ->
  Forall (fun k => (0 <= k < 2 * Z.of_nat (length xi))%Z) idx1 ->
  Forall (fun k => (0 <= k < Z.of_nat (length tx))%Z) idx2 ->
  Forall (fun k => (0 <= k < Z.of_nat (length idx2))%Z) idx2 ->
  exists d,
    sampling_cell xi xb tb idx1 idx2 tx s = (Ok d, s)
    /\ combine (x_train d) (combine (t_train d) (u_train d))
       = map (fun k =>
                let i := Z.to_nat k in
                if (i <? length xi)%nat
                then (nth i xi 0, (0, sin (2 * PI * nth i xi 0)))
                else (nth (i - length xi) xb 0,
                      (nth (i - length xi) tb 0, 0)))
             idx1.
Proof.
  intros Hb Ht H1 H4 H5.
  assert (Hl : forall l : list R,
             length l = length xi ->
             Forall (fun k => (0 <= k < Z.of_nat (length (xi ++ l)))%Z) idx1).
  { intros l E. rewrite length_app, E.
    eapply Forall_impl; [| exact H1]. cbv beta. intros k Hk. lia. }
  eexists. split.
  - apply sampling_cell_run; auto.
  - cbn [x_train t_train u_train]. rewrite !combine_map_same.
    apply map_ext_in. intros k Hk. rewrite Forall_forall in H1.
    specialize (H1 k Hk). cbv zeta.
    destruct (Nat.ltb_spec (Z.to_nat k) (length xi)) as [Hlt|Hge].
    + rewrite !app_nth1 by (rewrite ?length_map; exact Hlt).
      rewrite nth_zeros.
      rewrite (nth_indep (map (fun x => sin (2 * PI * x)) xi) 0
                 (sin (2 * PI * 0))) by (now rewrite length_map).
      now rewrite (map_nth (fun x => sin (2 * PI * x))).
    + rewrite !app_nth2 by (rewrite ?length_map; exact Hge).
      rewrite !length_map. now rewrite nth_zeros.
Qed.

(** X21 at two points per batch. *)
Lemma sampling_cell_keeps_triples_aligned_witness :
  exists d,
    sampling_cell [1 / 4; 1 / 2] [1; 0] [1 / 3; 1] [3%Z; 0%Z] [0%Z; 0%Z]
                  [1; 2] (demo_state 0)
    = (Ok d, demo_state 0)
    /\ combine (x_train d) (combine (t_train d) (u_train d))
       = map (fun k =>
                let i := Z.to_nat k in
                if (i <? length [1 / 4; 1 / 2])%nat
                then (nth i [1 / 4; 1 / 2] 0,
                      (0, sin (2 * PI * nth i [1 / 4; 1 / 2] 0)))
                else (nth (i - length [1 / 4; 1 / 2]) [1; 0] 0,
                      (nth (i - length [1 / 4; 1 / 2]) [1 / 3; 1] 0, 0)))
             [3%Z; 0%Z].
Proof.
  apply (sampling_cell_keeps_triples_aligned [1 / 4; 1 / 2] [1; 0] [1 / 3; 1]
           [3%Z; 0%Z] [0%Z; 0%Z] [1; 2] (demo_state 0));
    try reflexivity; repeat constructor; cbn; lia.
Defined.

(** X22.  The second index sample is used twice: once on the boundary times,
    and once more on the boundary values computed from the times it picked.
    Entry [i] of `u_x_train` is thus the boundary value 2 pi e^(-t) at the
    time in position [idx2[i]] of `t_x_train`, not at the time in position
    [i]; `x_x_train` is constant 1. *)
Theorem sampling_cell_indexes_boundary_values_twice
        (xi xb tb : list R) (idx1 idx2 : list Z) (tx : list R) (s : state) :
  length xb = length xi -> length tb = length xi ->
  Forall (fun k => (0 <= k < 2 * Z.of_nat (length xi))%Z) idx1 ->
  Forall (fun k => (0 <= k < Z.of_nat (length tx))%Z) idx2 ->
  Forall (fun k => (0 <= k < Z.of_nat (length idx2))%Z) idx2 ->
  exists d,
    sampling_cell xi xb tb idx1 idx2 tx s = (Ok d, s)
    /\ t_x_train d = map (fun k => nth (Z.to_nat k) tx 0) idx2
    /\ u_x_train d
       = map (fun k => 2 * PI * exp (- nth (Z.to_nat k) (t_x_train d) 0)) idx2
    /\ x_x_train d = map (fun _ => 1) idx2.
Proof.
  intros Hb Ht H1 H4 H5.
  assert (Hl : forall l : list R,
             length l = length xi ->
             Forall (fun k => (0 <= k < Z.of_nat (length (xi ++ l)))%Z) idx1).
  { intros l E. rewrite length_app, E.
    eapply Forall_impl; [| exact H1]. cbv beta. intros k Hk. lia. }
  eexists. split; [apply sampling_cell_run; auto |].
  cbn [t_x_train u_x_train x_x_train]. split; [reflexivity |]. split.
  - apply map_ext_in. intros k Hk. rewrite Forall_forall in H5.
    specialize (H5 k Hk).
    rewrite (nth_indep (map (fun t => 2 * PI * exp (- t)) _) 0
               (2 * PI * exp (- 0))) by (rewrite !length_map; lia).
    now rewrite (map_nth (fun t => 2 * PI * exp (- t))).
  - rewrite !map_map. apply map_ext. intros k. lra.
Qed.

(** X22 at two boundary times, picked in reverse order. *)
Lemma sampling_cell_indexes_boundary_values_twice_witness :
  exists d,
    sampling_cell [1 / 4; 1 / 2] [1; 0] [1 / 3; 1] [3%Z; 0%Z] [1%Z; 0%Z]
                  [1; 2] (demo_state 0)
    = (Ok d, demo_state 0)
    /\ t_x_train d = map (fun k => nth (Z.to_nat k) [1; 2] 0) [1%Z; 0%Z]
    /\ u_x_train d
       = map (fun k => 2 * PI * exp (- nth (Z.to_nat k) (t_x_train d) 0))
             [1%Z; 0%Z]
    /\ x_x_train d = map (fun _ => 1) [1%Z; 0%Z].
Proof.
  apply (sampling_cell_indexes_boundary_values_twice [1 / 4; 1 / 2] [1; 0]
           [1 / 3; 1] [3%Z; 0%Z] [1%Z; 0%Z] [1; 2] (demo_state 0));
    try reflexivity; repeat constructor; cbn; lia.
Defined.

End SamplingCell.
